(** * Request admission pipeline of the portfolio application

    A shallow embedding of the rate limiter ([lib/rate-limit.ts]), the
    sanitizer and validator ([lib/security.ts]), the chat and contact route
    handlers ([app/api/chat/route.ts], [app/api/contact/route.ts]), the
    admission middleware ([middleware.ts]), the start-up validation of the
    environment and what the chat widget posts
    ([components/chat/ChatWidget.tsx]), followed by the properties the
    specification states about them.

    Conventions.
    - A JavaScript string is a Rocq [string]: each [ascii] stands for one
      UTF-16 code unit below 256 (the Latin-1 range).  Lengths, [trim],
      [substring], [toLowerCase] and the regular expressions are given their
      ECMAScript meaning on that range.
    - Times are integers ([Z]): milliseconds as returned by [Date.now()].
    - Third-party packages (DOMPurify, rate-limiter-flexible, zod, the Clerk
      route matcher) are not part of the repository; what the handlers use of
      them is modelled from the specification and marked as such.
    - A call ends normally or by throwing: where the code can throw, the
      function returns a [completion], and a [catch] is a case analysis on
      it. *)

From Stdlib Require Import ZArith Lia List String Ascii Bool DecimalString.
From stdpp Require Import gmap strings list.
Import ListNotations.

Local Open Scope Z_scope.

(* ================================================================== *)
(** ** JavaScript primitives *)
(* ================================================================== *)

Module JS.

Definition code (c : ascii) : N := N_of_ascii c.

Definition in_range (lo hi c : ascii) : bool :=
  ((code lo <=? code c) && (code c <=? code hi))%N.

Definition is_upper (c : ascii) : bool := in_range "A" "Z" c.
Definition is_lower (c : ascii) : bool := in_range "a" "z" c.
Definition is_alpha (c : ascii) : bool := is_upper c || is_lower c.
Definition is_digit (c : ascii) : bool := in_range "0" "9" c.

(** [\w] and the word characters of [\b]: [A-Za-z0-9_]. *)
Definition is_word (c : ascii) : bool :=
  is_alpha c || is_digit c || Ascii.eqb c "_".

(** WhiteSpace and LineTerminator code units below 256: TAB, LF, VT, FF,
    CR, SP and NBSP.  This is the set removed by [String.prototype.trim]
    and matched by [\s]. *)
Definition is_space (c : ascii) : bool :=
  ((code c =? 9) || (code c =? 10) || (code c =? 11) || (code c =? 12)
   || (code c =? 13) || (code c =? 32) || (code c =? 160))%N.

(** [toLowerCase] on one code unit: A-Z and the Latin-1 capitals
    U+00C0..U+00DE (U+00D7, the multiplication sign, excepted). *)
Definition lower_char (c : ascii) : ascii :=
  if is_upper c
     || (((192 <=? code c) && (code c <=? 222))%N && negb (code c =? 215)%N)
  then ascii_of_N (code c + 32) else c.

Fixpoint toLowerCase (s : string) : string :=
  match s with
  | EmptyString => EmptyString
  | String c s' => String (lower_char c) (toLowerCase s')
  end.

(** [Canonicalize] of a case-insensitive (non-unicode) regular expression,
    as far as it can identify a code unit with an ASCII one: a-z fold to
    A-Z; a non-ASCII code unit never folds to an ASCII one. *)
Definition canonicalize (c : ascii) : ascii :=
  if is_lower c then ascii_of_N (code c - 32) else c.

Fixpoint trimStart (s : string) : string :=
  match s with
  | EmptyString => EmptyString
  | String c s' => if is_space c then trimStart s' else s
  end.

Fixpoint trimEnd (s : string) : string :=
  match s with
  | EmptyString => EmptyString
  | String c s' =>
      match trimEnd s' with
      | EmptyString => if is_space c then EmptyString else String c EmptyString
      | r => String c r
      end
  end.

Definition trim (s : string) : string := trimEnd (trimStart s).

Fixpoint take (n : nat) (s : string) : string :=
  match n, s with
  | S n', String c s' => String c (take n' s')
  | _, _ => EmptyString
  end.

Fixpoint drop (n : nat) (s : string) : string :=
  match n, s with
  | S n', String _ s' => drop n' s'
  | _, _ => s
  end.

(** [s.substring(start, end)] for non-negative integer arguments: both are
    clamped to the length and swapped when [start > end]. *)
Definition substring (s : string) (start end_ : nat) : string :=
  let len := String.length s in
  let a := Nat.min start len in
  let b := Nat.min end_ len in
  take (Nat.max a b - Nat.min a b) (drop (Nat.min a b) s).

(** [String(n)] for an integer [n]. *)
Definition String_of_Z (n : Z) : string := NilZero.string_of_int (Z.to_int n).

(** [Math.ceil(ms / 1000)] for an integer [ms]. *)
Definition ceil_div_1000 (ms : Z) : Z := - ((- ms) / 1000).

(** [str.split(sep)[0]]: the part before the first separator. *)
Fixpoint split_first (sep : ascii) (s : string) : string :=
  match s with
  | EmptyString => EmptyString
  | String c s' => if Ascii.eqb c sep then EmptyString else String c (split_first sep s')
  end.

(** [a || b] on strings: the empty string is falsy. *)
Definition or_string (a b : string) : string :=
  match a with EmptyString => b | _ => a end.

(** [o || b] where [o] may be [null]/[undefined]. *)
Definition or_default (o : option string) (b : string) : string :=
  match o with Some a => or_string a b | None => b end.

(** Truthiness of a possibly missing string. *)
Definition truthy (o : option string) : bool :=
  match o with Some (String _ _) => true | _ => false end.

Fixpoint join (sep : string) (l : list string) : string :=
  match l with
  | [] => EmptyString
  | [x] => x
  | x :: l' => x +:+ sep +:+ join sep l'
  end.

(** JSON values as produced by [req.json()].  An object is the list of its
    own properties; [assoc] reads one ([undefined] is [None]). *)
#[warnings="-register-all"]
Inductive json : Type :=
| JNull
| JBool (b : bool)
| JNumber (n : Z)
| JString (s : string)
| JArray (l : list json)
| JObject (fields : list (string * json)).

Fixpoint assoc (k : string) (fields : list (string * json)) : option json :=
  match fields with
  | [] => None
  | (k', v) :: rest => if String.eqb k k' then Some v else assoc k rest
  end.

(** An error object: its [name] and its [message]. *)
Record Error : Type := {
  error_name : string;
  error_message : string
}.

(** How the evaluation of an expression or of a call ends: normally, with
    a value, or abruptly, with a thrown error. *)
Inductive completion (A : Type) : Type :=
| Normal (a : A)
| Throw (e : Error).

Arguments Normal {A} a.
Arguments Throw {A} e.

(** The error thrown by evaluating an identifier that has no binding. *)
Definition ReferenceError (identifier : string) : Error :=
  {| error_name := "ReferenceError";
     error_message := identifier +:+ " is not defined" |}.

(** The error thrown by reading property [property] of [undefined]. *)
Definition TypeError_undefined (property : string) : Error :=
  {| error_name := "TypeError";
     error_message :=
       "Cannot read properties of undefined (reading '" +:+ property +:+ "')" |}.

End JS.

(* ================================================================== *)
(** ** Regular expressions ([RegExp.prototype.test]) *)
(* ================================================================== *)

Module RegExp.

(** The fragment of ECMAScript patterns used by [lib/security.ts]. *)
Inductive regex : Type :=
| Empty                          (* the empty pattern *)
| Char (p : ascii -> bool)       (* one code unit of a class *)
| Seq (r1 r2 : regex)            (* r1 r2 *)
| Alt (r1 r2 : regex)            (* r1|r2 *)
| Star (r : regex)               (* r* *)
| Bol                            (* ^ (no m flag) *)
| Eol                            (* $ (no m flag) *)
| WordBoundary                   (* \b *)
| NotAhead (r : regex).          (* (?!r) *)

Definition Plus (r : regex) : regex := Seq r (Star r).
(** [r{2,}] *)
Definition AtLeast2 (r : regex) : regex := Seq r (Seq r (Star r)).

Definition lit (c : ascii) : regex := Char (Ascii.eqb c).
(** One literal character under the [i] flag. *)
Definition lit_i (c : ascii) : regex :=
  Char (fun x => Ascii.eqb (JS.canonicalize x) (JS.canonicalize c)).

Fixpoint seq_of (f : ascii -> regex) (s : string) : regex :=
  match s with
  | EmptyString => Empty
  | String c EmptyString => f c
  | String c s' => Seq (f c) (seq_of f s')
  end.
Definition str (s : string) : regex := seq_of lit s.
Definition str_i (s : string) : regex := seq_of lit_i s.

Fixpoint alts (l : list regex) : regex :=
  match l with
  | [] => NotAhead Empty
  | [r] => r
  | r :: l' => Alt r (alts l')
  end.

Definition is_word_opt (o : option ascii) : bool :=
  match o with Some c => JS.is_word c | None => false end.

(** The loop of [r*]: [mr] matches one iteration.  An iteration that
    consumes nothing is refused, as in ECMAScript's RepeatMatcher; [fuel]
    bounds the number of iterations and the length of the input is enough. *)
Fixpoint star_loop
    (mr : option ascii -> list ascii -> (option ascii -> list ascii -> bool) -> bool)
    (k : option ascii -> list ascii -> bool)
    (fuel : nat) (prev : option ascii) (s : list ascii) {struct fuel} : bool :=
  match fuel with
  | O => k prev s
  | S fuel' =>
      if mr prev s (fun prev' s' =>
           if (length s' <? length s)%nat then star_loop mr k fuel' prev' s' else false)
      then true else k prev s
  end.

(** Backtracking matcher in continuation-passing style.  [prev] is the code
    unit before the current position ([None] at the start of the input),
    [s] the rest of the input, [k] what remains to be matched.
    Conjunctions and disjunctions are written with [if] so that evaluation
    stops at the first decisive branch. *)
Fixpoint m (r : regex) (prev : option ascii) (s : list ascii)
         (k : option ascii -> list ascii -> bool) {struct r} : bool :=
  match r with
  | Empty => k prev s
  | Char p =>
      match s with
      | c :: s' => if p c then k (Some c) s' else false
      | [] => false
      end
  | Seq r1 r2 => m r1 prev s (fun prev' s' => m r2 prev' s' k)
  | Alt r1 r2 => if m r1 prev s k then true else m r2 prev s k
  | Star r' => star_loop (m r') k (length s) prev s
  | Bol => match prev with None => k prev s | Some _ => false end
  | Eol => match s with [] => k prev s | _ :: _ => false end
  | WordBoundary =>
      if xorb (is_word_opt prev) (is_word_opt (head s)) then k prev s else false
  | NotAhead r' => if m r' prev s (fun _ _ => true) then false else k prev s
  end.

(** Does the pattern match starting at some position of the input? *)
Fixpoint search (r : regex) (prev : option ascii) (s : list ascii) : bool :=
  if m r prev s (fun _ _ => true) then true
  else match s with
       | [] => false
       | c :: s' => search r (Some c) s'
       end.

(** [pattern.test(input)] on a freshly created pattern ([lastIndex] is 0,
    so the [g] flag does not change the answer). *)
Definition test (r : regex) (input : string) : bool :=
  search r None (list_ascii_of_string input).

End RegExp.

(* ================================================================== *)
(** ** DOMPurify (third-party) *)
(* ================================================================== *)

Module DOMPurify.

(** Elements removed together with their content (DOMPurify's
    FORBID_CONTENTS default), lower case. *)
Definition forbid_contents : list string :=
  ["annotation-xml"; "audio"; "colgroup"; "desc"; "foreignobject"; "head";
   "iframe"; "math"; "mi"; "mn"; "mo"; "ms"; "mtext"; "noembed"; "noframes";
   "noscript"; "plaintext"; "script"; "style"; "svg"; "template"; "thead";
   "title"; "video"; "xmp"]%string.

(** Start tags that the HTML parser ignores inside a body: such an element
    never exists, so its content stays. *)
Definition ignored_in_body : list string :=
  ["caption"; "col"; "colgroup"; "frame"; "head"; "tbody"; "td"; "tfoot";
   "th"; "thead"; "tr"]%string.

(** Elements whose content is text up to their end tag: a start tag of the
    same name inside does not nest. *)
Definition raw_text : list string :=
  ["iframe"; "noembed"; "noframes"; "script"; "style"; "title"; "xmp"]%string.

(** White space inside a tag: TAB, LF, FF, CR and SP. *)
Definition is_tag_space (c : ascii) : bool :=
  ((JS.code c =? 9) || (JS.code c =? 10) || (JS.code c =? 12)
   || (JS.code c =? 13) || (JS.code c =? 32))%N.

(** Characters that end a tag name. *)
Definition ends_name (c : ascii) : bool :=
  is_tag_space c || Ascii.eqb c "/" || Ascii.eqb c ">".

(** Tag names are compared with A-Z folded to a-z. *)
Definition lower_ascii (c : ascii) : ascii :=
  if JS.is_upper c then ascii_of_N (JS.code c + 32) else c.

(** The rest of the input after the next [>] (nothing when there is none).
    This is how a bogus comment ([<?...>], [<!x...>], [</ ...>]) ends. *)
Fixpoint skip_past_gt (s : list ascii) : list ascii :=
  match s with
  | [] => []
  | c :: s' => if Ascii.eqb c ">" then s' else skip_past_gt s'
  end.

Definition starts_with (p s : list ascii) : bool :=
  bool_decide (firstn (length p) s = p).

(** The states of the HTML tokenizer between a tag's name and its [>]. *)
Inductive tag_state : Type :=
| BeforeAttributeName
| AttributeName
| AfterAttributeName
| BeforeAttributeValue
| AttributeValueDoubleQuoted
| AttributeValueSingleQuoted
| AttributeValueUnquoted
| AfterAttributeValueQuoted
| SelfClosingStartTag.

(** The rest of the input after the [>] that ends the tag, read from the
    given state: a [>] inside a quoted attribute value does not end the
    tag.  A tag that the input does not finish swallows the rest. *)
Fixpoint skip_tag (st : tag_state) (s : list ascii) : list ascii :=
  match s with
  | [] => []
  | c :: s' =>
      match st with
      | BeforeAttributeName =>
          if is_tag_space c then skip_tag BeforeAttributeName s'
          else if Ascii.eqb c "/" then skip_tag SelfClosingStartTag s'
          else if Ascii.eqb c ">" then s'
          else skip_tag AttributeName s'
      | AttributeName =>
          if is_tag_space c then skip_tag AfterAttributeName s'
          else if Ascii.eqb c "/" then skip_tag SelfClosingStartTag s'
          else if Ascii.eqb c ">" then s'
          else if Ascii.eqb c "=" then skip_tag BeforeAttributeValue s'
          else skip_tag AttributeName s'
      | AfterAttributeName =>
          if is_tag_space c then skip_tag AfterAttributeName s'
          else if Ascii.eqb c "/" then skip_tag SelfClosingStartTag s'
          else if Ascii.eqb c "=" then skip_tag BeforeAttributeValue s'
          else if Ascii.eqb c ">" then s'
          else skip_tag AttributeName s'
      | BeforeAttributeValue =>
          if is_tag_space c then skip_tag BeforeAttributeValue s'
          else if Ascii.eqb c "034" then skip_tag AttributeValueDoubleQuoted s'
          else if Ascii.eqb c "'" then skip_tag AttributeValueSingleQuoted s'
          else if Ascii.eqb c ">" then s'
          else skip_tag AttributeValueUnquoted s'
      | AttributeValueDoubleQuoted =>
          if Ascii.eqb c "034" then skip_tag AfterAttributeValueQuoted s'
          else skip_tag AttributeValueDoubleQuoted s'
      | AttributeValueSingleQuoted =>
          if Ascii.eqb c "'" then skip_tag AfterAttributeValueQuoted s'
          else skip_tag AttributeValueSingleQuoted s'
      | AttributeValueUnquoted =>
          if is_tag_space c then skip_tag BeforeAttributeName s'
          else if Ascii.eqb c ">" then s'
          else skip_tag AttributeValueUnquoted s'
      | AfterAttributeValueQuoted =>
          if is_tag_space c then skip_tag BeforeAttributeName s'
          else if Ascii.eqb c "/" then skip_tag SelfClosingStartTag s'
          else if Ascii.eqb c ">" then s'
          else skip_tag AttributeName s'
      | SelfClosingStartTag =>
          if Ascii.eqb c ">" then s'
          else if is_tag_space c then skip_tag BeforeAttributeName s'
          else if Ascii.eqb c "/" then skip_tag SelfClosingStartTag s'
          else skip_tag AttributeName s'
      end
  end.

(** The rest of the input after the end of a comment: [-->] or [--!>]. *)
Fixpoint skip_comment (s : list ascii) : list ascii :=
  match s with
  | [] => []
  | c :: s' =>
      if starts_with ["-"; "-"; ">"]%char s then skipn 3 s
      else if starts_with ["-"; "-"; "!"; ">"]%char s then skipn 4 s
      else skip_comment s'
  end.

(** The same right after [<!--], where [>] and [->] end the comment at
    once. *)
Definition skip_comment_start (s : list ascii) : list ascii :=
  if starts_with [">"]%char s then skipn 1 s
  else if starts_with ["-"; ">"]%char s then skipn 2 s
  else skip_comment s.

(** Tag name at the head of the input, A-Z folded, and what follows it. *)
Fixpoint read_name (s : list ascii) : list ascii * list ascii :=
  match s with
  | [] => ([], [])
  | c :: s' =>
      if ends_name c then ([], s)
      else let '(n, rest) := read_name s' in (lower_ascii c :: n, rest)
  end.

(** Does the input start with the start tag, or the end tag, of [name]? *)
Definition at_open (name : list ascii) (s : list ascii) : bool :=
  starts_with ["<"]%char s
  && bool_decide (fst (read_name (skipn 1 s)) = name).

Definition at_close (name : list ascii) (s : list ascii) : bool :=
  starts_with ["<"; "/"]%char s
  && bool_decide (fst (read_name (skipn 2 s)) = name).

(** The rest of the input after the end tag that closes element [name],
    entered at nesting depth [depth]; [nests] says whether start tags of
    the same name inside count. *)
Fixpoint skip_element (nests : bool) (name : list ascii) (depth : nat)
    (s : list ascii) : list ascii :=
  match s with
  | [] => []
  | c :: s' =>
      if at_close name s then
        match depth with
        | O => skip_tag BeforeAttributeName (snd (read_name (skipn 2 s)))
        | S depth' => skip_element nests name depth' s'
        end
      else if nests && at_open name s then skip_element nests name (S depth) s'
      else skip_element nests name depth s'
  end.

(** What is left of the input after the content and end tag of a forbidden
    element, given what follows its start tag.  [plaintext] never ends. *)
Definition skip_forbidden (name : string) (body : list ascii) : list ascii :=
  if String.eqb name "plaintext" then []
  else skip_element (negb (existsb (String.eqb name) raw_text))
         (list_ascii_of_string name) 0 body.

(** Modelled from the spec: the tag stripping behind [DOMPurify.sanitize]
    (package isomorphic-dompurify, not under src/) when no tag and no
    attribute is allowed and content is kept: start tags, end tags and
    comments are dropped, text is kept, and an element of
    [forbid_contents] is dropped with its content.  Tags and comments are
    delimited as the HTML tokenizer delimits them.  [fuel] bounds the
    number of steps; the input length is always enough since every step
    consumes at least one character. *)
Fixpoint strip (fuel : nat) (s : list ascii) : list ascii :=
  match fuel with
  | O => []
  | S fuel' =>
      match s with
      | [] => []
      | c :: rest =>
          if Ascii.eqb c "<" then
            match rest with
            | [] => [c]
            | d :: rest' =>
                if JS.is_alpha d then
                  let '(name, after) := read_name rest in
                  let body := skip_tag BeforeAttributeName after in
                  let element := string_of_list_ascii name in
                  if existsb (String.eqb element) forbid_contents
                     && negb (existsb (String.eqb element) ignored_in_body)
                  then strip fuel' (skip_forbidden element body)
                  else strip fuel' body
                else if Ascii.eqb d "/" then
                  match rest' with
                  | [] => [c; d]
                  | e :: _ =>
                      if JS.is_alpha e
                      then strip fuel' (skip_tag BeforeAttributeName (snd (read_name rest')))
                      else strip fuel' (skip_past_gt rest')
                  end
                else if Ascii.eqb d "!" then
                  if starts_with ["-"; "-"]%char rest'
                  then strip fuel' (skip_comment_start (skipn 2 rest'))
                  else strip fuel' (skip_past_gt rest')
                else if Ascii.eqb d "?" then strip fuel' (skip_past_gt rest')
                else c :: strip fuel' rest
            end
          else c :: strip fuel' rest
      end
  end.

(** Modelled from the spec: [DOMPurify.sanitize(input, {ALLOWED_TAGS: [],
    ALLOWED_ATTR: [], KEEP_CONTENT: true})] of the package
    isomorphic-dompurify, which is not under src/.  Per the specification it
    "strips all markup" and keeps the text content, except that of elements
    such as [script] (the specification's example
    [<script>alert(1)</script>hello] yields [hello]).  Not modelled: the
    re-encoding of the characters [<], [>] and [&] that remain as text,
    character references, and what the tree builder does beyond the
    tokenizer (foreign content, implied end tags).  The properties below use
    the model only on input without these characters, where it is the
    identity, or state what holds whatever the sanitizer returns. *)
Definition sanitize (input : string) : string :=
  let l := list_ascii_of_string input in
  string_of_list_ascii (strip (length l) l).

End DOMPurify.

(* ================================================================== *)
(** ** lib/security.ts *)
(* ================================================================== *)

Module Security.

Import RegExp.

(** [sanitizeText]: strip HTML, trim, keep at most 10000 code units.  The
    [typeof input !== 'string'] guard is unreachable for a [string]. *)
Definition sanitizeText (input : string) : string :=
  let cleaned := DOMPurify.sanitize input in
  JS.substring (JS.trim cleaned) 0 (Z.to_nat 10000).

Definition email_local (c : ascii) : bool :=
  JS.is_alpha c || JS.is_digit c
  || existsb (Ascii.eqb c) ["."; "_"; "%"; "+"; "-"]%char.

Definition email_domain (c : ascii) : bool :=
  JS.is_alpha c || JS.is_digit c || existsb (Ascii.eqb c) ["."; "-"]%char.

(** [/^[a-zA-Z0-9._%+-]+@[a-zA-Z0-9.-]+\.[a-zA-Z]{2,}$/] *)
Definition emailRegex : regex :=
  Seq Bol
   (Seq (Plus (Char email_local))
    (Seq (lit "@")
     (Seq (Plus (Char email_domain))
      (Seq (lit ".")
       (Seq (AtLeast2 (Char JS.is_alpha)) Eol))))).

Definition sanitizeEmail (email : string) : string :=
  let cleaned := sanitizeText email in
  if test emailRegex cleaned then JS.toLowerCase cleaned else EmptyString.

Definition not_lt (c : ascii) : bool := negb (Ascii.eqb c "<").

(** The double quote character. *)
Definition dquote : ascii := "034".

Definition sqlPatterns : list regex :=
  [ (* /(\b(SELECT|INSERT|UPDATE|DELETE|DROP|CREATE|ALTER|EXEC|EXECUTE)\b)/gi *)
    Seq WordBoundary
      (Seq (alts (map str_i ["SELECT"; "INSERT"; "UPDATE"; "DELETE"; "DROP";
                             "CREATE"; "ALTER"; "EXEC"; "EXECUTE"]%string))
           WordBoundary);
    (* /(--|\#|\/\*|\*\/)/g *)
    alts (map str ["--"; "#"; "/*"; "*/"]%string);
    (* with flags gi, the alternatives: an apostrophe; a double quote and a
       semicolon; the same followed by two dashes; ' OR '1'='1 *)
    alts [str_i "'"; Seq (lit_i dquote) (lit_i ";");
          Seq (lit_i dquote) (str_i ";--"); str_i "' OR '1'='1"] ].

Definition containsSqlInjection (input : string) : bool :=
  existsb (fun pattern => test pattern input) sqlPatterns.

Definition xssPatterns : list regex :=
  [ (* /<script\b[^<]* (?:(?!<\/script>)<[^<]* )* <\/script>/gi
       (blanks added for readability) *)
    Seq (str_i "<script")
     (Seq WordBoundary
      (Seq (Star (Char not_lt))
       (Seq (Star (Seq (NotAhead (str_i "</script>"))
                   (Seq (lit_i "<") (Star (Char not_lt)))))
            (str_i "</script>"))));
    (* /javascript:/gi *)
    str_i "javascript:";
    (* /on\w+\s*=/gi *)
    Seq (str_i "on") (Seq (Plus (Char JS.is_word)) (Seq (Star (Char JS.is_space)) (lit_i "=")));
    (* /<iframe/gi *)
    str_i "<iframe";
    (* /eval\(/gi *)
    str_i "eval(" ].

Definition containsXss (input : string) : bool :=
  existsb (fun pattern => test pattern input) xssPatterns.

End Security.

(* ================================================================== *)
(** ** rate-limiter-flexible (third-party) *)
(* ================================================================== *)

Module RateLimiterFlexible.

(** A limiter's policy: [points] consumptions per [duration] seconds. *)
Record RateLimiterMemory : Type := {
  points : Z;
  duration : Z
}.

(** Per-client consumption record: remaining points and start of the
    current window (milliseconds). *)
Record ConsumptionRecord : Type := {
  rec_remaining : Z;
  rec_windowStart : Z
}.

Record RateLimiterRes : Type := {
  remainingPoints : Z;
  msBeforeNext : Z
}.

(** The promise returned by [consume] either resolves or rejects. *)
Inductive consumed : Type :=
| Resolved (res : RateLimiterRes)
| Rejected (res : RateLimiterRes).

(** Has the window of record [r] fully elapsed at time [now]? *)
Definition elapsed (l : RateLimiterMemory) (r : ConsumptionRecord) (now : Z) : bool :=
  rec_windowStart r + duration l * 1000 <=? now.

(** Modelled from the spec: [RateLimiterMemory.consume(key)] of the package
    rate-limiter-flexible, which is not under src/.  Section 4.1 of the
    specification: "if the client has no record, or its window has fully
    elapsed, initialize remaining = limit, reset window start to now.
    Decrement remaining by 1 if > 0 and report allowed; otherwise report
    denied with the current resetSeconds = time until the window elapses." *)
Definition consume (l : RateLimiterMemory) (store : gmap string ConsumptionRecord)
    (key : string) (now : Z)
  : gmap string ConsumptionRecord * consumed :=
  let fresh := {| rec_remaining := points l; rec_windowStart := now |} in
  let r := match store !! key with
           | Some r => if elapsed l r now then fresh else r
           | None => fresh
           end in
  let ms := rec_windowStart r + duration l * 1000 - now in
  if 0 <? rec_remaining r
  then (<[key := {| rec_remaining := rec_remaining r - 1;
                    rec_windowStart := rec_windowStart r |}]> store,
        Resolved {| remainingPoints := rec_remaining r - 1; msBeforeNext := ms |})
  else (<[key := r]> store,
        Rejected {| remainingPoints := 0; msBeforeNext := ms |}).

End RateLimiterFlexible.

(* ================================================================== *)
(** ** next/server: requests and JSON responses *)
(* ================================================================== *)

Module Next.

Record NextRequest : Type := {
  url : string;                      (* req.url, the full address *)
  origin : string;                   (* its origin *)
  pathname : string;                 (* req.nextUrl.pathname *)
  x_forwarded_for : option string;   (* req.headers.get('x-forwarded-for') *)
  x_real_ip : option string;         (* req.headers.get('x-real-ip') *)
  req_json : option JS.json          (* req.json(); None when it throws *)
}.

Record NextResponse : Type := {
  status : Z;
  body : JS.json;
  headers : list (string * string)
}.

(** [console.log] / [console.error]: the label and the values logged with
    it (an error object is represented by its message). *)
Definition console : Type := list (string * list string).

End Next.

(* ================================================================== *)
(** ** lib/rate-limit.ts *)
(* ================================================================== *)

Module RateLimit.

Import Next RateLimiterFlexible.

(** What the identifier [NextRequest] evaluates to in this module.  It is
    imported with [import type] (line 2 of the file), and a type-only
    import is erased when the module is compiled; the build does not stop at
    the type error this causes ([ignoreBuildErrors] in next.config.mjs).  No
    other binding of the name is in scope, so evaluating it throws. *)
Definition NextRequest_binding : JS.completion (NextRequest -> bool) :=
  JS.Throw (JS.ReferenceError "NextRequest").

(** [forwarded?.split(',')[0]?.trim() || realIp || 'unknown'], the
    expression both branches of [getClientIp] return. *)
Definition headerIp (req : NextRequest) : string :=
  let forwarded := x_forwarded_for req in
  let realIp := x_real_ip req in
  JS.or_string
    (match forwarded with
     | Some f => JS.trim (JS.split_first "," f)
     | None => EmptyString
     end)
    (JS.or_default realIp "unknown").

(** [getClientIp(req)].  The test [req instanceof NextRequest] evaluates
    the identifier [NextRequest] first. *)
Definition getClientIp (req : NextRequest) : JS.completion string :=
  match NextRequest_binding with
  | JS.Throw error => JS.Throw error
  | JS.Normal instanceOf =>
      if instanceOf req then JS.Normal (headerIp req) else JS.Normal (headerIp req)
  end.

Inductive limiter_type : Type := chat | contact | admin | general.

Definition rateLimiters (type : limiter_type) : RateLimiterMemory :=
  match type with
  | chat => {| points := 10; duration := 60 |}
  | contact => {| points := 5; duration := 600 |}
  | admin => {| points := 30; duration := 60 |}
  | general => {| points := 60; duration := 60 |}
  end.

(** The process-wide state of the four limiters. *)
Definition state : Type := limiter_type -> gmap string ConsumptionRecord.

Definition empty_state : state := fun _ => ∅.

Definition limiter_type_eqb (a b : limiter_type) : bool :=
  match a, b with
  | chat, chat | contact, contact | admin, admin | general, general => true
  | _, _ => false
  end.

Definition set_store (st : state) (type : limiter_type)
    (store : gmap string ConsumptionRecord) : state :=
  fun t => if limiter_type_eqb t type then store else st t.

Record result : Type := {
  success : bool;
  limit : option Z;
  remaining : option Z;
  reset : option Z
}.

(** [consumeWith l ...] is [rateLimit] for an arbitrary limiter [l]. *)
Definition consumeWith (l : RateLimiterMemory) (store : gmap string ConsumptionRecord)
    (ip : string) (now : Z) : gmap string ConsumptionRecord * result :=
  match consume l store ip now with
  | (store', Resolved res) =>
      (store', {| success := true;
                  limit := Some (points l);
                  remaining := Some (remainingPoints res);
                  reset := Some (JS.ceil_div_1000 (msBeforeNext res)) |})
  | (store', Rejected error) =>
      (store', {| success := false;
                  limit := Some (points l);
                  remaining := Some 0;
                  reset := Some (JS.ceil_div_1000 (msBeforeNext error)) |})
  end.

(** [rateLimit(req, type)].  [getClientIp] is called before the [try]
    block: when it throws, the promise rejects and nothing is consumed. *)
Definition rateLimit (req : NextRequest) (type : limiter_type) (st : state) (now : Z)
  : state * JS.completion result :=
  match getClientIp req with
  | JS.Throw error => (st, JS.Throw error)
  | JS.Normal ip =>
      let limiter := rateLimiters type in
      let '(store', r) := consumeWith limiter (st type) ip now in
      (set_store st type store', JS.Normal r)
  end.

(** [String(x || 0)] for an optional number. *)
Definition String_or_0 (x : option Z) : string :=
  JS.String_of_Z (match x with Some n => n | None => 0 end).

Definition getRateLimitHeaders (r : result) : list (string * string) :=
  [ ("X-RateLimit-Limit", String_or_0 (limit r));
    ("X-RateLimit-Remaining", String_or_0 (remaining r));
    ("X-RateLimit-Reset", String_or_0 (reset r)) ]%string.

(** *** SimpleRateLimiter: the in-memory sliding-window log *)

Record SimpleRateLimiter : Type := {
  maxRequests : Z;
  windowMs : Z;
  requests : gmap string (list Z)
}.

(** [requests.filter(time => now - time < this.windowMs)] *)
Definition validAt (windowMs now : Z) (reqs : list Z) : list Z :=
  List.filter (fun time => now - time <? windowMs) reqs.

Definition cleanup (l : SimpleRateLimiter) (now : Z) : SimpleRateLimiter :=
  {| maxRequests := maxRequests l;
     windowMs := windowMs l;
     requests :=
       omap (fun reqs =>
               match validAt (windowMs l) now reqs with
               | [] => None
               | validRequests => Some validRequests
               end) (requests l) |}.

(** [check(key)].  [now] is the value of [Date.now()] read by [check],
    [cleanupNow] the one read by [cleanup] when it runs. *)
Definition check (l : SimpleRateLimiter) (key : string) (now cleanupNow : Z)
  : SimpleRateLimiter * bool :=
  let reqs := default [] (requests l !! key) in
  let validRequests := validAt (windowMs l) now reqs in
  if maxRequests l <=? Z.of_nat (length validRequests) then (l, false)
  else
    let l' := {| maxRequests := maxRequests l;
                 windowMs := windowMs l;
                 requests := <[key := validRequests ++ [now]]> (requests l) |} in
    if (10000 <? Z.of_nat (size (requests l')))
    then (cleanup l' cleanupNow, true)
    else (l', true).

Definition SimpleRateLimiter_new (maxRequests windowMs : Z) : SimpleRateLimiter :=
  {| maxRequests := maxRequests; windowMs := windowMs; requests := ∅ |}.

Definition simpleRateLimiters (type : limiter_type) : SimpleRateLimiter :=
  match type with
  | chat => SimpleRateLimiter_new 10 60000
  | contact => SimpleRateLimiter_new 5 600000
  | admin => SimpleRateLimiter_new 30 60000
  | general => SimpleRateLimiter_new 60 60000
  end.

End RateLimit.

(* ================================================================== *)
(** ** zod schemas of lib/security.ts *)
(* ================================================================== *)

Module Schemas.

Import JS Security.

(** The schemas are declared in [lib/security.ts]; [safeParse] gives the
    declared constraints their documented zod meaning: [z.object] requires
    an object and ignores unknown keys, [z.string().min(a).max(b)] bounds
    the length of the raw string, [z.enum] lists the accepted strings,
    [z.array(..).min(a).max(b)] bounds the number of elements, a
    [transform] runs on a value that passed its checks, and one failing
    field fails the whole payload. *)

Record ChatMessage : Type := {
  role : string;
  content : string
}.

(** [z.string().min(lo).max(hi)] on a raw string. *)
Definition length_between (lo hi : Z) (s : string) : bool :=
  (lo <=? Z.of_nat (String.length s)) && (Z.of_nat (String.length s) <=? hi).

(** One element of [messages]:
    [{ role: z.enum(['user','assistant','system']),
       content: z.string().min(1).max(5000).transform(sanitizeText) }]. *)
Definition parseChatMessage (v : json) : option ChatMessage :=
  match v with
  | JObject fields =>
      match assoc "role" fields, assoc "content" fields with
      | Some (JString r), Some (JString c) =>
          if existsb (String.eqb r) ["user"; "assistant"; "system"]%string
             && length_between 1 5000 c
          then Some {| role := r; content := sanitizeText c |}
          else None
      | _, _ => None
      end
  | _ => None
  end.

Fixpoint parseAll (l : list json) : option (list ChatMessage) :=
  match l with
  | [] => Some []
  | v :: l' =>
      match parseChatMessage v, parseAll l' with
      | Some msg, Some msgs => Some (msg :: msgs)
      | _, _ => None
      end
  end.

(** [chatMessageSchema.safeParse(body)]: the parsed and transformed
    messages, or [None] when [success] is false. *)
Definition chatMessageSchema_safeParse (body : json) : option (list ChatMessage) :=
  match body with
  | JObject fields =>
      match assoc "messages" fields with
      | Some (JArray l) =>
          if (1 <=? Z.of_nat (length l)) && (Z.of_nat (length l) <=? 50)
          then parseAll l
          else None
      | _ => None
      end
  | _ => None
  end.

(** Issues reported by [contactFormSchema]: the field and what is wrong. *)
Inductive zod_issue : Type :=
| invalid_type (path : string)
| too_small (path : string) (minimum : Z)
| too_big (path : string) (maximum : Z)
| invalid_email (path : string).

(** What the handlers need of zod beyond the structure of the schemas: the
    pattern behind [z.string().email()] and the text of an issue. *)
Record Zod : Type := {
  email_ok : string -> bool;
  issue_message : zod_issue -> string
}.

Definition check_string (path : string) (lo hi : Z) (v : option json) : list zod_issue :=
  match v with
  | Some (JString s) =>
      (if Z.of_nat (String.length s) <? lo then [too_small path lo] else [])
      ++ (if hi <? Z.of_nat (String.length s) then [too_big path hi] else [])
  | _ => [invalid_type path]
  end.

Definition check_email (z : Zod) (path : string) (v : option json) : list zod_issue :=
  match v with
  | Some (JString s) => if email_ok z s then [] else [invalid_email path]
  | _ => [invalid_type path]
  end.

Definition check_optional_string (path : string) (v : option json) : list zod_issue :=
  match v with
  | None | Some (JString _) => []
  | _ => [invalid_type path]
  end.

Definition string_of (v : option json) : string :=
  match v with Some (JString s) => s | _ => EmptyString end.

(** [error.errors] of the [ZodError] that a failed parse carries.  The
    repository uses zod 4.1.12 (SECURITY_SUMMARY.md), whose [ZodError] holds
    its issues under [issues] and has no [errors] property: the expression
    evaluates to [undefined]. *)
Definition ZodError_errors (issues : list zod_issue) : option (list zod_issue) :=
  None.

Record ContactForm : Type := {
  name : string;
  email : string;
  message : string
}.

(** [contactFormSchema.safeParse(body)]: the transformed data, or the list
    of issues when [success] is false. *)
Definition contactFormSchema_safeParse (z : Zod) (body : json)
  : list zod_issue + ContactForm :=
  match body with
  | JObject fields =>
      let issues :=
        check_string "name" 1 100 (assoc "name" fields)
        ++ check_email z "email" (assoc "email" fields)
        ++ check_string "message" 10 5000 (assoc "message" fields)
        ++ check_optional_string "website" (assoc "website" fields) in
      match issues with
      | [] => inr {| name := sanitizeText (string_of (assoc "name" fields));
                     email := sanitizeEmail (string_of (assoc "email" fields));
                     message := sanitizeText (string_of (assoc "message" fields)) |}
      | _ => inl issues
      end
  | _ => inl [invalid_type EmptyString]
  end.

End Schemas.

(* ================================================================== *)
(** ** app/api/chat/route.ts *)
(* ================================================================== *)

Module ChatRoute.

Import JS Next RateLimit Security Schemas.

(** Outcome of [groq.chat.completions.create]: it throws (with the thrown
    value's [message], if any) or returns a completion whose first choice
    may lack content. *)
Inductive groq_result : Type :=
| GroqThrows (message : option string)
| GroqCompletion (content : option string).

(** Outcome of the call to the local Ollama server: [fetch], [text()] or
    [json()] throws; the reply is not ok (status outside 200..299, with its
    text); or the reply is ok and may lack [message.content]. *)
Inductive ollama_result : Type :=
| OllamaThrows (message : string)
| OllamaNotOk (status : Z) (errorData : string)
| OllamaOk (content : option string).

(** What the handler reads from outside the request: the imported
    [portfolioContext], [process.env] and the two LLM backends. *)
Record Deps : Type := {
  portfolioContext : string;
  GROQ_API_KEY : option string;
  VERCEL : option string;
  groq_create : list ChatMessage -> groq_result;
  ollama_chat : list ChatMessage -> ollama_result
}.

Definition error_json (status : Z) (msg : string) (headers : list (string * string))
  : NextResponse :=
  {| status := status; body := JObject [("error"%string, JString msg)]; headers := headers |}.

Definition message_json (msg : string) (headers : list (string * string)) : NextResponse :=
  {| status := 200; body := JObject [("message"%string, JString msg)]; headers := headers |}.

(** A number inside a template literal. *)
Definition template (x : option Z) : string :=
  match x with Some n => String_of_Z n | None => "undefined" end.

(** The loop over the validated messages: the first harmful one decides. *)
Fixpoint securityChecks (messages : list ChatMessage) : option NextResponse :=
  match messages with
  | [] => None
  | msg :: rest =>
      if containsXss (content msg)
      then Some (error_json 400 "Message contains potentially harmful content." [])
      else if containsSqlInjection (content msg)
      then Some (error_json 400 "Message contains suspicious patterns." [])
      else securityChecks rest
  end.

Definition useGroq (d : Deps) : bool :=
  match VERCEL d with
  | Some v => String.eqb v "1" && truthy (GROQ_API_KEY d)
  | None => false
  end.

(** The part of the handler after the security checks: the call to the LLM
    backend. *)
Definition callBackend (d : Deps) (rl : RateLimit.result) (messages : list ChatMessage)
  : console * NextResponse :=
  let chatMessages := {| role := "system"; content := portfolioContext d |} :: messages in
  if useGroq d then
    match groq_create d chatMessages with
    | GroqCompletion (Some (String c s)) =>
        ([("Using Groq API on Vercel", []);
          ("Groq client created, calling API...", []);
          ("Groq API response received", [])]%string,
         message_json (String c s) (getRateLimitHeaders rl))
    | GroqCompletion _ =>
        ([("Using Groq API on Vercel", []);
          ("Groq client created, calling API...", []);
          ("Groq API response received", []);
          ("No message in response:", [])]%string,
         error_json 500 "No response from AI" [])
    | GroqThrows error_message =>
        ([("Using Groq API on Vercel", []);
          ("Groq client created, calling API...", []);
          ("Groq error:", option_list error_message)]%string,
         error_json 500 ("AI Error: " +:+ or_default error_message "Unknown error") [])
    end
  else
    match ollama_chat d chatMessages with
    | OllamaNotOk st errorData =>
        ([("Using Ollama for localhost", []);
          ("Ollama API error:", [errorData])]%string,
         error_json st
           "Ollama is not running. Please start Ollama or deploy to Vercel with Groq API key."
           [])
    | OllamaOk (Some (String c s)) =>
        ([("Using Ollama for localhost", [])]%string,
         message_json (String c s) (getRateLimitHeaders rl))
    | OllamaOk _ =>
        ([("Using Ollama for localhost", [])]%string,
         error_json 500 "No response from AI" [])
    | OllamaThrows error_message =>
        ([("Using Ollama for localhost", []);
          ("Chat API error:", [error_message])]%string,
         error_json 500 "Internal server error" [])
    end.

(** The outer [catch] block: the error is logged, the client gets a fixed
    message. *)
Definition caught (error : Error) : console * NextResponse :=
  ([("Chat API error:"%string, [error_message error])],
   error_json 500 "Internal server error" []).

(** The handler.  Its first statement is [await rateLimit(req, 'chat')],
    inside the outer [try]: a rejection of that promise ends in [caught]. *)
Definition POST (d : Deps) (st : RateLimit.state) (now : Z) (req : NextRequest)
  : RateLimit.state * console * NextResponse :=
  match rateLimit req chat st now with
  | (st', Throw error) => (st', fst (caught error), snd (caught error))
  | (st', Normal rateLimitResult) =>
      if negb (success rateLimitResult) then
        (st', [],
         error_json 429
           ("Rate limit exceeded. Please wait " +:+ template (reset rateLimitResult)
            +:+ " seconds.")
           (getRateLimitHeaders rateLimitResult))
      else
        match req_json req with
        | None =>
            (st', [("Chat API error:"%string, [])],
             error_json 500 "Internal server error" [])
        | Some body =>
            match chatMessageSchema_safeParse body with
            | None =>
                (st', [],
                 error_json 400 "Invalid request format. Please check your message." [])
            | Some messages =>
                match securityChecks messages with
                | Some rejection => (st', [], rejection)
                | None =>
                    let '(log, response) := callBackend d rateLimitResult messages in
                    (st', log, response)
                end
            end
        end
  end.

End ChatRoute.

(* ================================================================== *)
(** ** app/api/contact/route.ts *)
(* ================================================================== *)

Module ContactRoute.

Import JS Next RateLimit Security Schemas.

Definition message_json (status : Z) (msg : string) (headers : list (string * string))
  : NextResponse :=
  {| status := status; body := JObject [("message"%string, JString msg)]; headers := headers |}.

Definition ok_json (headers : list (string * string)) : NextResponse :=
  {| status := 200; body := JObject [("ok"%string, JBool true)]; headers := headers |}.

(** [typeof body.website === "string" && body.website.trim().length > 0];
    [None] when reading [body.website] throws ([body] is [null]). *)
Definition honeypot (body : json) : option bool :=
  match body with
  | JNull => None
  | JObject fields =>
      match assoc "website" fields with
      | Some (JString website) => Some (0 <? Z.of_nat (String.length (trim website)))
      | _ => Some false
      end
  | _ => Some false
  end.

Fixpoint securityChecks (userInputs : list string) : option NextResponse :=
  match userInputs with
  | [] => None
  | input :: rest =>
      if containsXss input
      then Some (message_json 400 "Input contains potentially harmful content." [])
      else if containsSqlInjection input
      then Some (message_json 400 "Input contains suspicious patterns." [])
      else securityChecks rest
  end.

(** The handler after the honeypot check: validation, security checks,
    length check, the log line and the success response.  On a failed
    validation the handler reads [validationResult.error.errors] and calls
    [map] on it. *)
Definition process (z : Zod) (rl : RateLimit.result) (timestamp : string) (body : json)
  : completion (console * NextResponse) :=
  match contactFormSchema_safeParse z body with
  | inl issues =>
      match ZodError_errors issues with
      | None => Throw (TypeError_undefined "map")
      | Some errors =>
          Normal ([], message_json 400
                        ("Validation failed: "
                         +:+ join ", " (map (issue_message z) errors)) [])
      end
  | inr data =>
      match securityChecks [name data; email data; message data] with
      | Some rejection => Normal ([], rejection)
      | None =>
          if Z.of_nat (String.length (message data)) <? 10
          then Normal ([], message_json 400
                             "Message must be at least 10 characters long." [])
          else
            Normal ([("Contact submission (sanitized):"%string,
                      [name data; email data;
                       substring (message data) 0 50 +:+ "..."; timestamp])],
                    ok_json (getRateLimitHeaders rl))
      end
  end.

(** The [catch] block: the error is logged, the client gets a fixed
    message. *)
Definition caught (error : Error) : console * NextResponse :=
  ([("Contact API error:"%string, [error_message error])],
   message_json 500 "Unexpected error. Please try again later." []).

(** [timestamp] is [new Date().toISOString()] at the time of the log line. *)
Definition POST (z : Zod) (timestamp : string) (st : RateLimit.state) (now : Z)
    (req : NextRequest) : RateLimit.state * console * NextResponse :=
  match rateLimit req contact st now with
  | (st', Throw error) => (st', fst (caught error), snd (caught error))
  | (st', Normal rateLimitResult) =>
      if negb (success rateLimitResult) then
        (st', [],
         message_json 429
           ("Too many requests. Please try again in "
            +:+ ChatRoute.template (reset rateLimitResult) +:+ " seconds.")
           (getRateLimitHeaders rateLimitResult))
      else
        match req_json req with
        | None =>
            (st', [("Contact API error:"%string, [])],
             message_json 500 "Unexpected error. Please try again later." [])
        | Some body =>
            match honeypot body with
            | None =>
                (st', [("Contact API error:"%string, [])],
                 message_json 500 "Unexpected error. Please try again later." [])
            | Some true => (st', [], ok_json (getRateLimitHeaders rateLimitResult))
            | Some false =>
                match process z rateLimitResult timestamp body with
                | Throw error => (st', fst (caught error), snd (caught error))
                | Normal (log, response) => (st', log, response)
                end
            end
        end
  end.

End ContactRoute.

(* ================================================================== *)
(** ** middleware.ts *)
(* ================================================================== *)

Module Middleware.

Import JS Next.

(** [p] matches a prefix of [s], letter case ignored. *)
Fixpoint prefix_ci (p s : string) : bool :=
  match p, s with
  | EmptyString, _ => true
  | String a p', String b s' =>
      Ascii.eqb (canonicalize a) (canonicalize b) && prefix_ci p' s'
  | String _ _, EmptyString => false
  end.

(** [p] matches all of [s], letter case ignored, up to one optional
    trailing delimiter. *)
Fixpoint exact_ci (p s : string) : bool :=
  match p, s with
  | EmptyString, EmptyString => true
  | EmptyString, String d EmptyString => existsb (Ascii.eqb d) ["/"; "#"; "?"]%char
  | EmptyString, _ => false
  | String a p', String b s' =>
      Ascii.eqb (canonicalize a) (canonicalize b) && exact_ci p' s'
  | String _ _, EmptyString => false
  end.

(** The literal part of a pattern that ends in the wildcard group. *)
Definition wildcard_prefix (pattern : string) : option string :=
  let n := String.length pattern in
  if (4 <=? n)%nat && String.eqb (drop (n - 4) pattern) "(.*)"
  then Some (take (n - 4) pattern) else None.

Definition route_matches (pattern path : string) : bool :=
  match wildcard_prefix pattern with
  | Some p => prefix_ci p path
  | None => exact_ci pattern path
  end.

(** Modelled from the spec: [createRouteMatcher] of the package
    @clerk/nextjs, which is not under src/.  Section 4.4 of the
    specification: the request path is matched "against an ordered set of
    glob/regex-style patterns".  A pattern is a literal path, optionally
    followed by the group that matches any rest; letter case is ignored and
    a literal path tolerates one trailing delimiter. *)
Definition createRouteMatcher (patterns : list string) (req : NextRequest) : bool :=
  existsb (fun pattern => route_matches pattern (pathname req)) patterns.

Definition isPublicRoute : NextRequest -> bool :=
  createRouteMatcher
    ["/"; "/sign-in(.*)"; "/sign-up(.*)"; "/api/public(.*)"; "/mcp-security";
     "/security(.*)"; "/mcp-integration(.*)"]%string.

Definition isAdminRoute : NextRequest -> bool :=
  createRouteMatcher ["/admin(.*)"; "/api/admin(.*)"]%string.

(** What [auth()] resolves to: the user id and the [role] found under
    [sessionClaims?.publicMetadata] (absent when any link is missing). *)
Record Auth : Type := {
  userId : option string;
  publicMetadata_role : option string
}.

Record URL : Type := {
  url_origin : string;
  url_pathname : string;
  searchParams : list (string * string)
}.

Record Cookie : Type := {
  cookie_name : string;
  cookie_value : string;
  httpOnly : bool;
  secure : bool;
  sameSite : option string
}.

(** The two responses the middleware produces. *)
Inductive kind : Type :=
| Next
| Redirect (location : URL).

Record Response : Type := {
  resp_kind : kind;
  resp_headers : list (string * string);
  resp_cookies : list Cookie
}.

Definition NextResponse_next : Response :=
  {| resp_kind := Next; resp_headers := []; resp_cookies := [] |}.

Definition NextResponse_redirect (location : URL) : Response :=
  {| resp_kind := Redirect location; resp_headers := []; resp_cookies := [] |}.

Fixpoint headers_set (name value : string) (hs : list (string * string))
  : list (string * string) :=
  match hs with
  | [] => [(name, value)]
  | (n, v) :: rest =>
      if String.eqb n name then (name, value) :: rest
      else (n, v) :: headers_set name value rest
  end.

(** [production] is [process.env.NODE_ENV === 'production']. *)
Definition addSecurityHeaders (production : bool) (response : Response) : Response :=
  {| resp_kind := resp_kind response;
     resp_headers :=
       headers_set "X-Powered-By" ""
         (headers_set "X-DNS-Prefetch-Control" "on" (resp_headers response));
     resp_cookies :=
       map (fun cookie =>
              {| cookie_name := cookie_name cookie;
                 cookie_value := cookie_value cookie;
                 httpOnly := true;
                 secure := production;
                 sameSite := Some "lax"%string |})
           (resp_cookies response) |}.

(** [new URL("/sign-in", req.url)] with [redirect_url] set to [req.url]. *)
Definition signInUrl_with_return (req : NextRequest) : URL :=
  {| url_origin := origin req; url_pathname := "/sign-in";
     searchParams := [("redirect_url"%string, url req)] |}.

Definition signInUrl (req : NextRequest) : URL :=
  {| url_origin := origin req; url_pathname := "/sign-in"; searchParams := [] |}.

Definition portfolioUrl (req : NextRequest) : URL :=
  {| url_origin := origin req; url_pathname := "/portfolio"; searchParams := [] |}.

(** The admin block: [Some response] when it returns, [None] when control
    falls through to the checks that follow it. *)
Definition adminBlock (auth : Auth) (req : NextRequest) : option Response :=
  if isAdminRoute req then
    if negb (truthy (userId auth))
    then Some (NextResponse_redirect (signInUrl_with_return req))
    else
      let role := toLowerCase (or_default (publicMetadata_role auth) "viewer") in
      if negb (String.eqb role "admin")
      then Some (NextResponse_redirect (portfolioUrl req))
      else None
  else None.

(** The callback given to [clerkMiddleware]. *)
Definition middleware (production : bool) (auth : Auth) (req : NextRequest) : Response :=
  if isPublicRoute req then addSecurityHeaders production NextResponse_next
  else
    match adminBlock auth req with
    | Some response => response
    | None =>
        if negb (truthy (userId auth))
        then NextResponse_redirect (signInUrl_with_return req)
        else
          if String.prefix "/portfolio" (pathname req) && negb (truthy (userId auth))
          then NextResponse_redirect (signInUrl req)
          else addSecurityHeaders production NextResponse_next
    end.

End Middleware.

(* ================================================================== *)
(** ** lib/security.ts: validation of the environment *)
(* ================================================================== *)

Module Env.

Import JS Next Schemas.

(** [process.env] is a map from the variables that are set to their
    values: a [gmap string string]. *)

(** [z.string().min(1)] on a variable: a missing one is not a string, an
    empty one is too short. *)
Definition check_required (path : string) (v : option string) : list zod_issue :=
  match v with
  | Some s => if Z.of_nat (String.length s) <? 1 then [too_small path 1] else []
  | None => [invalid_type path]
  end.

(** The issues of [envSchema.parse(process.env)].  The four optional
    variables cannot fail: a variable that is set is a string. *)
Definition envSchema_issues (e : gmap string string) : list zod_issue :=
  check_required "NEXT_PUBLIC_CLERK_PUBLISHABLE_KEY" (e !! "NEXT_PUBLIC_CLERK_PUBLISHABLE_KEY")
  ++ check_required "CLERK_SECRET_KEY" (e !! "CLERK_SECRET_KEY").

Definition path_of (issue : zod_issue) : string :=
  match issue with
  | invalid_type path | too_small path _ | too_big path _ | invalid_email path => path
  end.

(** [validateEnv()].  The log lines are given without their leading
    emoji.  In the [catch] block the header line is logged first; then
    [error.errors.forEach] is evaluated, and only after it the test of
    [NODE_ENV]. *)
Definition validateEnv (z : Zod) (e : gmap string string) : console * completion unit :=
  match envSchema_issues e with
  | [] => ([("Environment variables validated successfully"%string, [])], Normal tt)
  | issues =>
      match ZodError_errors issues with
      | None =>
          ([("Environment validation failed:"%string, [])],
           Throw (TypeError_undefined "forEach"))
      | Some errors =>
          (("Environment validation failed:"%string, [])
           :: map (fun err => ("  - " +:+ path_of err +:+ ": " +:+ issue_message z err, []))
                  errors,
           if match e !! "NODE_ENV" with
              | Some v => String.eqb v "production"
              | None => false
              end
           then Throw {| error_name := "Error";
                         error_message := "Missing required environment variables" |}
           else Normal tt)
      end
  end.

(** The module [env.validation.ts]: [window_defined] is
    [typeof window !== 'undefined']. *)
Definition env_validation (window_defined : bool) (z : Zod) (e : gmap string string)
  : console * completion unit :=
  if window_defined then ([], Normal tt) else validateEnv z e.

End Env.

(* ================================================================== *)
(** ** components/chat/ChatWidget.tsx: what the widget sends *)
(* ================================================================== *)

Module ChatWidget.

Import JS.

Record Message : Type := {
  id : string;
  role : string;
  content : string;
  reaction : option string
}.

(** The rest of the input after the next [>], if there is one. *)
Fixpoint after_gt (l : list ascii) : option (list ascii) :=
  match l with
  | [] => None
  | c :: l' => if Ascii.eqb c ">" then Some l' else after_gt l'
  end.

(** The scan of [replace(/<[^>]*>/g, '')]: at a [<] that is followed by a
    [>] the text up to and including the first such [>] is the match and is
    dropped, and the scan goes on after it; any other character is kept.
    [fuel] bounds the number of steps; the length of the input is enough. *)
Fixpoint strip_tags (fuel : nat) (l : list ascii) : list ascii :=
  match fuel with
  | O => []
  | S fuel' =>
      match l with
      | [] => []
      | c :: l' =>
          if Ascii.eqb c "<" then
            match after_gt l' with
            | Some rest => strip_tags fuel' rest
            | None => c :: strip_tags fuel' l'
            end
          else c :: strip_tags fuel' l'
      end
  end.

(** [messageText.replace(/<[^>]*>/g, '')] *)
Definition stripTags (messageText : string) : string :=
  let l := list_ascii_of_string messageText in
  string_of_list_ascii (strip_tags (length l) l).

(** What [handleSubmit] does before it waits for the server. *)
Inductive outcome : Type :=
| Ignored                                   (* returns at once *)
| TooLong (errorMessage : string)           (* appends an error message *)
| Send (cleanMessage : string) (body : json).  (* appends the user message and posts [body] *)

Definition requestBody (messages : list Message) : json :=
  JObject [("messages"%string,
            JArray (map (fun msg => JObject [("role"%string, JString (role msg));
                                            ("content"%string, JString (content msg))])
                        messages))].

(** [handleSubmit(e, suggestedQuestion)] with the current [messages],
    [input] and [isLoading]; [now] is [Date.now().toString()]. *)
Definition handleSubmit (messages : list Message) (input : string) (isLoading : bool)
    (now : string) (suggestedQuestion : option string) : outcome :=
  let messageText := or_default suggestedQuestion (trim input) in
  if negb (truthy (Some messageText)) || isLoading then Ignored
  else if (5000 <? Z.of_nat (String.length messageText))
  then TooLong "Message is too long. Please keep it under 5000 characters."
  else
    let cleanMessage := stripTags messageText in
    let userMessage :=
      {| id := now; role := "user"; content := cleanMessage; reaction := None |} in
    Send cleanMessage (requestBody (messages ++ [userMessage])).

End ChatWidget.




(* ================================================================== *)
(** * Properties *)
(* ================================================================== *)

(** ** The matcher against a declarative reading of patterns *)

Module RegExpSpec.

Import RegExp.

(** The code unit before the position reached after reading [w]. *)
Definition lastp (prev : option ascii) (w : list ascii) : option ascii :=
  match last w with Some c => Some c | None => prev end.

(** Iteration: [star D prev w t] when [w] splits into non-empty pieces,
    each accepted by [D] with the input that follows it. *)
Inductive star (D : option ascii -> list ascii -> list ascii -> Prop)
  : option ascii -> list ascii -> list ascii -> Prop :=
| star_nil prev t : star D prev [] t
| star_step prev w1 w2 t :
    w1 <> [] -> D prev w1 (w2 ++ t) -> star D (lastp prev w1) w2 t ->
    star D prev (w1 ++ w2) t.

(** [den r prev w t]: at a position preceded by [prev], pattern [r] can
    consume exactly [w] when [t] is the input that follows [w]. *)
Fixpoint den (r : regex) (prev : option ascii) (w t : list ascii) : Prop :=
  match r with
  | Empty => w = []
  | Char p => exists c, w = [c] /\ p c = true
  | Seq r1 r2 =>
      exists w1 w2, w = w1 ++ w2 /\ den r1 prev w1 (w2 ++ t) /\ den r2 (lastp prev w1) w2 t
  | Alt r1 r2 => den r1 prev w t \/ den r2 prev w t
  | Star r' => star (den r') prev w t
  | Bol => w = [] /\ prev = None
  | Eol => w = [] /\ t = []
  | WordBoundary => w = [] /\ is_word_opt prev <> is_word_opt (head t)
  | NotAhead r' => w = [] /\ ~ exists w' t', t = w' ++ t' /\ den r' prev w' t'
  end.

Lemma lastp_nil prev : lastp prev [] = prev.
Proof. reflexivity. Qed.

Lemma lastp_single prev c : lastp prev [c] = Some c.
Proof. reflexivity. Qed.

Lemma lastp_app prev w1 w2 : lastp prev (w1 ++ w2) = lastp (lastp prev w1) w2.
Proof.
  unfold lastp. destruct w2 as [|c w2] using rev_ind.
  - rewrite app_nil_r. simpl. destruct (last w1); reflexivity.
  - rewrite app_assoc, !last_snoc. reflexivity.
Qed.

(** What a matcher must satisfy to agree with a denotation [D]. *)
Definition agrees
    (mr : option ascii -> list ascii -> (option ascii -> list ascii -> bool) -> bool)
    (D : option ascii -> list ascii -> list ascii -> Prop) : Prop :=
  forall prev s k,
    mr prev s k = true <->
    exists w t, s = w ++ t /\ D prev w t /\ k (lastp prev w) t = true.

Lemma star_loop_agrees mr D k :
  agrees mr D ->
  forall fuel prev s, (length s <= fuel)%nat ->
    star_loop mr k fuel prev s = true <->
    exists w t, s = w ++ t /\ star D prev w t /\ k (lastp prev w) t = true.
Proof.
  intros Hmr fuel. induction fuel as [|fuel IH]; intros prev s Hlen.
  - destruct s; [|simpl in Hlen; lia]. simpl. split.
    + intros Hk. exists [], []. repeat split; [constructor | exact Hk].
    + intros (w & t & Heq & _ & Hk). symmetry in Heq.
      apply app_eq_nil in Heq as [-> ->]. exact Hk.
  - simpl. split.
    + intros H.
      destruct (mr prev s _) eqn:Hiter.
      * apply Hmr in Hiter as (w1 & t1 & -> & HD & Hk).
        destruct (Nat.ltb_spec (length t1) (length (w1 ++ t1))) as [Hlt|]; [|discriminate].
        apply IH in Hk as (w2 & t & -> & Hstar & Hk).
        2:{ rewrite length_app in Hlen. rewrite length_app in Hlt. lia. }
        exists (w1 ++ w2), t. rewrite <- app_assoc. split; [reflexivity|]. split.
        -- apply star_step; auto. intros ->. simpl in Hlt. lia.
        -- rewrite lastp_app. exact Hk.
      * exists [], s. repeat split; [constructor | exact H].
    + intros (w & t & -> & Hstar & Hk).
      destruct (mr prev (w ++ t) _) eqn:Hiter; [reflexivity|].
      inversion Hstar as [|? w1 w2 ? Hne HD Hrest]; subst.
      * exact Hk.
      * exfalso. rewrite <- Bool.not_true_iff_false in Hiter. apply Hiter.
        apply Hmr. exists w1, (w2 ++ t). rewrite <- app_assoc.
        split; [reflexivity|]. split; [exact HD|].
        assert (Hlt : (length (w2 ++ t) <? length (w1 ++ w2 ++ t))%nat = true).
        { apply Nat.ltb_lt. rewrite (length_app w1). destruct w1; [congruence|]. simpl. lia. }
        rewrite Hlt. apply IH.
        -- rewrite <- app_assoc, (length_app w1) in Hlen. destruct w1; [congruence|].
           simpl in Hlen. lia.
        -- exists w2, t. rewrite lastp_app in Hk. auto.
Qed.

(** The matcher accepts exactly what the declarative reading allows. *)
Lemma m_agrees r : agrees (m r) (den r).
Proof.
  induction r as [|p|r1 IH1 r2 IH2|r1 IH1 r2 IH2|r IH| | | |r IH]; intros prev s k; simpl.
  - split.
    + intros Hk. exists [], s. auto.
    + intros (w & t & -> & -> & Hk). exact Hk.
  - destruct s as [|c s].
    + split; [discriminate|]. intros (w & t & Heq & (c & -> & _) & _). discriminate.
    + destruct (p c) eqn:Hp.
      * split.
        -- intros Hk. exists [c], s. repeat split; eauto.
        -- intros (w & t & Heq & (c' & -> & _) & Hk). simpl in Heq.
           injection Heq as -> ->. exact Hk.
      * split; [discriminate|].
        intros (w & t & Heq & (c' & -> & Hp') & _). simpl in Heq.
        injection Heq as -> ->. congruence.
  - rewrite (IH1 prev s). split.
    + intros (w1 & t1 & -> & H1 & Hk). apply IH2 in Hk as (w2 & t & -> & H2 & Hk).
      exists (w1 ++ w2), t. rewrite <- app_assoc. split; [reflexivity|]. split.
      * exists w1, w2. auto.
      * rewrite lastp_app. exact Hk.
    + intros (w & t & -> & (w1 & w2 & -> & H1 & H2) & Hk).
      exists w1, (w2 ++ t). rewrite <- app_assoc. split; [reflexivity|].
      split; [exact H1|]. apply IH2. exists w2, t. rewrite lastp_app in Hk. auto.
  - destruct (m r1 prev s k) eqn:H1.
    + split; [|reflexivity]. intros _. apply IH1 in H1 as (w & t & ? & ? & ?).
      exists w, t. auto.
    + rewrite (IH2 prev s). split.
      * intros (w & t & ? & ? & ?). exists w, t. auto.
      * intros (w & t & -> & [Hd|Hd] & Hk).
        -- exfalso. rewrite <- Bool.not_true_iff_false in H1. apply H1, IH1.
           exists w, t. auto.
        -- exists w, t. auto.
  - apply star_loop_agrees; [exact IH | lia].
  - destruct prev.
    + split; [discriminate|]. intros (w & t & _ & (_ & Hp) & _). discriminate.
    + split.
      * intros Hk. exists [], s. auto.
      * intros (w & t & -> & (-> & _) & Hk). exact Hk.
  - destruct s as [|c s].
    + split.
      * intros Hk. exists [], []. auto.
      * intros (w & t & Heq & (-> & ->) & Hk). exact Hk.
    + split; [discriminate|]. intros (w & t & Heq & (-> & ->) & _). discriminate.
  - destruct (xorb _ _) eqn:Hx.
    + split.
      * intros Hk. exists [], s. repeat split; auto.
        intros Heq. rewrite Heq, xorb_nilpotent in Hx. discriminate.
      * intros (w & t & -> & (-> & _) & Hk). exact Hk.
    + split; [discriminate|]. intros (w & t & -> & (-> & Hne) & _).
      simpl in Hx. apply xorb_eq in Hx. contradiction.
  - destruct (m r prev s _) eqn:Hr.
    + split; [discriminate|]. intros (w & t & -> & (-> & Hno) & _).
      apply IH in Hr as (w' & t' & Heq & Hd & _). exfalso. apply Hno. eauto.
    + split.
      * intros Hk. exists [], s. repeat split; auto.
        intros (w' & t' & -> & Hd). rewrite <- Bool.not_true_iff_false in Hr.
        apply Hr, IH. eauto.
      * intros (w & t & -> & (-> & _) & Hk). exact Hk.
Qed.

(** Iterating a character class reads a run of characters of the class. *)
Lemma star_char p prev w t :
  star (den (Char p)) prev w t <-> forallb p w = true.
Proof.
  split.
  - induction 1 as [|prev w1 w2 t Hne (c & -> & Hp) _ IH]; [reflexivity|].
    simpl. rewrite Hp. exact IH.
  - revert prev. induction w as [|c w IH]; intros prev Hall; [constructor|].
    simpl in Hall. apply andb_true_iff in Hall as [Hp Hall].
    change (c :: w) with ([c] ++ w). apply star_step; [discriminate| |].
    + exists c. auto.
    + apply IH. exact Hall.
Qed.

Lemma den_plus_char p prev w t :
  den (Plus (Char p)) prev w t <-> w <> [] /\ forallb p w = true.
Proof.
  unfold Plus. simpl. split.
  - intros (w1 & w2 & -> & (c & -> & Hp) & Hs). apply star_char in Hs.
    split; [discriminate|]. simpl. rewrite Hp. exact Hs.
  - intros [Hne Hall]. destruct w as [|c w]; [congruence|].
    simpl in Hall. apply andb_true_iff in Hall as [Hp Hall].
    exists [c], w. repeat split; eauto. apply star_char. exact Hall.
Qed.

Lemma den_atleast2_char p prev w t :
  den (AtLeast2 (Char p)) prev w t <-> (2 <= length w)%nat /\ forallb p w = true.
Proof.
  unfold AtLeast2. simpl. split.
  - intros (w1 & w2 & -> & (c & -> & Hp) & (w3 & w4 & -> & (c' & -> & Hp') & Hs)).
    apply star_char in Hs. simpl. rewrite Hp, Hp'. split; [lia | exact Hs].
  - intros [Hlen Hall]. destruct w as [|c [|c' w]]; simpl in Hlen; try lia.
    simpl in Hall. apply andb_true_iff in Hall as [Hp Hall].
    apply andb_true_iff in Hall as [Hp' Hall].
    exists [c], (c' :: w). repeat split; eauto.
    exists [c'], w. repeat split; eauto. apply star_char. exact Hall.
Qed.

(** A pattern anchored with [^] can only match at the start of the input. *)
Lemma search_anchored r s :
  search (Seq Bol r) None s = m (Seq Bol r) None s (fun _ _ => true).
Proof.
  assert (Hno : forall s c, search (Seq Bol r) (Some c) s = false).
  { clear s. induction s as [|c' s IH]; intros c; simpl; [reflexivity | apply IH]. }
  destruct s as [|c s]; simpl.
  - destruct (m r None [] _); reflexivity.
  - rewrite Hno. destruct (m r None (c :: s) _); reflexivity.
Qed.

End RegExpSpec.

(** ** Strings *)

Module StringFacts.

Import JS.

Lemma list_ascii_of_string_app a b :
  list_ascii_of_string (a +:+ b) = list_ascii_of_string a ++ list_ascii_of_string b.
Proof. induction a as [|c a IH]; simpl; [reflexivity | now rewrite IH]. Qed.

Lemma string_of_list_ascii_app a b :
  string_of_list_ascii (a ++ b) = string_of_list_ascii a +:+ string_of_list_ascii b.
Proof. induction a as [|c a IH]; simpl; [reflexivity | now rewrite IH]. Qed.

Lemma length_list_ascii_of_string s :
  length (list_ascii_of_string s) = String.length s.
Proof. induction s as [|c s IH]; simpl; [reflexivity | now rewrite IH]. Qed.

Lemma take_all s n : (String.length s <= n)%nat -> take n s = s.
Proof.
  revert n. induction s as [|c s IH]; intros n Hn.
  - destruct n; reflexivity.
  - destruct n; simpl in *; [lia|]. rewrite IH; [reflexivity | lia].
Qed.

Lemma substring_0_all s n : (String.length s <= n)%nat -> substring s 0 n = s.
Proof.
  intros Hn. unfold substring.
  rewrite Nat.min_0_l, (Nat.min_r n (String.length s)) by exact Hn.
  rewrite Nat.max_0_l, Nat.min_0_l, Nat.sub_0_r.
  replace (drop 0 s) with s by (destruct s; reflexivity).
  apply take_all. lia.
Qed.

(** The first and the last character are not white space. *)
Definition no_edge_space (s : string) : bool :=
  match list_ascii_of_string s with
  | [] => true
  | c :: l => negb (is_space c) && negb (is_space (List.last l c))
  end.

Lemma trimStart_id s : no_edge_space s = true -> trimStart s = s.
Proof.
  destruct s as [|c s]; [reflexivity|]. unfold no_edge_space. simpl.
  intros H. apply andb_true_iff in H as [H _].
  apply negb_true_iff in H. now rewrite H.
Qed.

Lemma last_default_irrelevant (l : list ascii) e c d :
  List.last (e :: l) c = List.last (e :: l) d.
Proof.
  revert e. induction l as [|x l IH]; intros e; [reflexivity|].
  change (List.last (e :: x :: l) c) with (List.last (x :: l) c).
  change (List.last (e :: x :: l) d) with (List.last (x :: l) d).
  apply IH.
Qed.

Lemma trimEnd_last s :
  match list_ascii_of_string s with
  | [] => True
  | c :: l => is_space (List.last l c) = false
  end -> trimEnd s = s.
Proof.
  induction s as [|c s IH]; [reflexivity|]. intros Hlast.
  destruct s as [|d s].
  - simpl in *. now rewrite Hlast.
  - change (trimEnd (String c (String d s)))
      with (match trimEnd (String d s) with
            | EmptyString => if is_space c then EmptyString else String c EmptyString
            | r => String c r
            end).
    rewrite IH; [reflexivity|].
    change (list_ascii_of_string (String c (String d s)))
      with (c :: d :: list_ascii_of_string s) in Hlast.
    change (list_ascii_of_string (String d s)) with (d :: list_ascii_of_string s).
    change (List.last (d :: list_ascii_of_string s) c)
      with (List.last (d :: list_ascii_of_string s) c) in Hlast.
    destruct (list_ascii_of_string s) as [|e l]; [exact Hlast|].
    rewrite (last_default_irrelevant l e d c). exact Hlast.
Qed.

Lemma trimEnd_id s : no_edge_space s = true -> trimEnd s = s.
Proof.
  intros H. apply trimEnd_last. unfold no_edge_space in H.
  destruct (list_ascii_of_string s); [exact I|].
  apply andb_true_iff in H as [_ H]. now apply negb_true_iff in H.
Qed.

Lemma trim_id s : no_edge_space s = true -> trim s = s.
Proof. intros H. unfold trim. rewrite trimStart_id by exact H. now apply trimEnd_id. Qed.

End StringFacts.

(** ** Sanitizer *)

Module SanitizerFacts.

Import JS Security StringFacts RegExp RegExpSpec.

Definition all_chars (p : ascii -> bool) (s : string) : bool :=
  forallb p (list_ascii_of_string s).

(** Characters that start or belong to markup: [<], [>] and [&]. *)
Definition markup_char (c : ascii) : bool :=
  existsb (Ascii.eqb c) ["<"; ">"; "&"]%char.

Definition no_markup (s : string) : bool :=
  all_chars (fun c => negb (markup_char c)) s.

(** An already-clean string: no markup, no white space at either end, at
    most 10000 characters. *)
Definition clean (s : string) : Prop :=
  no_markup s = true /\ no_edge_space s = true
  /\ (String.length s <= Z.to_nat 10000)%nat.

(** The email pattern in the specification's words: [localpart@domain.tld]
    with a top-level domain of two or more letters. *)
Definition email_shape (s : string) : Prop :=
  exists localpart domain tld : string,
    s = localpart +:+ "@" +:+ domain +:+ "." +:+ tld
    /\ localpart <> EmptyString /\ all_chars email_local localpart = true
    /\ domain <> EmptyString /\ all_chars email_domain domain = true
    /\ (2 <= String.length tld)%nat /\ all_chars is_alpha tld = true.

(** A 10001-character input: 9999 letters, a blank and one more letter. *)
Definition long_input : string :=
  string_of_list_ascii (repeat "a"%char (Z.to_nat 9999) ++ [" "; "b"]%char).

Lemma strip_plain n l :
  forallb (fun c => negb (Ascii.eqb c "<")) l = true ->
  (length l <= n)%nat -> DOMPurify.strip n l = l.
Proof.
  revert l. induction n as [|n IH]; intros l Hall Hlen.
  - destruct l; [reflexivity | simpl in Hlen; lia].
  - destruct l as [|c l]; [reflexivity|]. simpl in Hall, Hlen.
    apply andb_true_iff in Hall as [Hc Hall]. apply negb_true_iff in Hc.
    cbn [DOMPurify.strip]. rewrite Hc. f_equal. apply IH; [exact Hall | lia].
Qed.

Lemma skip_past_gt_length s : (length (DOMPurify.skip_past_gt s) <= length s)%nat.
Proof.
  induction s as [|c s IH]; simpl; [lia|]. destruct (Ascii.eqb c ">"); lia.
Qed.

Lemma skip_tag_length s :
  forall st, (length (DOMPurify.skip_tag st s) <= length s)%nat.
Proof.
  induction s as [|c s IH]; intros st; [destruct st; simpl; lia|].
  pose proof (IH DOMPurify.BeforeAttributeName).
  pose proof (IH DOMPurify.AttributeName).
  pose proof (IH DOMPurify.AfterAttributeName).
  pose proof (IH DOMPurify.BeforeAttributeValue).
  pose proof (IH DOMPurify.AttributeValueDoubleQuoted).
  pose proof (IH DOMPurify.AttributeValueSingleQuoted).
  pose proof (IH DOMPurify.AttributeValueUnquoted).
  pose proof (IH DOMPurify.AfterAttributeValueQuoted).
  pose proof (IH DOMPurify.SelfClosingStartTag).
  destruct st; cbn [DOMPurify.skip_tag length];
    repeat match goal with
           | |- context [if ?b then _ else _] => destruct b
           end; lia.
Qed.

Lemma skip_comment_length s : (length (DOMPurify.skip_comment s) <= length s)%nat.
Proof.
  induction s as [|c s IH]; [simpl; lia|].
  change (DOMPurify.skip_comment (c :: s))
    with (if DOMPurify.starts_with ["-"; "-"; ">"]%char (c :: s)
          then skipn 3 (c :: s)
          else if DOMPurify.starts_with ["-"; "-"; "!"; ">"]%char (c :: s)
               then skipn 4 (c :: s) else DOMPurify.skip_comment s).
  destruct (DOMPurify.starts_with _ _); [rewrite length_skipn; lia|].
  destruct (DOMPurify.starts_with _ _); [rewrite length_skipn; lia|].
  simpl. lia.
Qed.

Lemma skip_comment_start_length s :
  (length (DOMPurify.skip_comment_start s) <= length s)%nat.
Proof.
  unfold DOMPurify.skip_comment_start.
  destruct (DOMPurify.starts_with _ _); [rewrite length_skipn; lia|].
  destruct (DOMPurify.starts_with _ _); [rewrite length_skipn; lia|].
  apply skip_comment_length.
Qed.

Lemma read_name_length s : (length (DOMPurify.read_name s).2 <= length s)%nat.
Proof.
  induction s as [|c s IH]; simpl; [lia|].
  destruct (DOMPurify.ends_name c); [simpl; lia|].
  destruct (DOMPurify.read_name s). simpl in *. lia.
Qed.

Lemma skip_element_length nests name s :
  forall depth, (length (DOMPurify.skip_element nests name depth s) <= length s)%nat.
Proof.
  induction s as [|c s IH]; intros depth; [simpl; lia|].
  change (DOMPurify.skip_element nests name depth (c :: s))
    with (if DOMPurify.at_close name (c :: s)
          then match depth with
               | O => DOMPurify.skip_tag DOMPurify.BeforeAttributeName
                        (snd (DOMPurify.read_name (skipn 2 (c :: s))))
               | S depth' => DOMPurify.skip_element nests name depth' s
               end
          else if nests && DOMPurify.at_open name (c :: s)
               then DOMPurify.skip_element nests name (S depth) s
               else DOMPurify.skip_element nests name depth s).
  destruct (DOMPurify.at_close name (c :: s)).
  - destruct depth as [|depth'].
    + pose proof (skip_tag_length (snd (DOMPurify.read_name (skipn 2 (c :: s))))
                    DOMPurify.BeforeAttributeName) as Htag.
      pose proof (read_name_length (skipn 2 (c :: s))) as Hname.
      rewrite length_skipn in Hname. cbn [snd] in *. lia.
    + specialize (IH depth'). simpl. lia.
  - destruct (nests && DOMPurify.at_open name (c :: s)).
    + specialize (IH (S depth)). simpl. lia.
    + specialize (IH depth). simpl. lia.
Qed.

Lemma skip_forbidden_length name body :
  (length (DOMPurify.skip_forbidden name body) <= length body)%nat.
Proof.
  unfold DOMPurify.skip_forbidden. destruct (String.eqb name "plaintext"); [simpl; lia|].
  apply skip_element_length.
Qed.

(** The input length is enough fuel: more fuel changes nothing. *)
Lemma strip_fuel n :
  forall k l, (length l <= n)%nat -> (length l <= k)%nat ->
    DOMPurify.strip n l = DOMPurify.strip k l.
Proof.
  induction n as [|n IH]; intros k l Hn Hk.
  - destruct l; [|simpl in Hn; lia]. destruct k; reflexivity.
  - destruct l as [|c rest]; [destruct k; reflexivity|].
    destruct k as [|k]; [simpl in Hk; lia|]. simpl in Hn, Hk.
    cbn [DOMPurify.strip].
    destruct (Ascii.eqb c "<"); [|f_equal; apply IH; lia].
    destruct rest as [|d rest']; [reflexivity|].
    pose proof (skip_past_gt_length rest') as Hgt. simpl in Hn, Hk.
    destruct (JS.is_alpha d).
    + pose proof (read_name_length (d :: rest')) as Hname.
      destruct (DOMPurify.read_name (d :: rest')) as [name after]. cbn [snd] in Hname.
      simpl in Hname.
      pose proof (skip_tag_length after DOMPurify.BeforeAttributeName) as Hbody.
      pose proof (skip_forbidden_length (string_of_list_ascii name)
                    (DOMPurify.skip_tag DOMPurify.BeforeAttributeName after)) as Helem.
      destruct (_ && _); apply IH; lia.
    + destruct (Ascii.eqb d "/").
      * destruct rest' as [|e rest'']; [reflexivity|].
        pose proof (read_name_length (e :: rest'')) as Hname.
        pose proof (skip_tag_length (snd (DOMPurify.read_name (e :: rest'')))
                      DOMPurify.BeforeAttributeName) as Htag.
        cbn [snd] in *. simpl in Hname, Hn, Hk.
        destruct (JS.is_alpha e); apply IH; simpl in *; lia.
      * destruct (Ascii.eqb d "!").
        -- destruct (DOMPurify.starts_with _ _).
           ++ pose proof (skip_comment_start_length (skipn 2 rest')) as Hc.
              rewrite length_skipn in Hc. apply IH; lia.
           ++ apply IH; lia.
        -- destruct (Ascii.eqb d "?"); [apply IH; lia|].
           f_equal. apply IH; simpl; lia.
Qed.

(** The sanitizer leaves a string without [<] as it is. *)
Lemma sanitize_plain s : no_markup s = true -> DOMPurify.sanitize s = s.
Proof.
  intros H. unfold DOMPurify.sanitize.
  rewrite strip_plain; [apply string_of_list_ascii_of_string | | lia].
  unfold no_markup, all_chars in H. rewrite forallb_forall in *.
  intros c Hin. specialize (H c Hin). unfold markup_char in H. simpl in H.
  destruct (Ascii.eqb c "<"); [discriminate | reflexivity].
Qed.

Lemma string_of_list_ascii_nonempty l : l <> [] -> string_of_list_ascii l <> EmptyString.
Proof. destruct l; [congruence | discriminate]. Qed.

Lemma list_ascii_of_string_nonempty s : s <> EmptyString -> list_ascii_of_string s <> [].
Proof. destruct s; [congruence | discriminate]. Qed.

(** The pattern of [sanitizeEmail], run by the matcher, accepts exactly the
    strings of the shape the specification describes. *)
Lemma emailRegex_shape s : test emailRegex s = true <-> email_shape s.
Proof.
  unfold test, emailRegex. rewrite search_anchored, (m_agrees _ None).
  split.
  - intros (w & t & Hs & Hden & _).
    destruct Hden as (w0 & w1 & -> & [-> _] & Hden).
    destruct Hden as (wl & w2 & -> & Hl & Hden).
    apply den_plus_char in Hl as [Hlne Hl].
    destruct Hden as (wa & w3 & -> & (a & -> & Ha) & Hden).
    destruct Hden as (wd & w4 & -> & Hd & Hden).
    apply den_plus_char in Hd as [Hdne Hd].
    destruct Hden as (wp & w5 & -> & (p & -> & Hp) & Hden).
    destruct Hden as (wt & w6 & -> & Ht & [-> ->]).
    apply den_atleast2_char in Ht as [Htlen Ht].
    apply Ascii.eqb_eq in Ha, Hp. subst a p.
    exists (string_of_list_ascii wl), (string_of_list_ascii wd), (string_of_list_ascii wt).
    unfold all_chars. rewrite !list_ascii_of_string_of_list_ascii.
    rewrite <- (string_of_list_ascii_of_string s), Hs.
    repeat split; auto using string_of_list_ascii_nonempty.
    + simpl. rewrite !app_nil_r, !string_of_list_ascii_app. simpl.
      rewrite string_of_list_ascii_app. reflexivity.
    + rewrite <- length_list_ascii_of_string, list_ascii_of_string_of_list_ascii. exact Htlen.
  - intros (l & d & t & -> & Hlne & Hl & Hdne & Hd & Htlen & Ht).
    unfold all_chars in *.
    exists (list_ascii_of_string (l +:+ "@" +:+ d +:+ "." +:+ t)), [].
    split; [now rewrite app_nil_r|]. split; [|reflexivity].
    rewrite !list_ascii_of_string_app.
    exists [], (list_ascii_of_string l ++ list_ascii_of_string "@" ++
                list_ascii_of_string d ++ list_ascii_of_string "." ++ list_ascii_of_string t).
    split; [reflexivity|]. split; [split; reflexivity|].
    exists (list_ascii_of_string l), (list_ascii_of_string "@" ++
                list_ascii_of_string d ++ list_ascii_of_string "." ++ list_ascii_of_string t).
    split; [reflexivity|]. split.
    { apply den_plus_char. auto using list_ascii_of_string_nonempty. }
    exists ["@"%char], (list_ascii_of_string d ++ list_ascii_of_string "." ++ list_ascii_of_string t).
    split; [reflexivity|]. split; [exists "@"%char; auto|].
    exists (list_ascii_of_string d), (list_ascii_of_string "." ++ list_ascii_of_string t).
    split; [reflexivity|]. split.
    { apply den_plus_char. auto using list_ascii_of_string_nonempty. }
    exists ["."%char], (list_ascii_of_string t).
    split; [reflexivity|]. split; [exists "."%char; auto|].
    exists (list_ascii_of_string t), [].
    split; [now rewrite app_nil_r|]. split; [|split; reflexivity].
    apply den_atleast2_char. rewrite length_list_ascii_of_string. auto.
Qed.

End SanitizerFacts.

Import SanitizerFacts.

(** C7.  [sanitizeEmail("  USER@Example.COM ")] is ["user@example.com"] and
    [sanitizeEmail("not-an-email")] is the empty string; for every input,
    [sanitizeEmail] sanitizes it with [sanitizeText] and returns the
    lower-cased sanitized value when that value has the shape
    [localpart@domain.tld] with a top-level domain of two or more letters,
    and the empty string otherwise. *)
Theorem sanitizeEmail_examples_and_pattern :
  Security.sanitizeEmail "  USER@Example.COM " = "user@example.com"%string
  /\ Security.sanitizeEmail "not-an-email" = EmptyString
  /\ forall input : string,
       (email_shape (Security.sanitizeText input)
        /\ Security.sanitizeEmail input = JS.toLowerCase (Security.sanitizeText input))
       \/ (~ email_shape (Security.sanitizeText input)
           /\ Security.sanitizeEmail input = EmptyString).
Proof.
  split; [vm_compute; reflexivity|]. split; [vm_compute; reflexivity|].
  intros input. unfold Security.sanitizeEmail.
  destruct (RegExp.test Security.emailRegex (Security.sanitizeText input)) eqn:Htest.
  - left. split; [|reflexivity]. apply emailRegex_shape. exact Htest.
  - right. split; [|reflexivity]. intros Hshape.
    apply emailRegex_shape in Hshape. congruence.
Qed.

(** C8 (as amended).  Applying [sanitizeText] to an already-clean string (no
    markup characters, no white space at either end, at most 10000
    characters) returns that string unchanged, so that sanitizing it again
    changes nothing either. *)
Theorem sanitizeText_fixes_clean_strings (s : string) :
  clean s ->
  Security.sanitizeText s = s
  /\ Security.sanitizeText (Security.sanitizeText s) = Security.sanitizeText s.
Proof.
  intros (Hmarkup & Hedge & Hlen).
  assert (H : Security.sanitizeText s = s).
  { unfold Security.sanitizeText.
    rewrite sanitize_plain by exact Hmarkup.
    rewrite StringFacts.trim_id by exact Hedge.
    apply StringFacts.substring_0_all. exact Hlen. }
  split; [exact H|]. rewrite H. exact H.
Qed.

Lemma sanitizeText_fixes_clean_strings_witness :
  clean "hello world"
  /\ Security.sanitizeText "hello world" = "hello world"%string
  /\ Security.sanitizeText (Security.sanitizeText "hello world")
     = Security.sanitizeText "hello world".
Proof.
  assert (Hclean : clean "hello world").
  { split; [reflexivity|]. split; [reflexivity|]. apply Nat.leb_le. vm_compute. reflexivity. }
  split; [exact Hclean|].
  exact (sanitizeText_fixes_clean_strings "hello world" Hclean).
Defined.

(** C8 as stated fails: the length limit is applied after trimming, so the
    output for [long_input] ends in a blank, which a second pass removes. *)
Lemma sanitizeText_not_idempotent :
  Security.sanitizeText (Security.sanitizeText long_input)
  <> Security.sanitizeText long_input.
Proof.
  intros H. apply (f_equal (fun s => Z.of_nat (String.length s))) in H.
  vm_compute in H. discriminate H.
Qed.

(** ** Rate limiting *)

Module RateLimitFacts.

Import Next RateLimiterFlexible RateLimit.

(** The results returned to client [ip] in a list of tagged results. *)
Fixpoint results_of {A : Type} (ip : string) (rs : list (string * A)) : list A :=
  match rs with
  | [] => []
  | (key, r) :: rest =>
      if String.eqb key ip then r :: results_of ip rest else results_of ip rest
  end.

(** A sequence of consumption calls [(client, time)] against one limiter,
    served in order; each result is tagged with its client. *)
Fixpoint run (l : RateLimiterMemory) (store : gmap string ConsumptionRecord)
    (calls : list (string * Z))
  : gmap string ConsumptionRecord * list (string * RateLimit.result) :=
  match calls with
  | [] => (store, [])
  | (ip, now) :: rest =>
      let '(store', r) := consumeWith l store ip now in
      let '(store'', rs) := run l store' rest in
      (store'', (ip, r) :: rs)
  end.

(** Client [ip] starts a new window at time [now]: it has no record, or the
    window of its record has fully elapsed. *)
Definition fresh (l : RateLimiterMemory) (store : gmap string ConsumptionRecord)
    (ip : string) (now : Z) : Prop :=
  match store !! ip with
  | None => True
  | Some r => elapsed l r now = true
  end.

(** What the [j]-th consumption (counted from 0) of a window must report
    under a policy of [points l] per [duration l] seconds. *)
Definition expected (l : RateLimiterMemory) (j : Z) (r : RateLimit.result) : Prop :=
  limit r = Some (points l)
  /\ (j < points l -> success r = true /\ remaining r = Some (points l - 1 - j))
  /\ (points l <= j -> success r = false /\ remaining r = Some 0)
  /\ exists s, reset r = Some s /\ 1 <= s <= duration l.

Lemma ceil_div_1000_bounds ms W :
  0 < ms <= W * 1000 -> 1 <= JS.ceil_div_1000 ms <= W.
Proof.
  intros H. unfold JS.ceil_div_1000.
  pose proof (Z.div_mod (- ms) 1000 ltac:(lia)) as Hdm.
  pose proof (Z.mod_pos_bound (- ms) 1000 ltac:(lia)) as Hmod.
  lia.
Qed.

(** A call of another client leaves the record of [ip] alone. *)
Lemma consumeWith_other l store key now ip :
  key <> ip -> (consumeWith l store key now).1 !! ip = store !! ip.
Proof.
  intros Hne. unfold consumeWith, consume.
  destruct (0 <? _); simpl; now rewrite lookup_insert_ne.
Qed.

(** A call of [ip] inside its current window of start [t1], after [k]
    earlier consumptions of that window. *)
Lemma consumeWith_in_window l store ip t1 k now :
  0 < points l -> 0 <= k ->
  store !! ip = Some {| rec_remaining := Z.max 0 (points l - k); rec_windowStart := t1 |} ->
  t1 <= now < t1 + duration l * 1000 ->
  (consumeWith l store ip now).1 !! ip
    = Some {| rec_remaining := Z.max 0 (points l - (k + 1)); rec_windowStart := t1 |}
  /\ expected l k (consumeWith l store ip now).2.
Proof.
  intros HN Hk Hrec Hnow. unfold consumeWith, consume. rewrite Hrec.
  unfold elapsed. simpl.
  destruct (Z.leb_spec (t1 + duration l * 1000) now) as [?|_]; [lia|]. simpl.
  assert (Hceil : 1 <= JS.ceil_div_1000 (t1 + duration l * 1000 - now) <= duration l)
    by (apply ceil_div_1000_bounds; lia).
  destruct (Z.ltb_spec 0 (Z.max 0 (points l - k))) as [Hpos|Hzero]; simpl.
  - rewrite lookup_insert_eq. split.
    + do 2 f_equal. lia.
    + unfold expected. simpl. repeat split; try (f_equal; lia); try lia. eauto.
  - rewrite lookup_insert_eq. split.
    + do 2 f_equal. lia.
    + unfold expected. simpl. repeat split; try (f_equal; lia); try lia. eauto.
Qed.

(** The first call of a new window. *)
Lemma consumeWith_fresh l store ip now :
  0 < points l -> 0 < duration l -> fresh l store ip now ->
  (consumeWith l store ip now).1 !! ip
    = Some {| rec_remaining := Z.max 0 (points l - 1); rec_windowStart := now |}
  /\ expected l 0 (consumeWith l store ip now).2.
Proof.
  intros HN HW Hfresh. unfold consumeWith, consume.
  assert (Hr : match store !! ip with
               | Some r => if elapsed l r now
                           then {| rec_remaining := points l; rec_windowStart := now |} else r
               | None => {| rec_remaining := points l; rec_windowStart := now |}
               end = {| rec_remaining := points l; rec_windowStart := now |}).
  { unfold fresh in Hfresh. destruct (store !! ip); [now rewrite Hfresh | reflexivity]. }
  rewrite Hr. simpl.
  destruct (Z.ltb_spec 0 (points l)) as [_|?]; [|lia]. simpl.
  rewrite lookup_insert_eq. split.
  - do 2 f_equal. lia.
  - unfold expected. simpl.
    replace (now + duration l * 1000 - now) with (duration l * 1000) by lia.
    pose proof (ceil_div_1000_bounds (duration l * 1000) (duration l) ltac:(lia)).
    repeat split; try (f_equal; lia); try lia. eauto.
Qed.

Lemma run_cons l store ip now rest :
  run l store ((ip, now) :: rest)
  = ((run l (consumeWith l store ip now).1 rest).1,
     (ip, (consumeWith l store ip now).2) :: (run l (consumeWith l store ip now).1 rest).2).
Proof.
  simpl. destruct (consumeWith l store ip now) as [store' r]. simpl.
  destruct (run l store' rest). reflexivity.
Qed.

(** Inside one window: after [k] consumptions, the [i]-th further call of
    [ip] is the [(k+i)]-th consumption of the window, whatever other clients
    do in between. *)
Lemma run_in_window l ip t1 :
  0 < points l ->
  forall calls store k, 0 <= k ->
    store !! ip = Some {| rec_remaining := Z.max 0 (points l - k); rec_windowStart := t1 |} ->
    (forall t, In (ip, t) calls -> t1 <= t < t1 + duration l * 1000) ->
    forall (i : nat) r, results_of ip (run l store calls).2 !! i = Some r ->
      expected l (k + Z.of_nat i) r.
Proof.
  intros HN calls. induction calls as [|[key now] rest IH]; intros store k Hk Hrec Hin i r Hi.
  - simpl in Hi. destruct i; discriminate.
  - rewrite run_cons in Hi. simpl in Hi.
    destruct (String.eqb_spec key ip) as [->|Hne].
    + destruct (consumeWith_in_window l store ip t1 k now HN Hk Hrec) as [Hrec' Hexp].
      { apply Hin. now left. }
      destruct i as [|i]; simpl in Hi.
      * injection Hi as <-. now rewrite Z.add_0_r.
      * replace (k + Z.of_nat (S i)) with ((k + 1) + Z.of_nat i) by lia.
        eapply IH; [| exact Hrec' | | exact Hi]; [lia|].
        intros t Ht. apply Hin. now right.
    + eapply IH; [exact Hk | | | exact Hi].
      * rewrite consumeWith_other by exact Hne. exact Hrec.
      * intros t Ht. apply Hin. now right.
Qed.

(** A whole window: the first call of [ip] opens it at [t1], and its later
    calls fall before the window elapses. *)
Lemma run_window l ip t1 store calls :
  0 < points l -> 0 < duration l ->
  fresh l store ip t1 ->
  (forall t, In (ip, t) calls -> t1 <= t < t1 + duration l * 1000) ->
  forall (i : nat) r,
    results_of ip (run l store ((ip, t1) :: calls)).2 !! i = Some r ->
    expected l (Z.of_nat i) r.
Proof.
  intros HN HW Hfresh Hin i r Hi.
  rewrite run_cons in Hi. simpl in Hi. rewrite String.eqb_refl in Hi.
  destruct (consumeWith_fresh l store ip t1 HN HW Hfresh) as [Hrec Hexp].
  destruct i as [|i]; simpl in Hi.
  - injection Hi as <-. exact Hexp.
  - replace (Z.of_nat (S i)) with (1 + Z.of_nat i) by lia.
    eapply (run_in_window l ip t1 HN); [| exact Hrec | exact Hin | exact Hi]. lia.
Qed.

(** Every call is answered: the client gets one result per call. *)
Lemma run_answers_all l ip calls :
  forall store, length (results_of ip (run l store calls).2) = length (results_of ip calls).
Proof.
  induction calls as [|[key now] rest IH]; intros store; [reflexivity|].
  rewrite run_cons. cbn [snd results_of].
  destruct (String.eqb key ip); cbn [length]; now rewrite IH.
Qed.

End RateLimitFacts.

(** ** The sliding-window log *)

Module SimpleRateLimiterFacts.

Import RateLimit RateLimitFacts.

(** A sequence of [check] calls [(key, now, cleanupNow)] served in order. *)
Fixpoint run_checks (l : SimpleRateLimiter) (calls : list (string * Z * Z))
  : SimpleRateLimiter * list (string * bool) :=
  match calls with
  | [] => (l, [])
  | (key, now, cleanupNow) :: rest =>
      let '(l', ok) := check l key now cleanupNow in
      let '(l'', oks) := run_checks l' rest in
      (l'', (key, ok) :: oks)
  end.

(** The time stamps recorded for a client. *)
Definition reqs_of (l : SimpleRateLimiter) (ip : string) : list Z :=
  default [] (requests l !! ip).

(** Every recorded time stamp of the client is at least [windowMs] old at
    time [t1]: its quota is whole. *)
Definition all_stale (l : SimpleRateLimiter) (ip : string) (t1 : Z) : Prop :=
  Forall (fun x => windowMs l <= t1 - x) (reqs_of l ip).

(** With respect to the window that starts at [t1]: every stamp is stale or
    inside the window, and [k] of them are inside. *)
Definition window_inv (W t1 : Z) (k : nat) (reqs : list Z) : Prop :=
  Forall (fun x => x <= t1 - W \/ t1 <= x < t1 + W) reqs
  /\ length (List.filter (fun x => t1 <=? x) reqs) = k.

Lemma validAt_in_window W t1 now reqs :
  0 < W -> t1 <= now < t1 + W ->
  Forall (fun x => x <= t1 - W \/ t1 <= x < t1 + W) reqs ->
  validAt W now reqs = List.filter (fun x => t1 <=? x) reqs.
Proof.
  intros HW Hnow Hall. unfold validAt.
  induction Hall as [|x reqs Hx _ IH]; [reflexivity|]. simpl. rewrite IH.
  destruct (Z.ltb_spec (now - x) W), (Z.leb_spec t1 x); try reflexivity; lia.
Qed.

Lemma filter_in_window_inv W t1 k reqs :
  0 < W -> window_inv W t1 k reqs ->
  window_inv W t1 k (List.filter (fun x => t1 <=? x) reqs).
Proof.
  intros HW [Hall Hk]. split.
  - apply List.Forall_forall. intros x Hx. apply List.filter_In in Hx as [Hx _].
    rewrite List.Forall_forall in Hall. auto.
  - rewrite <- Hk. f_equal. clear. induction reqs as [|x reqs IH]; [reflexivity|].
    simpl. destruct (t1 <=? x) eqn:Hx; simpl; [rewrite Hx, IH|]; auto.
Qed.

Lemma snoc_in_window_inv W t1 k reqs now :
  0 < W -> t1 <= now < t1 + W -> window_inv W t1 k reqs ->
  window_inv W t1 (S k) (List.filter (fun x => t1 <=? x) reqs ++ [now]).
Proof.
  intros HW Hnow Hinv. destruct (filter_in_window_inv W t1 k reqs HW Hinv) as [Hall Hk].
  split.
  - apply List.Forall_app. split; [exact Hall|]. constructor; [|constructor]. right. lia.
  - rewrite List.filter_app, length_app, Hk. simpl.
    destruct (Z.leb_spec t1 now); simpl; lia.
Qed.

Lemma reqs_of_cleanup l ip now :
  reqs_of (cleanup l now) ip = validAt (windowMs l) now (reqs_of l ip).
Proof.
  unfold reqs_of, cleanup. simpl. rewrite lookup_omap.
  destruct (requests l !! ip) as [reqs|]; simpl; [|reflexivity].
  destruct (validAt (windowMs l) now reqs); reflexivity.
Qed.

Lemma check_policy l key now cleanupNow :
  maxRequests (check l key now cleanupNow).1 = maxRequests l
  /\ windowMs (check l key now cleanupNow).1 = windowMs l.
Proof.
  unfold check. destruct (_ <=? _); [auto|]. destruct (_ <? _); auto.
Qed.

(** A call of another client inside the window keeps the invariant. *)
Lemma check_other l key now cleanupNow ip t1 k :
  key <> ip -> 0 < windowMs l ->
  t1 <= cleanupNow < t1 + windowMs l ->
  window_inv (windowMs l) t1 k (reqs_of l ip) ->
  window_inv (windowMs l) t1 k (reqs_of (check l key now cleanupNow).1 ip).
Proof.
  intros Hne HW Htc Hinv. unfold check.
  destruct (_ <=? _); [exact Hinv|].
  match goal with |- context [cleanup ?x _] => set (l' := x) end.
  assert (Hsame : reqs_of l' ip = reqs_of l ip).
  { unfold reqs_of, l'. simpl. now rewrite lookup_insert_ne. }
  destruct (_ <? _); simpl.
  - rewrite reqs_of_cleanup, Hsame. change (windowMs l') with (windowMs l).
    rewrite (validAt_in_window _ t1) by (auto; apply Hinv).
    now apply filter_in_window_inv.
  - now rewrite Hsame.
Qed.

(** A call of the client itself inside the window: allowed exactly when
    fewer than [maxRequests] stamps are inside the window. *)
Lemma check_in_window l ip now cleanupNow t1 k :
  0 < windowMs l ->
  t1 <= now < t1 + windowMs l -> t1 <= cleanupNow < t1 + windowMs l ->
  window_inv (windowMs l) t1 k (reqs_of l ip) ->
  (check l ip now cleanupNow).2 = (Z.of_nat k <? maxRequests l)
  /\ window_inv (windowMs l) t1
       (if Z.of_nat k <? maxRequests l then S k else k)
       (reqs_of (check l ip now cleanupNow).1 ip).
Proof.
  intros HW Hnow Htc Hinv. unfold check. fold (reqs_of l ip).
  rewrite (validAt_in_window _ t1) by (auto; apply Hinv).
  destruct Hinv as [Hall Hk]. rewrite Hk.
  destruct (Z.leb_spec (maxRequests l) (Z.of_nat k)) as [Hfull|Hroom].
  - destruct (Z.ltb_spec (Z.of_nat k) (maxRequests l)); [lia|]. simpl.
    split; [reflexivity|]. split; assumption.
  - destruct (Z.ltb_spec (Z.of_nat k) (maxRequests l)); [|lia].
    assert (Hnew : window_inv (windowMs l) t1 (S k)
                     (List.filter (fun x => t1 <=? x) (reqs_of l ip) ++ [now])).
    { apply snoc_in_window_inv; auto. split; assumption. }
    destruct (_ <? _); simpl; (split; [reflexivity|]).
    + rewrite reqs_of_cleanup. simpl. unfold reqs_of at 1. simpl.
      rewrite lookup_insert_eq. simpl.
      rewrite (validAt_in_window _ t1) by (auto; apply Hnew).
      now apply filter_in_window_inv.
    + unfold reqs_of at 1. simpl. rewrite lookup_insert_eq. exact Hnew.
Qed.

Lemma run_checks_cons l key now cleanupNow rest :
  run_checks l ((key, now, cleanupNow) :: rest)
  = ((run_checks (check l key now cleanupNow).1 rest).1,
     (key, (check l key now cleanupNow).2)
       :: (run_checks (check l key now cleanupNow).1 rest).2).
Proof.
  simpl. destruct (check l key now cleanupNow) as [l' ok]. simpl.
  destruct (run_checks l' rest). reflexivity.
Qed.

(** All calls of the list happen inside the window that starts at [t1]. *)
Definition within (W t1 : Z) (calls : list (string * Z * Z)) : Prop :=
  forall key now cleanupNow, In (key, now, cleanupNow) calls ->
    t1 <= now < t1 + W /\ t1 <= cleanupNow < t1 + W.

(** Inside one window, with [k] stamps already in it: the [i]-th further
    call of [ip] is allowed exactly when [k + i < maxRequests]. *)
Lemma run_checks_in_window ip t1 :
  forall calls l k,
    0 < windowMs l ->
    window_inv (windowMs l) t1 k (reqs_of l ip) ->
    within (windowMs l) t1 calls ->
    forall (i : nat) ok, results_of ip (run_checks l calls).2 !! i = Some ok ->
      ok = (Z.of_nat (k + i) <? maxRequests l).
Proof.
  induction calls as [|[[key now] cleanupNow] rest IH]; intros l k HW Hinv Hin i ok Hi.
  - simpl in Hi. destruct i; discriminate.
  - rewrite run_checks_cons in Hi. simpl in Hi.
    destruct (Hin key now cleanupNow ltac:(now left)) as [Hnow Htc].
    destruct (check_policy l key now cleanupNow) as [HN' HW'].
    assert (Hrest : within (windowMs (check l key now cleanupNow).1) t1 rest).
    { rewrite HW'. intros k' n' c' H'. apply (Hin k' n' c'). now right. }
    assert (HWpos : 0 < windowMs (check l key now cleanupNow).1) by (now rewrite HW').
    destruct (String.eqb_spec key ip) as [->|Hne].
    + destruct (check_in_window l ip now cleanupNow t1 k HW Hnow Htc Hinv) as [Hok Hinv'].
      rewrite <- HW' in Hinv'.
      destruct i as [|i]; simpl in Hi.
      * injection Hi as <-. rewrite Hok. now rewrite Nat.add_0_r.
      * destruct (Z.ltb_spec (Z.of_nat k) (maxRequests l)) as [Hroom|Hfull].
        -- rewrite (IH _ (S k) HWpos Hinv' Hrest i ok Hi).
           rewrite HN'. f_equal. lia.
        -- rewrite (IH _ k HWpos Hinv' Hrest i ok Hi).
           rewrite HN'.
           destruct (Z.ltb_spec (Z.of_nat (k + i)) (maxRequests l)),
                    (Z.ltb_spec (Z.of_nat (k + S i)) (maxRequests l)); try reflexivity; lia.
    + assert (Hinv' : window_inv (windowMs (check l key now cleanupNow).1) t1 k
                        (reqs_of (check l key now cleanupNow).1 ip)).
      { rewrite HW'. now apply check_other. }
      rewrite (IH _ k HWpos Hinv' Hrest i ok Hi).
      now rewrite HN'.
Qed.

Lemma all_stale_window_inv l ip t1 :
  all_stale l ip t1 -> 0 < windowMs l ->
  window_inv (windowMs l) t1 0 (reqs_of l ip).
Proof.
  unfold all_stale. intros Hstale HW. split.
  - eapply List.Forall_impl; [|exact Hstale]. simpl. intros x Hx. left. lia.
  - induction Hstale as [|x reqs Hx _ IH]; [reflexivity|]. simpl.
    destruct (Z.leb_spec t1 x); [lia | exact IH].
Qed.

(** A whole window of the sliding log: when every stamp of [ip] is stale at
    [t1], its [i]-th call inside the window that starts at [t1] is allowed
    exactly when [i < maxRequests]. *)
Lemma run_checks_window l ip t1 calls :
  0 < windowMs l -> all_stale l ip t1 -> within (windowMs l) t1 calls ->
  forall (i : nat) ok, results_of ip (run_checks l calls).2 !! i = Some ok ->
    ok = (Z.of_nat i <? maxRequests l).
Proof.
  intros HW Hstale Hin i ok Hi.
  apply (run_checks_in_window ip t1 calls l 0%nat HW
           (all_stale_window_inv l ip t1 Hstale HW) Hin i ok Hi).
Qed.

(** The client and the time of each [check] call. *)
Definition checks_of (calls : list (string * Z * Z)) : list (string * Z) :=
  map (fun c => (c.1.1, c.1.2)) calls.

Lemma run_checks_answers_all ip calls :
  forall l, length (results_of ip (run_checks l calls).2)
            = length (results_of ip (checks_of calls)).
Proof.
  induction calls as [|[[key now] cleanupNow] rest IH]; intros l; [reflexivity|].
  rewrite run_checks_cons. cbn [snd fst map checks_of results_of].
  destruct (String.eqb key ip); cbn [length]; now rewrite IH.
Qed.

End SimpleRateLimiterFacts.

(** ** The sliding-window log over any span *)

Module SlidingLogFacts.

Import RateLimit SimpleRateLimiterFacts.

(** The times of the allowed calls of client [ip], in order. *)
Fixpoint allowed_times (l : SimpleRateLimiter) (ip : string)
    (calls : list (string * Z * Z)) : list Z :=
  match calls with
  | [] => []
  | (key, now, cleanupNow) :: rest =>
      if String.eqb key ip && (check l key now cleanupNow).2
      then now :: allowed_times (check l key now cleanupNow).1 ip rest
      else allowed_times (check l key now cleanupNow).1 ip rest
  end.

(** The clock never runs backwards: every reading is at least the one
    before it, starting from [t0]. *)
Fixpoint clock_from (t0 : Z) (calls : list (string * Z * Z)) : Prop :=
  match calls with
  | [] => True
  | (_, now, cleanupNow) :: rest =>
      t0 <= now /\ now <= cleanupNow /\ clock_from cleanupNow rest
  end.

(** For each time of [times], at most [N] of the times up to and including
    it lie less than [W] before it. *)
Definition at_most_per_window (N W : Z) (times : list Z) : Prop :=
  forall (j : nat) x,
    times !! j = Some x ->
    Z.of_nat (length (validAt W x (firstn (S j) times))) <= N.

(** From [t0] on, the log of the client holds at least the allowed times
    that are still valid. *)
Definition covers (W t0 : Z) (times reqs : list Z) : Prop :=
  forall T, t0 <= T -> (length (validAt W T times) <= length (validAt W T reqs))%nat.

Lemma validAt_app W T a b : validAt W T (a ++ b) = validAt W T a ++ validAt W T b.
Proof. apply List.filter_app. Qed.

Lemma validAt_later W t T reqs :
  t <= T -> validAt W T (validAt W t reqs) = validAt W T reqs.
Proof.
  intros Ht. unfold validAt. induction reqs as [|x reqs IH]; [reflexivity|]. simpl.
  destruct (Z.ltb_spec (t - x) W); simpl; rewrite IH; [reflexivity|].
  destruct (Z.ltb_spec (T - x) W); [lia | reflexivity].
Qed.

Lemma validAt_single_length W T x : (length (validAt W T [x]) <= 1)%nat.
Proof. unfold validAt. simpl. destruct (T - x <? W); simpl; lia. Qed.

(** An allowed call found fewer than [maxRequests] valid stamps. *)
Lemma check_allowed l key now cleanupNow :
  (check l key now cleanupNow).2 = true ->
  Z.of_nat (length (validAt (windowMs l) now (reqs_of l key))) < maxRequests l.
Proof.
  unfold check. fold (reqs_of l key).
  destruct (Z.leb_spec (maxRequests l)
              (Z.of_nat (length (validAt (windowMs l) now (reqs_of l key))))) as [|Hlt].
  - discriminate.
  - intros _. exact Hlt.
Qed.

(** What a call leaves in the log of [ip], as seen from any later time. *)
Lemma check_valid_later l key now cleanupNow ip T :
  now <= cleanupNow -> cleanupNow <= T ->
  validAt (windowMs l) T (reqs_of (check l key now cleanupNow).1 ip)
  = validAt (windowMs l) T (reqs_of l ip)
    ++ (if String.eqb key ip && (check l key now cleanupNow).2
        then validAt (windowMs l) T [now] else []).
Proof.
  intros Hnow HT. unfold check. fold (reqs_of l key).
  destruct (maxRequests l <=? _).
  - cbn [fst snd]. rewrite andb_false_r, app_nil_r. reflexivity.
  - match goal with |- context [cleanup ?x _] => set (l' := x) end.
    assert (Hl' : validAt (windowMs l) T (reqs_of l' ip)
                  = validAt (windowMs l) T (reqs_of l ip)
                    ++ (if String.eqb key ip then validAt (windowMs l) T [now] else [])).
    { unfold reqs_of at 1, l'. cbn [requests].
      destruct (String.eqb_spec key ip) as [->|Hne].
      - rewrite lookup_insert_eq. cbn [default from_option id].
        rewrite validAt_app, validAt_later by lia. reflexivity.
      - rewrite lookup_insert_ne by exact Hne. rewrite app_nil_r. reflexivity. }
    destruct (10000 <? _); cbn [fst snd]; rewrite andb_true_r.
    + rewrite reqs_of_cleanup. change (windowMs l') with (windowMs l).
      rewrite validAt_later by lia. exact Hl'.
    + exact Hl'.
Qed.

Lemma at_most_snoc N W times now reqs :
  at_most_per_window N W times ->
  (length (validAt W now times) <= length (validAt W now reqs))%nat ->
  Z.of_nat (length (validAt W now reqs)) < N ->
  at_most_per_window N W (times ++ [now]).
Proof.
  intros Hold Hcov Hroom j x Hj.
  destruct (Nat.lt_ge_cases j (length times)) as [Hlt|Hge].
  - rewrite lookup_app_l in Hj by exact Hlt.
    rewrite firstn_app. replace (S j - length times)%nat with 0%nat by lia.
    rewrite firstn_O, app_nil_r. now apply Hold.
  - rewrite lookup_app_r in Hj by exact Hge.
    destruct (j - length times)%nat as [|k] eqn:Hk; [|destruct k; discriminate Hj].
    injection Hj as <-.
    rewrite firstn_all2 by (rewrite length_app; simpl; lia).
    rewrite validAt_app, length_app.
    pose proof (validAt_single_length W now now). lia.
Qed.

(** Whatever the starting state and whatever other clients do, the allowed
    calls of a client never exceed the quota over any span shorter than the
    window, provided the clock does not run backwards. *)
Lemma allowed_times_bounded ip :
  forall calls l t0 times,
    clock_from t0 calls ->
    covers (windowMs l) t0 times (reqs_of l ip) ->
    at_most_per_window (maxRequests l) (windowMs l) times ->
    at_most_per_window (maxRequests l) (windowMs l) (times ++ allowed_times l ip calls).
Proof.
  induction calls as [|[[key now] cleanupNow] rest IH]; intros l t0 times Hclock Hcov Hold.
  - simpl. now rewrite app_nil_r.
  - destruct Hclock as (Ht0 & Hnow & Hrest).
    destruct (check_policy l key now cleanupNow) as [HN HW].
    cbn [allowed_times].
    destruct (String.eqb key ip && (check l key now cleanupNow).2) eqn:Hok.
    + apply andb_true_iff in Hok as [Hkey Hallowed].
      apply String.eqb_eq in Hkey. subst key.
      change (now :: allowed_times (check l ip now cleanupNow).1 ip rest)
        with ([now] ++ allowed_times (check l ip now cleanupNow).1 ip rest).
      rewrite app_assoc. rewrite <- HN, <- HW.
      apply (IH _ cleanupNow); [exact Hrest | |].
      * rewrite HW. intros T HT.
        rewrite (check_valid_later l ip now cleanupNow ip T Hnow HT).
        rewrite String.eqb_refl, Hallowed. cbn [andb].
        rewrite validAt_app, !length_app.
        pose proof (Hcov T ltac:(lia)). lia.
      * rewrite HN, HW. eapply at_most_snoc; [exact Hold | apply Hcov; lia |].
        exact (check_allowed l ip now cleanupNow Hallowed).
    + rewrite <- HN, <- HW. apply (IH _ cleanupNow); [exact Hrest | |].
      * rewrite HW. intros T HT.
        rewrite (check_valid_later l key now cleanupNow ip T Hnow HT), Hok, app_nil_r.
        apply Hcov. lia.
      * now rewrite HN, HW.
Qed.

End SlidingLogFacts.

(** ** Quota of one client *)

Module QuotaFacts.

Import RateLimiterFlexible RateLimit RateLimitFacts.

(** The reported remaining quota of one call is a natural number. *)
Lemma consumeWith_remaining l store ip now :
  0 < points l ->
  exists n, remaining (consumeWith l store ip now).2 = Some n /\ 0 <= n.
Proof.
  intros HN. unfold consumeWith, consume.
  match goal with |- context [0 <? ?x] => destruct (Z.ltb_spec 0 x) as [Hpos|_] end;
    simpl; eexists; (split; [reflexivity|lia]).
Qed.

Lemma run_remaining l :
  0 < points l ->
  forall calls store ip r, In (ip, r) (run l store calls).2 ->
    exists n, remaining r = Some n /\ 0 <= n.
Proof.
  intros HN calls. induction calls as [|[key now] rest IH]; intros store ip r Hin.
  - destruct Hin.
  - rewrite run_cons in Hin. destruct Hin as [Heq|Hin].
    + injection Heq as _ <-. now apply consumeWith_remaining.
    + eapply IH. exact Hin.
Qed.

(** A call that reports no remaining quota leaves an exhausted record. *)
Lemma consumeWith_exhausts l store ip now :
  remaining (consumeWith l store ip now).2 = Some 0 ->
  exists rec, (consumeWith l store ip now).1 !! ip = Some rec /\ rec_remaining rec <= 0.
Proof.
  unfold consumeWith, consume.
  match goal with |- context [0 <? ?x] => destruct (Z.ltb_spec 0 x) as [Hpos|Hle] end;
    simpl; intros Hrem; rewrite lookup_insert_eq.
  - eexists. split; [reflexivity|]. simpl. injection Hrem as Hrem. lia.
  - eexists. split; [reflexivity|]. exact Hle.
Qed.

(** While the window of an exhausted record has not elapsed, every call of
    its client is denied. *)
Lemma run_exhausted l ip rec :
  rec_remaining rec <= 0 ->
  forall calls store,
    store !! ip = Some rec ->
    (forall t, In (ip, t) calls -> elapsed l rec t = false) ->
    Forall (fun r => success r = false /\ remaining r = Some 0)
           (results_of ip (run l store calls).2).
Proof.
  intros Hrem calls. induction calls as [|[key now] rest IH]; intros store Hrec Hin.
  - constructor.
  - rewrite run_cons. cbn [snd results_of].
    destruct (String.eqb_spec key ip) as [->|Hne].
    + assert (Hstep : consumeWith l store ip now
                      = (<[ip := rec]> store,
                         {| success := false; limit := Some (points l); remaining := Some 0;
                            reset := Some (JS.ceil_div_1000
                                             (rec_windowStart rec + duration l * 1000 - now)) |})).
      { unfold consumeWith, consume. rewrite Hrec, (Hin now) by now left.
        destruct (Z.ltb_spec 0 (rec_remaining rec)); [lia | reflexivity]. }
      rewrite Hstep. cbn [fst snd]. constructor; [split; reflexivity|].
      apply IH; [apply lookup_insert_eq|]. intros t Ht. apply Hin. now right.
    + apply IH.
      * rewrite consumeWith_other by exact Hne. exact Hrec.
      * intros t Ht. apply Hin. now right.
Qed.

End QuotaFacts.

(** ** The handlers as shipped *)

Module HandlerFacts.

Import JS Next RateLimit.

(** [getClientIp] throws at every call: its first test reads the
    identifier [NextRequest], which has no binding at run time. *)
Lemma getClientIp_throws req :
  getClientIp req = Throw (ReferenceError "NextRequest").
Proof. reflexivity. Qed.

(** So [rateLimit] rejects before it reaches a limiter, and consumes
    nothing. *)
Lemma rateLimit_rejects req type st now :
  rateLimit req type st now = (st, Throw (ReferenceError "NextRequest")).
Proof. reflexivity. Qed.

(** Both handlers await [rateLimit] first, inside their [try]: every
    request ends in the [catch] block. *)
Lemma chat_POST_caught d st now req :
  ChatRoute.POST d st now req
  = (st, [("Chat API error:"%string, ["NextRequest is not defined"%string])],
     ChatRoute.error_json 500 "Internal server error" []).
Proof. reflexivity. Qed.

Lemma contact_POST_caught z timestamp st now req :
  ContactRoute.POST z timestamp st now req
  = (st, [("Contact API error:"%string, ["NextRequest is not defined"%string])],
     ContactRoute.message_json 500 "Unexpected error. Please try again later." []).
Proof. reflexivity. Qed.

End HandlerFacts.

Module ChatFacts.

Import JS Next RateLimit ChatRoute.

(** Chat requests [(time, request)] served in order by one process. *)
Fixpoint serve (d : Deps) (st : RateLimit.state) (reqs : list (Z * NextRequest))
  : RateLimit.state * list NextResponse :=
  match reqs with
  | [] => (st, [])
  | (now, req) :: rest =>
      let '(st', _, response) := POST d st now req in
      let '(st'', responses) := serve d st' rest in
      (st'', response :: responses)
  end.

Definition header (name : string) (response : NextResponse) : option string :=
  match List.find (fun h => String.eqb (fst h) name) (headers response) with
  | Some h => Some (snd h)
  | None => None
  end.

Lemma serve_caught d reqs :
  forall st,
    serve d st reqs
    = (st, map (fun _ => error_json 500 "Internal server error" []) reqs).
Proof.
  induction reqs as [|[now req] rest IH]; intros st; [reflexivity|].
  cbn [serve map]. rewrite HandlerFacts.chat_POST_caught, IH. reflexivity.
Qed.

End ChatFacts.

Import Next RateLimiterFlexible RateLimit RateLimitFacts SimpleRateLimiterFacts ChatFacts QuotaFacts.

Module Samples.

Import JS Next RateLimit ChatRoute Schemas.

Definition client : string := "203.0.113.7".

Definition chat_body : json :=
  JObject [("messages"%string,
            JArray [JObject [("role"%string, JString "user");
                             ("content"%string, JString "hello")]])].

Definition chat_request : NextRequest :=
  {| url := "https://site.example/api/chat";
     origin := "https://site.example";
     pathname := "/api/chat";
     x_forwarded_for := Some client;
     x_real_ip := None;
     req_json := Some chat_body |}.

(** A local deployment whose Ollama server answers every prompt. *)
Definition local_deps : Deps :=
  {| portfolioContext := "context";
     GROQ_API_KEY := None;
     VERCEL := None;
     groq_create := fun _ => GroqCompletion None;
     ollama_chat := fun _ => OllamaOk (Some "hi there"%string) |}.

(** Ten further calls, one per second, after a first call at time 0. *)
Definition ten_calls : list (string * Z) :=
  map (fun i => (client, 1000 * Z.of_nat i)) (seq 1 10).

Definition ten_requests : list (Z * NextRequest) :=
  map (fun i => (1000 * Z.of_nat i, chat_request)) (seq 1 10).

Definition ten_checks : list (string * Z * Z) :=
  map (fun i => (client, 1000 * Z.of_nat i, 1000 * Z.of_nat i)) (seq 0 11).

End Samples.

(** C1.  The chat limit of 10 requests per 60 seconds is not enforced by
    the code as shipped.  [rateLimit] throws at every call, before it
    reaches a limiter, and consumes nothing; the chat handler answers from
    its [catch] block with status 500, the message [Internal server error]
    and no rate-limit header.  So of eleven chat requests of one client
    within 60 seconds each one, the 11th included, is answered 500 and not
    429, without [X-RateLimit-Remaining], and the limiter state is what it
    was.  The sliding-window log [SimpleRateLimiter] of the same file, given
    the same eleven calls, allows the first ten and denies the 11th. *)
Theorem chat_limit_is_not_enforced :
  (forall req type st now,
      rateLimit req type st now = (st, JS.Throw (JS.ReferenceError "NextRequest")))
  /\ (forall d st reqs,
        serve d st reqs
        = (st, map (fun _ => ChatRoute.error_json 500 "Internal server error" []) reqs))
  /\ (forall d,
        (serve d empty_state ((0, Samples.chat_request) :: Samples.ten_requests)).2 !! 10%nat
        = Some {| status := 500;
                  body := JS.JObject [("error"%string, JS.JString "Internal server error")];
                  headers := [] |})
  /\ header "X-RateLimit-Remaining"
       (ChatRoute.error_json 500 "Internal server error" []) = None
  /\ results_of Samples.client
       (run_checks (simpleRateLimiters chat) Samples.ten_checks).2
     = repeat true 10 ++ [false].
Proof.
  split; [intros; apply HandlerFacts.rateLimit_rejects|].
  split; [intros; apply serve_caught|].
  split; [intros d; rewrite serve_caught; reflexivity|].
  split; [reflexivity|]. vm_compute. reflexivity.
Qed.

(** C5.  For every client and every sequence of consumption calls against
    one policy of N points per W seconds: every reported remaining quota is
    a non-negative number; once a call reports that no quota remains, every
    further call of the client is denied until the window of its record
    elapses; and when the window of a record has fully elapsed, the next
    call finds the full quota whatever the record held (it succeeds with
    N-1 remaining, and the new window again allows exactly N calls).  For
    the sliding-window log: with [k] time stamps inside the current window
    the [i]-th further call is allowed exactly when [k + i < maxRequests]
    (so an exhausted client stays denied inside the window), and once every
    time stamp is stale the client has its full quota again. *)
Theorem quota_never_negative_exhausts_and_resets :
  (forall l store calls ip r,
      0 < points l -> In (ip, r) (run l store calls).2 ->
      exists n, remaining r = Some n /\ 0 <= n)
  /\ (forall l store ip now calls,
        remaining (consumeWith l store ip now).2 = Some 0 ->
        exists rec,
          (consumeWith l store ip now).1 !! ip = Some rec
          /\ ((forall t, In (ip, t) calls -> elapsed l rec t = false) ->
              Forall (fun r => success r = false /\ remaining r = Some 0)
                (results_of ip (run l (consumeWith l store ip now).1 calls).2)))
  /\ (forall l store ip rec now calls,
        0 < points l -> 0 < duration l ->
        store !! ip = Some rec -> elapsed l rec now = true ->
        (forall t, In (ip, t) calls -> now <= t < now + duration l * 1000) ->
        forall (i : nat) r,
          results_of ip (run l store ((ip, now) :: calls)).2 !! i = Some r ->
          expected l (Z.of_nat i) r)
  /\ (forall l ip t1 k calls,
        0 < windowMs l ->
        window_inv (windowMs l) t1 k (reqs_of l ip) ->
        within (windowMs l) t1 calls ->
        forall (i : nat) ok,
          results_of ip (run_checks l calls).2 !! i = Some ok ->
          ok = (Z.of_nat (k + i) <? maxRequests l))
  /\ (forall l ip t1 calls,
        0 < windowMs l -> all_stale l ip t1 -> within (windowMs l) t1 calls ->
        forall (i : nat) ok,
          results_of ip (run_checks l calls).2 !! i = Some ok ->
          ok = (Z.of_nat i <? maxRequests l)).
Proof.
  split; [|split; [|split; [|split]]].
  - intros l store calls ip r HN Hin. eapply run_remaining; eauto.
  - intros l store ip now calls Hrem.
    destruct (consumeWith_exhausts l store ip now Hrem) as (rec & Hrec & Hle).
    exists rec. split; [exact Hrec|]. intros Hin.
    eapply run_exhausted; eauto.
  - intros l store ip rec now calls HN HW Hrec Hel Hin.
    apply run_window; auto. unfold fresh. now rewrite Hrec.
  - intros l ip t1 k calls HW Hinv Hin i ok Hi.
    exact (run_checks_in_window ip t1 calls l k HW Hinv Hin i ok Hi).
  - intros l ip t1 calls HW Hstale Hin i ok Hi.
    exact (run_checks_window l ip t1 calls HW Hstale Hin i ok Hi).
Qed.

Module QuotaSamples.

(** The chat limiter after nine consumptions of [Samples.client] at
    seconds 0..8, and after the tenth at second 9. *)
Definition after_nine : gmap string ConsumptionRecord :=
  (run (rateLimiters chat) ∅ (map (fun i => (Samples.client, 1000 * Z.of_nat i)) (seq 0 9))).1.

Definition after_ten : gmap string ConsumptionRecord :=
  (consumeWith (rateLimiters chat) after_nine Samples.client 9000).1.

(** Two later calls inside the same window. *)
Definition late_calls : list (string * Z) :=
  [(Samples.client, 9500); (Samples.client, 59999)].

(** The sliding log after ten allowed checks at seconds 0..9. *)
Definition log_after_ten : SimpleRateLimiter :=
  (run_checks (simpleRateLimiters chat)
     (map (fun i => (Samples.client, 1000 * Z.of_nat i, 1000 * Z.of_nat i)) (seq 0 10))).1.

End QuotaSamples.

Lemma quota_never_negative_exhausts_and_resets_witness :
  remaining (consumeWith (rateLimiters chat) QuotaSamples.after_nine Samples.client 9000).2
    = Some 0
  /\ Forall (fun r => success r = false /\ remaining r = Some 0)
       (results_of Samples.client
          (run (rateLimiters chat) QuotaSamples.after_ten QuotaSamples.late_calls).2)
  /\ (exists r,
         results_of Samples.client
           (run (rateLimiters chat) QuotaSamples.after_ten [(Samples.client, 60000)]).2 !! 0%nat
           = Some r
         /\ expected (rateLimiters chat) 0 r)
  /\ results_of Samples.client
       (run_checks QuotaSamples.log_after_ten [(Samples.client, 59999, 59999)]).2 !! 0%nat
     = Some false.
Proof.
  destruct quota_never_negative_exhausts_and_resets
    as (_ & Hexhausted & Hreset & Hlog & _).
  assert (Hzero : remaining (consumeWith (rateLimiters chat) QuotaSamples.after_nine
                               Samples.client 9000).2 = Some 0)
    by (vm_compute; reflexivity).
  split; [exact Hzero|]. split; [|split].
  - destruct (Hexhausted (rateLimiters chat) QuotaSamples.after_nine Samples.client 9000
                QuotaSamples.late_calls Hzero) as (rec & Hrec & Hdenied).
    apply Hdenied. intros t Hin.
    assert (Hrec' : rec = {| rec_remaining := 0; rec_windowStart := 0 |}).
    { vm_compute in Hrec. now injection Hrec as <-. }
    subst rec. unfold elapsed. simpl.
    destruct Hin as [Heq|[Heq|[]]]; injection Heq as <-; reflexivity.
  - destruct (results_of Samples.client
                (run (rateLimiters chat) QuotaSamples.after_ten [(Samples.client, 60000)]).2
                !! 0%nat) as [r|] eqn:Hr; [|vm_compute in Hr; discriminate Hr].
    exists r. split; [reflexivity|]. change 0 with (Z.of_nat 0) at 1.
    apply (Hreset (rateLimiters chat) QuotaSamples.after_ten Samples.client
             {| rec_remaining := 0; rec_windowStart := 0 |} 60000 []); try exact Hr.
    + reflexivity.
    + reflexivity.
    + vm_compute. reflexivity.
    + reflexivity.
    + intros t [].
  - destruct (results_of Samples.client
                (run_checks QuotaSamples.log_after_ten [(Samples.client, 59999, 59999)]).2
                !! 0%nat) as [ok|] eqn:Hok; [|vm_compute in Hok; discriminate Hok].
    rewrite (Hlog QuotaSamples.log_after_ten Samples.client 0 10%nat
               [(Samples.client, 59999, 59999)]) with (i := 0%nat) (ok := ok).
    + reflexivity.
    + reflexivity.
    + assert (Hreqs : reqs_of QuotaSamples.log_after_ten Samples.client
                      = map (fun i => 1000 * Z.of_nat i) (seq 0 10))
        by (vm_compute; reflexivity).
      rewrite Hreqs. change (windowMs QuotaSamples.log_after_ten) with 60000.
      split; [|vm_compute; reflexivity].
      apply List.Forall_forall. intros x Hin.
      apply in_map_iff in Hin as (j & <- & Hj). apply in_seq in Hj. right. lia.
    + intros key now cleanupNow [Heq|[]]. injection Heq as _ <- <-.
      change (windowMs QuotaSamples.log_after_ten) with 60000. lia.
    + exact Hok.
Defined.

(** ** The chat schema *)

Module ChatSchemaFacts.

Import JS Next Security Schemas.

(** A well-formed message as the client sends it: an object whose [role] is
    one of the three roles and whose [content] is a string of 1 to 5000
    characters. *)
Definition valid_message (v : json) : Prop :=
  exists fields r c,
    v = JObject fields
    /\ assoc "role" fields = Some (JString r)
    /\ assoc "content" fields = Some (JString c)
    /\ In r ["user"; "assistant"; "system"]%string
    /\ (1 <= String.length c <= 5000)%nat.

(** The message object [{role, content}]. *)
Definition message_object (rc : string * string) : json :=
  JObject [("role"%string, JString (fst rc)); ("content"%string, JString (snd rc))].

(** The same message after the schema's transform. *)
Definition sanitized (rc : string * string) : ChatMessage :=
  {| role := fst rc; content := sanitizeText (snd rc) |}.

Lemma parseChatMessage_valid v :
  valid_message v -> exists msg, parseChatMessage v = Some msg.
Proof.
  intros (fields & r & c & -> & Hr & Hc & Hin & Hlen).
  unfold parseChatMessage. rewrite Hr, Hc.
  assert (Hrole : existsb (String.eqb r) ["user"; "assistant"; "system"]%string = true).
  { apply existsb_exists. exists r. split; [exact Hin | apply String.eqb_refl]. }
  rewrite Hrole. unfold length_between.
  destruct (Z.leb_spec 1 (Z.of_nat (String.length c))); [|lia].
  destruct (Z.leb_spec (Z.of_nat (String.length c)) 5000); [|lia].
  simpl. eauto.
Qed.

Lemma parseAll_valid l :
  Forall valid_message l ->
  exists messages, parseAll l = Some messages /\ length messages = length l.
Proof.
  induction 1 as [|v l Hv _ (messages & IH & Hlen)]; [exists []; auto|].
  destruct (parseChatMessage_valid v Hv) as (msg & Hmsg).
  exists (msg :: messages). simpl. rewrite Hmsg, IH. split; [reflexivity | simpl; congruence].
Qed.

(** The JSON value [v] is a message object with role and raw content [rc]. *)
Definition carries (v : json) (rc : string * string) : Prop :=
  exists fields,
    v = JObject fields
    /\ assoc "role" fields = Some (JString (fst rc))
    /\ assoc "content" fields = Some (JString (snd rc)).

(** Role and raw content that the schema accepts. *)
Definition acceptable (rc : string * string) : Prop :=
  In (fst rc) ["user"; "assistant"; "system"]%string
  /\ (1 <= String.length (snd rc) <= 5000)%nat.

Lemma parseChatMessage_carries v rc :
  carries v rc -> acceptable rc -> parseChatMessage v = Some (sanitized rc).
Proof.
  intros (fields & -> & Hr & Hc) [Hin Hlen]. destruct rc as [r c].
  cbn [fst snd] in Hr, Hc, Hin, Hlen.
  unfold parseChatMessage, sanitized. cbn [fst snd]. rewrite Hr, Hc.
  assert (Hrole : existsb (String.eqb r) ["user"; "assistant"; "system"]%string = true).
  { apply existsb_exists. exists r. split; [exact Hin | apply String.eqb_refl]. }
  rewrite Hrole. unfold length_between.
  destruct (Z.leb_spec 1 (Z.of_nat (String.length c))); [|lia].
  destruct (Z.leb_spec (Z.of_nat (String.length c)) 5000); [|lia].
  reflexivity.
Qed.

Lemma parseAll_carries l rcs :
  Forall2 carries l rcs -> Forall acceptable rcs ->
  parseAll l = Some (map sanitized rcs).
Proof.
  induction 1 as [|v rc l rcs Hv _ IH]; intros Hacc; [reflexivity|].
  inversion Hacc as [|? ? Hrc Hrest]; subst.
  cbn [map parseAll]. rewrite (parseChatMessage_carries v rc Hv Hrc), (IH Hrest). reflexivity.
Qed.

(** The request body [{messages: [{role, content}, ...]}]. *)
Definition body_of (rcs : list (string * string)) : json :=
  JObject [("messages"%string, JArray (map message_object rcs))].

Lemma message_object_carries rc : carries (message_object rc) rc.
Proof. exists [("role"%string, JString (fst rc)); ("content"%string, JString (snd rc))]. auto. Qed.

Lemma body_of_parse rcs :
  (1 <= length rcs <= 50)%nat -> Forall acceptable rcs ->
  chatMessageSchema_safeParse (body_of rcs) = Some (map sanitized rcs).
Proof.
  intros Hlen Hacc. unfold chatMessageSchema_safeParse, body_of.
  cbn [assoc String.eqb Ascii.eqb Bool.eqb]. rewrite length_map.
  destruct (Z.leb_spec 1 (Z.of_nat (length rcs))); [|lia].
  destruct (Z.leb_spec (Z.of_nat (length rcs)) 50); [|lia]. simpl.
  apply parseAll_carries; [|exact Hacc].
  clear. induction rcs as [|rc rcs IH]; constructor; [apply message_object_carries | exact IH].
Qed.

End ChatSchemaFacts.

Import ChatSchemaFacts.

(** C6.  The count bounds are those of the schema, and the handler as
    shipped never consults it.  [chatMessageSchema] fails on a [messages]
    array of length 0 and on one of length 51, and accepts an array of
    exactly 50 messages that each have a valid role and a content of 1 to
    5000 characters, yielding 50 messages.  The chat handler answers every
    request, whatever its body, from its [catch] block: status 500 with
    [Internal server error], not 400, since [rateLimit] throws before the
    body is read. *)
Theorem chat_count_bounds_hold_in_the_schema_only :
  (forall fields l,
      JS.assoc "messages" fields = Some (JS.JArray l) ->
      (length l = 0 \/ length l = 51)%nat ->
      Schemas.chatMessageSchema_safeParse (JS.JObject fields) = None)
  /\ (forall fields l,
        JS.assoc "messages" fields = Some (JS.JArray l) ->
        length l = 50%nat ->
        Forall valid_message l ->
        exists messages,
          Schemas.chatMessageSchema_safeParse (JS.JObject fields) = Some messages
          /\ length messages = 50%nat)
  /\ (forall d st now req,
        ChatRoute.POST d st now req
        = (st, [("Chat API error:"%string, ["NextRequest is not defined"%string])],
           {| status := 500;
              body := JS.JObject [("error"%string, JS.JString "Internal server error")];
              headers := [] |})).
Proof.
  split; [|split].
  - intros fields l Hmsgs Hlen. simpl. rewrite Hmsgs.
    destruct Hlen as [-> | ->]; reflexivity.
  - intros fields l Hmsgs Hlen Hvalid.
    destruct (parseAll_valid l Hvalid) as (messages & Hparse & Hcount).
    exists messages. split; [|congruence].
    simpl. rewrite Hmsgs, Hlen. exact Hparse.
  - intros d st now req. apply HandlerFacts.chat_POST_caught.
Qed.

Module ChatSamples.

Import JS Next.

Definition request_with (body : json) : NextRequest :=
  {| url := "https://site.example/api/chat";
     origin := "https://site.example";
     pathname := "/api/chat";
     x_forwarded_for := Some Samples.client;
     x_real_ip := None;
     req_json := Some body |}.

Definition hello : json := message_object ("user", "hello")%string.

Definition messages_body (n : nat) : json :=
  JObject [("messages"%string, JArray (repeat hello n))].

End ChatSamples.

Lemma chat_count_bounds_hold_in_the_schema_only_witness :
  Schemas.chatMessageSchema_safeParse (ChatSamples.messages_body 0) = None
  /\ Schemas.chatMessageSchema_safeParse (ChatSamples.messages_body 51) = None
  /\ (exists messages,
         Schemas.chatMessageSchema_safeParse (ChatSamples.messages_body 50) = Some messages
         /\ length messages = 50%nat)
  /\ status (ChatRoute.POST Samples.local_deps empty_state 0
               (ChatSamples.request_with (ChatSamples.messages_body 0))).2 = 500.
Proof.
  destruct chat_count_bounds_hold_in_the_schema_only as (Hreject & Haccept & Hhandler).
  split; [|split; [|split]].
  - apply (Hreject [("messages"%string, JS.JArray (repeat ChatSamples.hello 0))]
             (repeat ChatSamples.hello 0)); [reflexivity|]. left. reflexivity.
  - apply (Hreject [("messages"%string, JS.JArray (repeat ChatSamples.hello 51))]
             (repeat ChatSamples.hello 51)); [reflexivity|]. right. reflexivity.
  - apply (Haccept [("messages"%string, JS.JArray (repeat ChatSamples.hello 50))]
             (repeat ChatSamples.hello 50)); [reflexivity | reflexivity |].
    apply List.Forall_forall. intros v Hv. apply repeat_spec in Hv as ->.
    exists [("role"%string, JS.JString "user"); ("content"%string, JS.JString "hello")],
           "user"%string, "hello"%string.
    repeat split; try reflexivity; simpl; auto; lia.
  - rewrite Hhandler. reflexivity.
Defined.

(** C10.  The schema hands out sanitized content, and the handler as
    shipped never looks at it.  For a body of 1 to 50 messages with valid
    roles and contents of 1 to 5000 characters, [chatMessageSchema] yields
    the messages with each content replaced by its [sanitizeText], and these
    are what the two heuristics of the handler would read.  The raw text
    [<script>alert(1)</script>hello] is flagged by [containsXss]; the text
    [hello] is flagged by neither heuristic.  The chat handler answers every
    request from its [catch] block with status 500, whatever the contents:
    neither the schema nor a heuristic runs, since [rateLimit] throws before
    the body is read. *)
Theorem heuristics_are_not_reached :
  (forall fields l rcs,
      JS.assoc "messages" fields = Some (JS.JArray l) ->
      (1 <= length l <= 50)%nat ->
      Forall2 carries l rcs -> Forall acceptable rcs ->
      Schemas.chatMessageSchema_safeParse (JS.JObject fields) = Some (map sanitized rcs))
  /\ Security.containsXss "<script>alert(1)</script>hello" = true
  /\ Security.containsXss "hello" = false
  /\ Security.containsSqlInjection "hello" = false
  /\ (forall d st now req,
        ChatRoute.POST d st now req
        = (st, [("Chat API error:"%string, ["NextRequest is not defined"%string])],
           {| status := 500;
              body := JS.JObject [("error"%string, JS.JString "Internal server error")];
              headers := [] |})).
Proof.
  split; [|split; [|split; [|split]]].
  - intros fields l rcs Hmsgs Hlen Hcarries Hacc. simpl. rewrite Hmsgs.
    destruct (Z.leb_spec 1 (Z.of_nat (length l))); [|lia].
    destruct (Z.leb_spec (Z.of_nat (length l)) 50); [|lia].
    simpl. now apply parseAll_carries.
  - vm_compute. reflexivity.
  - vm_compute. reflexivity.
  - vm_compute. reflexivity.
  - intros d st now req. apply HandlerFacts.chat_POST_caught.
Qed.

Lemma heuristics_are_not_reached_witness :
  Schemas.chatMessageSchema_safeParse
    (body_of [("user", "<script>alert(1)</script>hello")]%string)
  = Some [sanitized ("user", "<script>alert(1)</script>hello")%string]
  /\ status (ChatRoute.POST Samples.local_deps empty_state 0
               (ChatSamples.request_with
                  (body_of [("user", "<script>alert(1)</script>hello")]%string))).2 = 500.
Proof.
  destruct heuristics_are_not_reached as (Hschema & _ & _ & _ & Hhandler).
  split.
  - apply (Hschema
             [("messages"%string,
               JS.JArray [message_object ("user", "<script>alert(1)</script>hello")%string])]
             [message_object ("user", "<script>alert(1)</script>hello")%string]
             [("user", "<script>alert(1)</script>hello")%string]).
    + reflexivity.
    + simpl. lia.
    + constructor; [apply message_object_carries | constructor].
    + constructor; [|constructor]. split; [simpl; auto | simpl; lia].
  - rewrite Hhandler. reflexivity.
Defined.

(** ** Error responses *)


(** ** Admission middleware *)

Module MiddlewareFacts.

Import JS Next Middleware.

(** Two literal prefixes can both match one path only if one of them
    matches the beginning of the other. *)
Fixpoint compatible (p q : string) : bool :=
  match p, q with
  | String a p', String b q' =>
      Ascii.eqb (canonicalize a) (canonicalize b) && compatible p' q'
  | _, _ => true
  end.

Lemma prefix_ci_compatible p q s :
  prefix_ci p s = true -> prefix_ci q s = true -> compatible p q = true.
Proof.
  revert p q. induction s as [|c s IH]; intros [|a p] [|b q]; simpl; try reflexivity;
    try discriminate.
  intros Hp Hq. apply andb_true_iff in Hp as [Ha Hp]. apply andb_true_iff in Hq as [Hb Hq].
  apply Ascii.eqb_eq in Ha, Hb. rewrite Ha, Hb, Ascii.eqb_refl. simpl. now apply IH.
Qed.

Lemma exact_ci_prefix p s : exact_ci p s = true -> prefix_ci p s = true.
Proof.
  revert s. induction p as [|a p IH]; intros [|b s]; simpl; try reflexivity; try discriminate.
  intros H. apply andb_true_iff in H as [Ha H]. rewrite Ha. simpl. now apply IH.
Qed.

Lemma exact_ci_length p s :
  exact_ci p s = true -> (String.length s <= String.length p + 1)%nat.
Proof.
  revert s. induction p as [|a p IH]; intros [|b s]; simpl; try lia; try discriminate.
  - destruct s; simpl; [lia | discriminate].
  - intros H. apply andb_true_iff in H as [_ H]. apply IH in H. lia.
Qed.

Lemma prefix_ci_length p s :
  prefix_ci p s = true -> (String.length p <= String.length s)%nat.
Proof.
  revert s. induction p as [|a p IH]; intros [|b s]; simpl; try lia; try discriminate.
  intros H. apply andb_true_iff in H as [_ H]. apply IH in H. lia.
Qed.

Lemma isAdminRoute_patterns req :
  isAdminRoute req
  = prefix_ci "/admin" (pathname req) || (prefix_ci "/api/admin" (pathname req) || false).
Proof. reflexivity. Qed.

Lemma isPublicRoute_patterns req :
  isPublicRoute req
  = exact_ci "/" (pathname req)
    || (prefix_ci "/sign-in" (pathname req)
    || (prefix_ci "/sign-up" (pathname req)
    || (prefix_ci "/api/public" (pathname req)
    || (exact_ci "/mcp-security" (pathname req)
    || (prefix_ci "/security" (pathname req)
    || (prefix_ci "/mcp-integration" (pathname req) || false)))))).
Proof. reflexivity. Qed.

(** Refute a public pattern for a path that matches the admin prefix [Ha]. *)
Ltac refute_pattern Ha :=
  match goal with
  | |- prefix_ci ?q ?s = false =>
      let Hq := fresh "Hq" in
      destruct (prefix_ci q s) eqn:Hq; [|reflexivity];
      let Hc := fresh "Hc" in
      pose proof (prefix_ci_compatible _ _ _ Ha Hq) as Hc;
      vm_compute in Hc; discriminate Hc
  | |- exact_ci ?q ?s = false =>
      let Hq := fresh "Hq" in
      destruct (exact_ci q s) eqn:Hq; [|reflexivity];
      first
        [ let Hc := fresh "Hc" in
          pose proof (prefix_ci_compatible _ _ _ Ha (exact_ci_prefix _ _ Hq)) as Hc;
          vm_compute in Hc; discriminate Hc
        | apply exact_ci_length in Hq; apply prefix_ci_length in Ha;
          simpl in Hq, Ha; lia ]
  end.

(** No admin path is a public path. *)
Lemma admin_not_public req : isAdminRoute req = true -> isPublicRoute req = false.
Proof.
  rewrite isAdminRoute_patterns, isPublicRoute_patterns. intros Hadmin.
  apply orb_true_iff in Hadmin as [Ha|Ha];
    [|apply orb_true_iff in Ha as [Ha|Ha]; [|discriminate Ha]];
    repeat (apply orb_false_iff; split); try reflexivity; refute_pattern Ha.
Qed.

(** The role the middleware compares: the role claim, ["viewer"] when the
    claim is absent, in lower case. *)
Definition effective_role (auth : Auth) : string :=
  toLowerCase (or_default (publicMetadata_role auth) "viewer").

Definition admin_page : NextRequest :=
  {| url := "https://site.example/admin/x";
     origin := "https://site.example";
     pathname := "/admin/x";
     x_forwarded_for := None;
     x_real_ip := None;
     req_json := None |}.

Definition user_with_role (role : option string) : Auth :=
  {| userId := Some "user_1"%string; publicMetadata_role := role |}.

Definition anonymous : Auth :=
  {| userId := None; publicMetadata_role := None |}.

End MiddlewareFacts.

Import MiddlewareFacts.

(** C3.  For every request whose path matches an admin route: when no
    identity is resolved the middleware redirects to the sign-in page with
    the original URL as [redirect_url]; when an identity is resolved, its
    role claim (["viewer"] when absent) is compared with ["admin"] ignoring
    letter case, the request is admitted on a match and redirected to the
    landing page [/portfolio] otherwise.  On [/admin/x], role ["Admin"] is
    admitted, role ["editor"] and an absent role are redirected to
    [/portfolio]. *)
Theorem admin_route_admission :
  (forall production auth req,
      Middleware.isAdminRoute req = true ->
      (JS.truthy (Middleware.userId auth) = false ->
       Middleware.middleware production auth req
       = Middleware.NextResponse_redirect
           {| Middleware.url_origin := origin req;
              Middleware.url_pathname := "/sign-in";
              Middleware.searchParams := [("redirect_url"%string, url req)] |})
      /\ (JS.truthy (Middleware.userId auth) = true ->
          effective_role auth = "admin"%string ->
          Middleware.resp_kind (Middleware.middleware production auth req) = Middleware.Next)
      /\ (JS.truthy (Middleware.userId auth) = true ->
          effective_role auth <> "admin"%string ->
          Middleware.middleware production auth req
          = Middleware.NextResponse_redirect
              {| Middleware.url_origin := origin req;
                 Middleware.url_pathname := "/portfolio";
                 Middleware.searchParams := [] |}))
  /\ Middleware.isAdminRoute admin_page = true
  /\ Middleware.resp_kind (Middleware.middleware true (user_with_role (Some "Admin"%string)) admin_page)
     = Middleware.Next
  /\ Middleware.resp_kind (Middleware.middleware true (user_with_role (Some "editor"%string)) admin_page)
     = Middleware.Redirect
         {| Middleware.url_origin := "https://site.example";
            Middleware.url_pathname := "/portfolio";
            Middleware.searchParams := [] |}
  /\ Middleware.resp_kind (Middleware.middleware true (user_with_role None) admin_page)
     = Middleware.Redirect
         {| Middleware.url_origin := "https://site.example";
            Middleware.url_pathname := "/portfolio";
            Middleware.searchParams := [] |}.
Proof.
  split; [|repeat split; vm_compute; reflexivity].
  intros production auth req Hadmin.
  unfold Middleware.middleware, Middleware.adminBlock.
  rewrite (admin_not_public req Hadmin), Hadmin.
  fold (effective_role auth).
  split; [|split].
  - intros Hid. rewrite Hid. reflexivity.
  - intros Hid Hrole. rewrite Hid, Hrole. simpl. rewrite andb_false_r. reflexivity.
  - intros Hid Hrole. rewrite Hid. simpl.
    destruct (String.eqb_spec (effective_role auth) "admin"); [contradiction | reflexivity].
Qed.

Lemma admin_route_admission_witness :
  Middleware.middleware true anonymous admin_page
  = Middleware.NextResponse_redirect
      {| Middleware.url_origin := "https://site.example";
         Middleware.url_pathname := "/sign-in";
         Middleware.searchParams :=
           [("redirect_url"%string, "https://site.example/admin/x"%string)] |}
  /\ Middleware.resp_kind
       (Middleware.middleware true (user_with_role (Some "ADMIN"%string)) admin_page)
     = Middleware.Next.
Proof.
  destruct admin_route_admission as (Hgeneral & Hpage & _).
  destruct (Hgeneral true anonymous admin_page Hpage) as (Hanon & _ & _).
  destruct (Hgeneral true (user_with_role (Some "ADMIN"%string)) admin_page Hpage)
    as (_ & Hadmit & _).
  split.
  - apply Hanon. reflexivity.
  - apply Hadmit; reflexivity.
Defined.

(** ** The honeypot of the contact handler *)

Module ContactFacts.

Import JS Next RateLimit Security Schemas ContactRoute.

(** The string has a character that is not white space. *)
Definition has_visible (s : string) : bool :=
  existsb (fun c => negb (is_space c)) (list_ascii_of_string s).

(** The string consists of white space only. *)
Definition all_space (s : string) : bool :=
  forallb is_space (list_ascii_of_string s).

Lemma trimStart_visible s : has_visible s = true -> has_visible (trimStart s) = true.
Proof.
  unfold has_visible. induction s as [|c s IH]; simpl; [discriminate|].
  destruct (is_space c) eqn:Hc; simpl; [exact IH|]. now rewrite Hc.
Qed.

Lemma trimEnd_visible s : has_visible s = true -> trimEnd s <> EmptyString.
Proof.
  unfold has_visible. induction s as [|c s IH]; simpl; [discriminate|].
  intros H. apply orb_true_iff in H as [Hc|Hs].
  - apply negb_true_iff in Hc. rewrite Hc. destruct (trimEnd s); discriminate.
  - specialize (IH Hs). destruct (trimEnd s); [contradiction | discriminate].
Qed.

Lemma trim_visible s : has_visible s = true -> trim s <> EmptyString.
Proof. intros H. apply trimEnd_visible, trimStart_visible, H. Qed.

Lemma trim_all_space s : all_space s = true -> trim s = EmptyString.
Proof.
  unfold all_space, trim. intros H.
  assert (Hstart : trimStart s = EmptyString).
  { induction s as [|c s IH]; [reflexivity|]. simpl in *.
    apply andb_true_iff in H as [Hc Hs]. rewrite Hc. now apply IH. }
  now rewrite Hstart.
Qed.

(** The honeypot test on a body whose [website] is the string [website]. *)
Lemma honeypot_string fields website :
  assoc "website" fields = Some (JString website) ->
  honeypot (JObject fields)
  = Some (match trim website with EmptyString => false | _ => true end).
Proof.
  intros H. unfold honeypot. rewrite H. destruct (trim website); reflexivity.
Qed.

(** A stand-in for zod's email pattern and issue texts. *)
Definition sample_zod : Zod :=
  {| email_ok := fun s => RegExp.test emailRegex s;
     issue_message := fun issue =>
       match issue with
       | invalid_type _ => "Required"
       | too_small _ _ => "Too short"
       | too_big _ _ => "Too long"
       | invalid_email _ => "Invalid email"
       end%string |}.

Definition request_with (body : json) : NextRequest :=
  {| url := "https://site.example/api/contact";
     origin := "https://site.example";
     pathname := "/api/contact";
     x_forwarded_for := Some Samples.client;
     x_real_ip := None;
     req_json := Some body |}.

(** A bot's submission: the hidden field is filled in, nothing else is. *)
Definition bot_submission : json :=
  JObject [("website"%string, JString "https://spam.example")].

End ContactFacts.

Import ContactFacts.

(** C4.  A honeypot hit is not answered with [{ok: true}] by the code as
    shipped.  For every contact submission whose [website] field is a
    string with a character that is not white space, the test of the
    honeypot branch is true of the body; but the handler never reads the
    body: [rateLimit] throws first, and the response comes from the [catch]
    block, status 500 with [Unexpected error. Please try again later.], and
    the error is logged. *)
Theorem honeypot_hit_is_answered_500 :
  forall z timestamp st now req fields website,
    req_json req = Some (JS.JObject fields) ->
    JS.assoc "website" fields = Some (JS.JString website) ->
    has_visible website = true ->
    ContactRoute.honeypot (JS.JObject fields) = Some true
    /\ ContactRoute.POST z timestamp st now req
       = (st, [("Contact API error:"%string, ["NextRequest is not defined"%string])],
          {| status := 500;
             body := JS.JObject [("message"%string,
                                  JS.JString "Unexpected error. Please try again later.")];
             headers := [] |})
    /\ (ContactRoute.POST z timestamp st now req).2
       <> ContactRoute.ok_json (headers (ContactRoute.POST z timestamp st now req).2).
Proof.
  intros z timestamp st now req fields website Hbody Hweb Hvis.
  split; [|split].
  - rewrite (honeypot_string fields website Hweb).
    pose proof (trim_visible website Hvis) as Hne.
    destruct (JS.trim website); [contradiction | reflexivity].
  - apply HandlerFacts.contact_POST_caught.
  - rewrite HandlerFacts.contact_POST_caught. discriminate.
Qed.

Lemma honeypot_hit_is_answered_500_witness :
  ContactRoute.honeypot bot_submission = Some true
  /\ status (ContactRoute.POST sample_zod "2025-11-14T00:00:00.000Z" empty_state 0
               (ContactFacts.request_with bot_submission)).2 = 500.
Proof.
  destruct (honeypot_hit_is_answered_500 sample_zod "2025-11-14T00:00:00.000Z" empty_state 0
              (ContactFacts.request_with bot_submission)
              [("website"%string, JS.JString "https://spam.example")]
              "https://spam.example") as (Hpot & Hpost & _); try reflexivity.
  split; [exact Hpot|]. rewrite Hpost. reflexivity.
Defined.

(** C9.  A submission whose [website] is a non-empty string of white space
    only is not a honeypot hit, but the code as shipped does not process it
    either.  The test of the honeypot branch trims the field and is false of
    such a body, so the branch would not be taken; the handler, however,
    never reads the body: [rateLimit] throws first, no validation and no
    processing takes place, nothing but the error is logged, and the
    response is status 500 with [Unexpected error. Please try again
    later.]. *)
Theorem blank_website_is_answered_500 :
  forall z timestamp st now req fields website,
    req_json req = Some (JS.JObject fields) ->
    JS.assoc "website" fields = Some (JS.JString website) ->
    website <> EmptyString ->
    all_space website = true ->
    ContactRoute.honeypot (JS.JObject fields) = Some false
    /\ ContactRoute.POST z timestamp st now req
       = (st, [("Contact API error:"%string, ["NextRequest is not defined"%string])],
          {| status := 500;
             body := JS.JObject [("message"%string,
                                  JS.JString "Unexpected error. Please try again later.")];
             headers := [] |}).
Proof.
  intros z timestamp st now req fields website Hbody Hweb Hne Hspace.
  split.
  - rewrite (honeypot_string fields website Hweb), (trim_all_space website Hspace).
    reflexivity.
  - apply HandlerFacts.contact_POST_caught.
Qed.

Module ContactSamples.

Import JS Schemas.

(** A genuine submission whose hidden field holds two blanks. *)
Definition fields : list (string * json) :=
  [ ("name", JString "Ann");
    ("email", JString "Ann@Example.com");
    ("message", JString "Hello there, I like your portfolio.");
    ("website", JString "  ") ]%string.

End ContactSamples.

Lemma blank_website_is_answered_500_witness :
  ContactRoute.honeypot (JS.JObject ContactSamples.fields) = Some false
  /\ status (ContactRoute.POST sample_zod "2025-11-14T00:00:00.000Z" empty_state 0
               (ContactFacts.request_with (JS.JObject ContactSamples.fields))).2 = 500.
Proof.
  destruct (blank_website_is_answered_500 sample_zod "2025-11-14T00:00:00.000Z" empty_state 0
              (ContactFacts.request_with (JS.JObject ContactSamples.fields))
              ContactSamples.fields "  ") as (Hpot & Hpost); try reflexivity.
  - discriminate.
  - split; [exact Hpot|]. rewrite Hpost. reflexivity.
Defined.

Import SlidingLogFacts.

(** The sliding-window log over any span.  Whatever state
    [SimpleRateLimiter] starts from and however the calls of different
    clients interleave, as long as the clock does not run backwards: for
    each allowed call of a client, at most [maxRequests] of its allowed
    calls (that one included) lie less than [windowMs] before it.  Hence no
    span shorter than the window holds more than [maxRequests] allowed
    calls of one client. *)
Theorem sliding_log_quota_over_any_span :
  forall l ip t0 calls,
    clock_from t0 calls ->
    at_most_per_window (maxRequests l) (windowMs l) (allowed_times l ip calls).
Proof.
  intros l ip t0 calls Hclock.
  apply (allowed_times_bounded ip calls l t0 [] Hclock).
  - intros T _. simpl. lia.
  - intros j x Hj. destruct j; discriminate Hj.
Qed.

Lemma sliding_log_quota_over_any_span_witness :
  clock_from 0 Samples.ten_checks
  /\ at_most_per_window 10 60000
       (allowed_times (simpleRateLimiters chat) Samples.client Samples.ten_checks).
Proof.
  assert (Hclock : clock_from 0 Samples.ten_checks).
  { vm_compute. repeat split; discriminate. }
  split; [exact Hclock|].
  exact (sliding_log_quota_over_any_span (simpleRateLimiters chat) Samples.client 0
           Samples.ten_checks Hclock).
Defined.

(* ================================================================== *)
(** * Further properties of the code *)
(* ================================================================== *)

(** ** SimpleRateLimiter: cleanup, memory and client isolation *)

Module SimpleRateLimiterMore.

Import RateLimit RateLimitFacts SimpleRateLimiterFacts SlidingLogFacts.

(** The calls of client [ip] among a list of calls. *)
Definition calls_by (ip : string) (calls : list (string * Z * Z)) : list (string * Z * Z) :=
  List.filter (fun c => String.eqb c.1.1 ip) calls.

(** No stored log is longer than the quota. *)
Definition logs_bounded (l : SimpleRateLimiter) : Prop :=
  forall key reqs, requests l !! key = Some reqs -> Z.of_nat (length reqs) <= maxRequests l.

Lemma validAt_length W now reqs : (length (validAt W now reqs) <= length reqs)%nat.
Proof. apply List.filter_length_le. Qed.

Lemma validAt_all W now reqs : Forall (fun x => now - x < W) (validAt W now reqs).
Proof.
  apply List.Forall_forall. intros x Hx. apply List.filter_In in Hx as [_ Hx].
  now apply Z.ltb_lt in Hx.
Qed.

Lemma cleanup_lookup l now key :
  requests (cleanup l now) !! key
  = match requests l !! key with
    | Some reqs =>
        match validAt (windowMs l) now reqs with
        | [] => None
        | validRequests => Some validRequests
        end
    | None => None
    end.
Proof.
  unfold cleanup. cbn [requests]. rewrite lookup_omap.
  destruct (requests l !! key); reflexivity.
Qed.

Lemma cleanup_bounded l now : logs_bounded l -> logs_bounded (cleanup l now).
Proof.
  intros Hb key reqs Hkey. rewrite cleanup_lookup in Hkey.
  destruct (requests l !! key) as [reqs0|] eqn:H0; [|discriminate].
  pose proof (validAt_length (windowMs l) now reqs0) as Hlen.
  specialize (Hb key reqs0 H0). change (maxRequests (cleanup l now)) with (maxRequests l).
  destruct (validAt (windowMs l) now reqs0) eqn:Hv; [discriminate|].
  injection Hkey as <-. lia.
Qed.

Lemma check_bounded l key now cleanupNow :
  logs_bounded l -> logs_bounded (check l key now cleanupNow).1.
Proof.
  intros Hb. unfold check. fold (reqs_of l key).
  destruct (Z.leb_spec (maxRequests l)
              (Z.of_nat (length (validAt (windowMs l) now (reqs_of l key))))) as [|Hroom];
    [exact Hb|].
  match goal with |- context [cleanup ?x _] => set (l' := x) end.
  assert (Hb' : logs_bounded l').
  { intros k reqs Hk. unfold l' in Hk. cbn [requests maxRequests] in *.
    destruct (decide (key = k)) as [->|Hne].
    - rewrite lookup_insert_eq in Hk. injection Hk as <-.
      rewrite length_app. simpl. lia.
    - rewrite lookup_insert_ne in Hk by exact Hne. now apply (Hb k). }
  destruct (10000 <? _); cbn [fst]; [now apply cleanup_bounded | exact Hb'].
Qed.

Lemma run_checks_bounded calls :
  forall l, logs_bounded l -> logs_bounded (run_checks l calls).1.
Proof.
  induction calls as [|[[key now] cleanupNow] rest IH]; intros l Hb; [exact Hb|].
  rewrite run_checks_cons. cbn [fst]. apply IH. now apply check_bounded.
Qed.

(** The decision of [check] depends on the log only through its stamps
    that are still valid. *)
Lemma check_decision l key now cleanupNow :
  (check l key now cleanupNow).2
  = negb (maxRequests l <=? Z.of_nat (length (validAt (windowMs l) now (reqs_of l key)))).
Proof.
  unfold check. fold (reqs_of l key).
  destruct (maxRequests l <=? _); [reflexivity|].
  destruct (10000 <? _); reflexivity.
Qed.

(** Two limiters that agree, from [t0] on, on the valid stamps of [ip]. *)
Definition same_view (ip : string) (t0 : Z) (l1 l2 : SimpleRateLimiter) : Prop :=
  maxRequests l1 = maxRequests l2 /\ windowMs l1 = windowMs l2
  /\ forall T, t0 <= T ->
       validAt (windowMs l1) T (reqs_of l1 ip) = validAt (windowMs l1) T (reqs_of l2 ip).

Lemma clock_from_calls_by ip calls :
  forall t0, clock_from t0 calls -> clock_from t0 (calls_by ip calls).
Proof.
  induction calls as [|[[key now] cleanupNow] rest IH]; intros t0 Hc; [exact I|].
  destruct Hc as (H0 & H1 & Hrest). unfold calls_by. cbn [List.filter fst].
  assert (Hweak : forall t t' cs, t <= t' -> clock_from t' cs -> clock_from t cs).
  { intros t t' [|[[k n] c] cs] Hle; [intros; exact I|].
    intros (Ha & Hb & Hc'). repeat split; try assumption. lia. }
  destruct (String.eqb key ip).
  - repeat split; try assumption. now apply IH.
  - apply (Hweak t0 cleanupNow); [lia | now apply IH].
Qed.

Lemma run_checks_isolated ip :
  forall calls l1 l2 t0,
    clock_from t0 calls -> same_view ip t0 l1 l2 ->
    results_of ip (run_checks l1 calls).2
    = results_of ip (run_checks l2 (calls_by ip calls)).2.
Proof.
  induction calls as [|[[key now] cleanupNow] rest IH]; intros l1 l2 t0 Hclock Hview;
    [reflexivity|].
  destruct Hclock as (H0 & H1 & Hrest). destruct Hview as (HN & HW & Hsame).
  rewrite run_checks_cons. unfold calls_by. cbn [snd fst results_of List.filter].
  destruct (check_policy l1 key now cleanupNow) as [HN1 HW1].
  destruct (String.eqb_spec key ip) as [->|Hne].
  - rewrite run_checks_cons. cbn [snd fst results_of]. rewrite String.eqb_refl.
    destruct (check_policy l2 ip now cleanupNow) as [HN2 HW2].
    assert (Hdec : (check l1 ip now cleanupNow).2 = (check l2 ip now cleanupNow).2).
    { rewrite !check_decision, <- HN, <- HW, (Hsame now H0). reflexivity. }
    f_equal; [exact Hdec|]. apply (IH _ _ cleanupNow Hrest).
    split; [congruence|]. split; [congruence|]. intros T HT.
    rewrite HW1.
    rewrite (check_valid_later l1 ip now cleanupNow ip T H1 HT).
    rewrite HW. rewrite (check_valid_later l2 ip now cleanupNow ip T H1 HT).
    rewrite <- HW, Hdec, (Hsame T ltac:(lia)). reflexivity.
  - apply (IH _ _ cleanupNow Hrest).
    split; [congruence|]. split; [congruence|]. intros T HT.
    rewrite HW1.
    rewrite (check_valid_later l1 key now cleanupNow ip T H1 HT).
    apply String.eqb_neq in Hne. rewrite Hne, app_nil_r. apply Hsame. lia.
Qed.

End SimpleRateLimiterMore.

Import SimpleRateLimiterMore.

(** X2.  Client isolation of [SimpleRateLimiter].  As long as the clock does
    not run backwards, the answers a client gets do not depend on the calls
    of other clients, not even on the cleanups those calls trigger: they are
    the answers the client would get if it were alone. *)
Theorem simple_limiter_isolates_clients :
  forall l ip t0 calls,
    clock_from t0 calls ->
    results_of ip (run_checks l calls).2
    = results_of ip (run_checks l (calls_by ip calls)).2.
Proof.
  intros l ip t0 calls Hclock.
  apply (run_checks_isolated ip calls l l t0 Hclock).
  split; [reflexivity|]. split; [reflexivity|]. reflexivity.
Qed.

Module IsolationSamples.

(** Two clients calling in turn, one call per second. *)
Definition mixed_calls : list (string * Z * Z) :=
  map (fun i => (if Nat.even i then Samples.client else "198.51.100.9"%string,
                 1000 * Z.of_nat i, 1000 * Z.of_nat i)) (seq 0 24).

(** The chat limiter after those calls. *)
Definition log_after_calls : RateLimit.SimpleRateLimiter :=
  (run_checks (RateLimit.simpleRateLimiters RateLimit.chat) mixed_calls).1.

End IsolationSamples.

Lemma simple_limiter_isolates_clients_witness :
  clock_from 0 IsolationSamples.mixed_calls
  /\ results_of Samples.client
       (run_checks (simpleRateLimiters chat) IsolationSamples.mixed_calls).2
     = results_of Samples.client
         (run_checks (simpleRateLimiters chat)
            (calls_by Samples.client IsolationSamples.mixed_calls)).2.
Proof.
  assert (Hclock : clock_from 0 IsolationSamples.mixed_calls).
  { vm_compute. repeat split; discriminate. }
  split; [exact Hclock|].
  exact (simple_limiter_isolates_clients (simpleRateLimiters chat) Samples.client 0
           IsolationSamples.mixed_calls Hclock).
Defined.

(** X3.  [cleanup] is transparent and thorough.  After a cleanup at time
    [now] every client left in the map has a non-empty log of stamps that
    are valid at [now], taken from its previous log; and no later [check]
    (at a time not before the cleanup) answers differently because the
    cleanup ran. *)
Theorem cleanup_keeps_only_valid_and_changes_no_decision :
  forall l now,
    (forall key reqs,
        requests (cleanup l now) !! key = Some reqs ->
        reqs <> []
        /\ Forall (fun x => now - x < windowMs l) reqs
        /\ exists previous, requests l !! key = Some previous
                            /\ reqs = validAt (windowMs l) now previous)
    /\ (forall key later cleanupNow,
           now <= later ->
           (check (cleanup l now) key later cleanupNow).2 = (check l key later cleanupNow).2).
Proof.
  intros l now. split.
  - intros key reqs Hkey. rewrite cleanup_lookup in Hkey.
    destruct (requests l !! key) as [previous|]; [|discriminate].
    pose proof (validAt_all (windowMs l) now previous) as Hall.
    destruct (validAt (windowMs l) now previous) eqn:Hv; [discriminate|].
    injection Hkey as <-. split; [discriminate|]. split; [exact Hall|]. eauto.
  - intros key later cleanupNow Hlater. rewrite !check_decision.
    rewrite reqs_of_cleanup. change (windowMs (cleanup l now)) with (windowMs l).
    change (maxRequests (cleanup l now)) with (maxRequests l).
    now rewrite validAt_later.
Qed.

Lemma cleanup_keeps_only_valid_and_changes_no_decision_witness :
  (check (cleanup IsolationSamples.log_after_calls 30000) Samples.client 59999 59999).2
  = (check IsolationSamples.log_after_calls Samples.client 59999 59999).2.
Proof.
  apply (proj2 (cleanup_keeps_only_valid_and_changes_no_decision
                  IsolationSamples.log_after_calls 30000)).
  lia.
Defined.

(** X4.  Bounded memory per client.  Starting from a new limiter with a
    non-negative quota, after any sequence of calls no client's log holds
    more than [maxRequests] time stamps. *)
Theorem simple_limiter_logs_stay_within_quota :
  forall N W calls key reqs,
    0 <= N ->
    requests (run_checks (SimpleRateLimiter_new N W) calls).1 !! key = Some reqs ->
    Z.of_nat (length reqs) <= N.
Proof.
  intros N W calls key reqs HN Hkey.
  assert (Hb : logs_bounded (run_checks (SimpleRateLimiter_new N W) calls).1).
  { apply run_checks_bounded. intros k v Hk. simpl in Hk. rewrite lookup_empty in Hk.
    discriminate. }
  assert (Hmax : forall l, maxRequests (run_checks l calls).1 = maxRequests l).
  { clear. induction calls as [|[[k n] c] rest IH]; intros l; [reflexivity|].
    rewrite run_checks_cons. cbn [fst]. rewrite IH. apply check_policy. }
  specialize (Hb key reqs Hkey). rewrite Hmax in Hb. exact Hb.
Qed.

Lemma simple_limiter_logs_stay_within_quota_witness :
  exists reqs,
    requests (run_checks (SimpleRateLimiter_new 10 60000) IsolationSamples.mixed_calls).1
      !! Samples.client = Some reqs
    /\ Z.of_nat (length reqs) <= 10.
Proof.
  eexists. split; [vm_compute; reflexivity|].
  apply (simple_limiter_logs_stay_within_quota 10 60000 IsolationSamples.mixed_calls
           Samples.client); [lia | vm_compute; reflexivity].
Defined.

(** ** The two heuristics, read declaratively *)

Module HeuristicFacts.

Import JS RegExp RegExpSpec Security StringFacts.

(** All 256 code units. *)
Definition all_ascii : list ascii := map ascii_of_nat (seq 0 256).

Lemma ascii_forall (f : ascii -> bool) :
  forallb f all_ascii = true -> forall c, f c = true.
Proof.
  intros H c. rewrite forallb_forall in H. apply H.
  unfold all_ascii. apply in_map_iff. exists (nat_of_ascii c). split.
  - apply ascii_nat_embedding.
  - apply in_seq. pose proof (nat_ascii_bounded c). lia.
Qed.

(** A character that is no letter is only matched by itself under the [i]
    flag. *)
Lemma canonicalize_exact x c :
  is_alpha c = false -> canonicalize x = canonicalize c -> x = c.
Proof.
  intros Hc Hx.
  assert (H : forall x c,
             implb (negb (is_alpha c) && Ascii.eqb (canonicalize x) (canonicalize c))
                   (Ascii.eqb x c) = true).
  { intros x0. apply ascii_forall. revert x0. apply ascii_forall.
    vm_compute. reflexivity. }
  specialize (H x c). rewrite Hc, Hx, Ascii.eqb_refl in H. simpl in H.
  now apply Ascii.eqb_eq.
Qed.

(** A character matched by a letter under the [i] flag is a letter. *)
Lemma canonicalize_alpha x c :
  is_alpha c = true -> canonicalize x = canonicalize c -> is_alpha x = true.
Proof.
  intros Hc Hx.
  assert (H : forall x c,
             implb (is_alpha c && Ascii.eqb (canonicalize x) (canonicalize c))
                   (is_alpha x) = true).
  { intros x0. apply ascii_forall. revert x0. apply ascii_forall.
    vm_compute. reflexivity. }
  specialize (H x c). rewrite Hc, Hx, Ascii.eqb_refl in H. exact H.
Qed.

(** The same text, the case of the letters a-z ignored. *)
Definition same_ci (w p : list ascii) : Prop :=
  map canonicalize w = map canonicalize p.

Lemma same_ci_length w p : same_ci w p -> length w = length p.
Proof. intros H. apply (f_equal (@length ascii)) in H. now rewrite !length_map in H. Qed.

Lemma same_ci_exact w p :
  forallb (fun c => negb (is_alpha c)) p = true -> same_ci w p -> w = p.
Proof.
  revert w. induction p as [|c p IH]; intros [|x w] Hall H; try discriminate; [reflexivity|].
  simpl in Hall. apply andb_true_iff in Hall as [Hc Hall]. apply negb_true_iff in Hc.
  injection H as Hx Hw. f_equal; [now apply (canonicalize_exact x c) | now apply IH].
Qed.

Lemma same_ci_alpha w p :
  forallb is_alpha p = true -> same_ci w p -> forallb is_alpha w = true.
Proof.
  revert w. induction p as [|c p IH]; intros [|x w] Hall H; try discriminate; [reflexivity|].
  simpl in Hall. apply andb_true_iff in Hall as [Hc Hall].
  injection H as Hx Hw. simpl. rewrite (canonicalize_alpha x c Hc Hx). now apply IH.
Qed.

Lemma same_ci_app_inv w p q :
  same_ci w (p ++ q) ->
  exists w1 w2, w = w1 ++ w2 /\ same_ci w1 p /\ same_ci w2 q.
Proof.
  revert w. induction p as [|c p IH]; intros w H.
  - exists [], w. repeat split; assumption.
  - destruct w as [|x w]; [discriminate|]. injection H as Hx Hw.
    destruct (IH w Hw) as (w1 & w2 & -> & H1 & H2).
    exists (x :: w1), w2. repeat split; [|exact H2]. unfold same_ci. simpl. now rewrite Hx, H1.
Qed.

(** What a literal text denotes, with and without the [i] flag. *)
Lemma den_str_i p :
  forall prev w t, den (str_i p) prev w t <-> same_ci w (list_ascii_of_string p).
Proof.
  unfold str_i. induction p as [|c p IH]; intros prev w t.
  - simpl. split; [intros ->; reflexivity | destruct w; [reflexivity | discriminate]].
  - destruct p as [|c' p].
    + simpl. split.
      * intros (x & -> & Hx). apply Ascii.eqb_eq in Hx. unfold same_ci. simpl. now rewrite Hx.
      * destruct w as [|x [|y w]]; try discriminate. intros H. injection H as Hx.
        exists x. split; [reflexivity|]. now apply Ascii.eqb_eq.
    + change (seq_of lit_i (String c (String c' p)))
        with (Seq (lit_i c) (seq_of lit_i (String c' p))).
      change (list_ascii_of_string (String c (String c' p)))
        with (c :: list_ascii_of_string (String c' p)).
      cbn [den]. split.
      * intros (w1 & w2 & -> & (x & -> & Hx) & H2). apply IH in H2.
        apply Ascii.eqb_eq in Hx. unfold same_ci in *. simpl map at 1.
        cbn [map]. cbn [map] in H2. rewrite Hx. f_equal. exact H2.
      * destruct w as [|x w]; [discriminate|]. intros H. injection H as Hx Hw.
        exists [x], w. split; [reflexivity|]. split.
        -- exists x. split; [reflexivity|]. now apply Ascii.eqb_eq.
        -- apply IH. exact Hw.
Qed.

Lemma den_str p :
  forall prev w t, den (str p) prev w t <-> w = list_ascii_of_string p.
Proof.
  unfold str. induction p as [|c p IH]; intros prev w t.
  - simpl. reflexivity.
  - destruct p as [|c' p].
    + simpl. split.
      * intros (x & -> & Hx). apply Ascii.eqb_eq in Hx. now subst.
      * intros ->. exists c. split; [reflexivity | apply Ascii.eqb_refl].
    + change (seq_of lit (String c (String c' p)))
        with (Seq (lit c) (seq_of lit (String c' p))).
      change (list_ascii_of_string (String c (String c' p)))
        with (c :: list_ascii_of_string (String c' p)).
      cbn [den]. split.
      * intros (w1 & w2 & -> & (x & -> & Hx) & H2). apply IH in H2.
        apply Ascii.eqb_eq in Hx. subst. reflexivity.
      * intros ->. exists [c], (list_ascii_of_string (String c' p)).
        split; [reflexivity|]. split.
        -- exists c. split; [reflexivity | apply Ascii.eqb_refl].
        -- apply IH. reflexivity.
Qed.

Lemma den_alts l :
  forall prev w t, den (alts l) prev w t <-> exists r, In r l /\ den r prev w t.
Proof.
  induction l as [|r l IH]; intros prev w t.
  - simpl. split.
    + intros (_ & Hno). exfalso. apply Hno. exists [], t. auto.
    + intros (r & [] & _).
  - destruct l as [|r' l].
    + simpl. split; [eauto|]. intros (r0 & [<-|[]] & H). exact H.
    + change (alts (r :: r' :: l)) with (Alt r (alts (r' :: l))). cbn [den].
      rewrite IH. split.
      * intros [H|(r0 & Hin & H)]; [exists r; split; [left; reflexivity | exact H]|].
        exists r0. split; [right; exact Hin | exact H].
      * intros (r0 & [<-|Hin] & H); [left; exact H | right; eauto].
Qed.

Lemma lastp_None w : lastp None w = last w.
Proof. unfold lastp. destruct (last w); reflexivity. Qed.

(** [search] finds a match wherever there is one. *)
Lemma search_spec r :
  forall s prev,
    search r prev s = true <->
    exists pre w t, s = pre ++ w ++ t /\ den r (lastp prev pre) w t.
Proof.
  induction s as [|c s IH]; intros prev.
  - simpl. destruct (m r prev [] _) eqn:Hm.
    + split; [|reflexivity]. intros _. apply m_agrees in Hm as (w & t & Hs & Hd & _).
      exists [], w, t. auto.
    + split; [discriminate|]. intros (pre & w & t & Hs & Hd).
      symmetry in Hs. apply app_eq_nil in Hs as [-> Hs].
      rewrite <- Bool.not_true_iff_false in Hm. exfalso. apply Hm.
      apply m_agrees. exists w, t. auto.
  - simpl. destruct (m r prev (c :: s) _) eqn:Hm.
    + split; [|reflexivity]. intros _. apply m_agrees in Hm as (w & t & Hs & Hd & _).
      exists [], w, t. auto.
    + rewrite IH. split.
      * intros (pre & w & t & -> & Hd). exists (c :: pre), w, t. split; [reflexivity|].
        change (c :: pre) with ([c] ++ pre). rewrite lastp_app. exact Hd.
      * intros (pre & w & t & Hs & Hd). destruct pre as [|c' pre].
        -- rewrite <- Bool.not_true_iff_false in Hm. exfalso. apply Hm.
           apply m_agrees. exists w, t. auto.
        -- injection Hs as <- ->. exists pre, w, t. split; [reflexivity|].
           change (c :: pre) with ([c] ++ pre) in Hd. rewrite lastp_app in Hd. exact Hd.
Qed.

Lemma test_spec r input :
  test r input = true <->
  exists pre w t,
    list_ascii_of_string input = pre ++ w ++ t /\ den r (last pre) w t.
Proof.
  unfold test. rewrite search_spec. split; intros (pre & w & t & Hs & Hd);
    exists pre, w, t; rewrite lastp_None in *; auto.
Qed.

(** The text [p] occurs in [s]. *)
Definition contains (p s : string) : Prop :=
  exists pre post,
    list_ascii_of_string s = pre ++ list_ascii_of_string p ++ post.

(** The text [p] occurs in [s], the case of letters ignored. *)
Definition contains_ci (p s : string) : Prop :=
  exists pre w post,
    list_ascii_of_string s = pre ++ w ++ post /\ same_ci w (list_ascii_of_string p).

(** The word [p] occurs in [s], the case of letters ignored, with no word
    character ([A-Za-z0-9_]) right before or right after it. *)
Definition whole_word_ci (p s : string) : Prop :=
  exists pre w post,
    list_ascii_of_string s = pre ++ w ++ post
    /\ same_ci w (list_ascii_of_string p)
    /\ is_word_opt (last pre) = false
    /\ is_word_opt (head post) = false.

Lemma test_str_i p input : test (str_i p) input = true <-> contains_ci p input.
Proof.
  rewrite test_spec. split.
  - intros (pre & w & t & Hs & Hd). apply den_str_i in Hd. exists pre, w, t. auto.
  - intros (pre & w & t & Hs & Hd). exists pre, w, t. split; [exact Hs|]. now apply den_str_i.
Qed.

End HeuristicFacts.

Module SqlHeuristic.

Import JS RegExp RegExpSpec Security StringFacts HeuristicFacts.

(** The words of the first pattern of [containsSqlInjection]. *)
Definition sql_keywords : list string :=
  ["SELECT"; "INSERT"; "UPDATE"; "DELETE"; "DROP"; "CREATE"; "ALTER"; "EXEC";
   "EXECUTE"]%string.

(** The character sequences that the second and third pattern look for:
    the comment marks, the apostrophe, and a double quote followed by a
    semicolon. *)
Definition sql_tokens : list string :=
  ["--"; "#"; "/*"; "*/"; "'"; String dquote ";"]%string.

(** What [containsSqlInjection] flags, in words: one of the key words as a
    whole word in any letter case, or one of the character sequences. *)
Definition sql_suspicious (s : string) : Prop :=
  (exists kw, In kw sql_keywords /\ whole_word_ci kw s)
  \/ (exists p, In p sql_tokens /\ contains p s).

Lemma sqlPatterns_eq :
  sqlPatterns
  = [ Seq WordBoundary (Seq (alts (map str_i sql_keywords)) WordBoundary);
      alts (map str ["--"; "#"; "/*"; "*/"]%string);
      alts (map str_i ["'"; String dquote ";"; String dquote ";--";
                       "' OR '1'='1"]%string) ].
Proof. reflexivity. Qed.

Lemma forallb_last {A} (P : A -> bool) (w : list A) :
  forallb P w = true -> w <> [] -> exists y, last w = Some y /\ P y = true.
Proof.
  destruct w as [|y w _] using rev_ind; [congruence|]. intros Hall _.
  rewrite forallb_app in Hall. apply andb_true_iff in Hall as [_ Hy]. simpl in Hy.
  rewrite andb_true_r in Hy. exists y. rewrite last_snoc. auto.
Qed.

Lemma is_alpha_word c : is_alpha c = true -> is_word c = true.
Proof. unfold is_word. intros ->. reflexivity. Qed.

Lemma sql_keywords_letters kw :
  In kw sql_keywords ->
  forallb is_alpha (list_ascii_of_string kw) = true /\ list_ascii_of_string kw <> [].
Proof.
  intros Hin. simpl in Hin.
  repeat (destruct Hin as [<-|Hin]; [split; [vm_compute; reflexivity | discriminate]|]).
  destruct Hin.
Qed.

(** A text that reads as a key word starts and ends with a word character. *)
Lemma keyword_edges kw w :
  In kw sql_keywords -> same_ci w (list_ascii_of_string kw) ->
  (exists x w', w = x :: w' /\ is_word x = true)
  /\ (exists y, last w = Some y /\ is_word y = true).
Proof.
  intros Hin Hw. destruct (sql_keywords_letters kw Hin) as [Hletters Hne].
  pose proof (same_ci_alpha _ _ Hletters Hw) as Hall.
  assert (Hwne : w <> []).
  { intros ->. apply same_ci_length in Hw. destruct (list_ascii_of_string kw);
      [congruence | discriminate]. }
  split.
  - destruct w as [|x w']; [congruence|]. simpl in Hall.
    apply andb_true_iff in Hall as [Hx _]. exists x, w'. split; [reflexivity|].
    now apply is_alpha_word.
  - destruct (forallb_last _ _ Hall Hwne) as (y & Hy & Hay). exists y.
    split; [exact Hy | now apply is_alpha_word].
Qed.

Lemma test_keywords input :
  test (Seq WordBoundary (Seq (alts (map str_i sql_keywords)) WordBoundary)) input = true
  <-> exists kw, In kw sql_keywords /\ whole_word_ci kw input.
Proof.
  rewrite test_spec. split.
  - intros (pre & w & t & Hs & Hd). cbn [den] in Hd.
    destruct Hd as (w1 & w2 & -> & (-> & Hb1) & (w3 & w4 & -> & Halt & (-> & Hb2))).
    apply den_alts in Halt as (r & Hin & Hr).
    apply in_map_iff in Hin as (kw & <- & Hin). apply den_str_i in Hr.
    destruct (keyword_edges kw w3 Hin Hr) as ((x & w' & -> & Hx) & (y & Hy & Hwy)).
    exists kw. split; [exact Hin|]. exists pre, (x :: w'), t.
    rewrite app_nil_r in *. simpl in Hs. split; [exact Hs|]. split; [exact Hr|].
    split.
    + simpl in Hb1. rewrite Hx in Hb1. now apply Bool.not_true_is_false.
    + unfold lastp in Hb2. rewrite Hy in Hb2. simpl in Hb2. rewrite Hwy in Hb2.
      destruct (is_word_opt (head t)); [congruence | reflexivity].
  - intros (kw & Hin & pre & w & post & Hs & Hw & Hb1 & Hb2).
    destruct (keyword_edges kw w Hin Hw) as ((x & w' & -> & Hx) & (y & Hy & Hwy)).
    exists pre, (x :: w'), post. split; [exact Hs|]. cbn [den].
    exists [], (x :: w'). split; [reflexivity|]. split.
    + split; [reflexivity|]. simpl. rewrite Hb1, Hx. discriminate.
    + exists (x :: w'), []. split; [now rewrite app_nil_r|]. split.
      * apply den_alts. exists (str_i kw). split; [now apply in_map|].
        now apply den_str_i.
      * split; [reflexivity|]. unfold lastp. rewrite Hy. simpl. rewrite Hwy, Hb2.
        discriminate.
Qed.

Lemma test_comment_marks input :
  test (alts (map str ["--"; "#"; "/*"; "*/"]%string)) input = true
  <-> exists p, In p ["--"; "#"; "/*"; "*/"]%string /\ contains p input.
Proof.
  rewrite test_spec. split.
  - intros (pre & w & t & Hs & Hd). apply den_alts in Hd as (r & Hin & Hr).
    apply in_map_iff in Hin as (p & <- & Hin). apply den_str in Hr. subst w.
    exists p. split; [exact Hin|]. exists pre, t. exact Hs.
  - intros (p & Hin & pre & post & Hs). exists pre, (list_ascii_of_string p), post.
    split; [exact Hs|]. apply den_alts. exists (str p). split; [now apply in_map|].
    now apply den_str.
Qed.

Lemma test_quotes input :
  test (alts (map str_i ["'"; String dquote ";"; String dquote ";--";
                         "' OR '1'='1"]%string)) input = true
  <-> contains "'" input \/ contains (String dquote ";") input.
Proof.
  rewrite test_spec. split.
  - intros (pre & w & t & Hs & Hd). apply den_alts in Hd as (r & Hin & Hr).
    apply in_map_iff in Hin as (p & <- & Hin). apply den_str_i in Hr.
    simpl in Hin. destruct Hin as [<-|[<-|[<-|[<-|[]]]]].
    + apply same_ci_exact in Hr; [|reflexivity]. subst w. left. exists pre, t. exact Hs.
    + apply same_ci_exact in Hr; [|reflexivity]. subst w. right. exists pre, t. exact Hs.
    + apply same_ci_exact in Hr; [|reflexivity]. subst w. right.
      exists pre, (["-"; "-"]%char ++ t). exact Hs.
    + change (list_ascii_of_string "' OR '1'='1")
        with (["'"%char] ++ list_ascii_of_string " OR '1'='1") in Hr.
      apply same_ci_app_inv in Hr as (w1 & w2 & -> & H1 & _).
      apply same_ci_exact in H1; [|reflexivity]. subst w1. left.
      exists pre, (w2 ++ t). rewrite Hs, <- app_assoc. reflexivity.
  - intros [(pre & post & Hs)|(pre & post & Hs)].
    + exists pre, (list_ascii_of_string "'"), post. split; [exact Hs|].
      apply den_alts. exists (str_i "'"). split; [left; reflexivity|].
      now apply den_str_i.
    + exists pre, (list_ascii_of_string (String dquote ";")), post. split; [exact Hs|].
      apply den_alts. exists (str_i (String dquote ";")).
      split; [right; left; reflexivity|]. now apply den_str_i.
Qed.

Lemma containsSqlInjection_spec input :
  containsSqlInjection input = true <-> sql_suspicious input.
Proof.
  unfold containsSqlInjection. rewrite sqlPatterns_eq. cbn [existsb].
  rewrite !orb_true_iff, test_keywords, test_comment_marks, test_quotes.
  unfold sql_suspicious. split.
  - intros [H|[(p & Hin & H)|[[H|H]|H]]]; [left; exact H | right | right | right | discriminate].
    + exists p. split; [|exact H]. simpl in *. tauto.
    + exists "'"%string. split; [simpl; tauto | exact H].
    + exists (String dquote ";"). split; [simpl; tauto | exact H].
  - intros [H|(p & Hin & H)]; [left; exact H|]. right.
    simpl in Hin.
    destruct Hin as [<-|[<-|[<-|[<-|[<-|[<-|[]]]]]]].
    1-4: left; eexists; split; [|exact H]; simpl; tauto.
    + right. left. left. exact H.
    + right. left. right. exact H.
Qed.

End SqlHeuristic.

Module XssHeuristic.

Import JS RegExp RegExpSpec Security StringFacts HeuristicFacts.

(** A complete script element: [<script], not followed by a word
    character, and a closing [</script>] somewhere after it (letter case
    ignored). *)
Definition script_block (s : string) : Prop :=
  exists pre a mid b post,
    list_ascii_of_string s = pre ++ a ++ mid ++ b ++ post
    /\ same_ci a (list_ascii_of_string "<script")
    /\ same_ci b (list_ascii_of_string "</script>")
    /\ is_word_opt (head mid) = false.

(** Something that reads as an event handler attribute: [on], one or more
    word characters, optional white space and an equals sign. *)
Definition handler_attribute (s : string) : Prop :=
  exists pre a w sp post,
    list_ascii_of_string s = pre ++ a ++ w ++ sp ++ "="%char :: post
    /\ same_ci a (list_ascii_of_string "on")
    /\ w <> [] /\ forallb is_word w = true
    /\ forallb is_space sp = true.

(** What [containsXss] flags, in words. *)
Definition xss_suspicious (s : string) : Prop :=
  script_block s
  \/ contains_ci "javascript:" s
  \/ handler_attribute s
  \/ contains_ci "<iframe" s
  \/ contains_ci "eval(" s.

Definition close_tag : regex := str_i "</script>".

(** One more piece of the script body: a [<] that does not start the
    closing tag, and the text up to the next [<]. *)
Definition segment : regex :=
  Seq (NotAhead close_tag) (Seq (lit_i "<") (Star (Char not_lt))).

Definition script_body : regex :=
  Seq (Star (Char not_lt)) (Seq (Star segment) close_tag).

Lemma xssPatterns_eq :
  xssPatterns
  = [ Seq (str_i "<script") (Seq WordBoundary script_body);
      str_i "javascript:";
      Seq (str_i "on")
        (Seq (Plus (Char is_word)) (Seq (Star (Char is_space)) (lit_i "=")));
      str_i "<iframe";
      str_i "eval(" ].
Proof. reflexivity. Qed.

(** The closing tag occurs in [l]. *)
Definition has_close (l : list ascii) : Prop :=
  exists mid b post, l = mid ++ b ++ post /\ same_ci b (list_ascii_of_string "</script>").

(** The closing tag starts [l]. *)
Definition at_close_tag (l : list ascii) : Prop :=
  exists b post, l = b ++ post /\ same_ci b (list_ascii_of_string "</script>").

Lemma close_starts_with_lt b :
  same_ci b (list_ascii_of_string "</script>") -> exists b', b = "<"%char :: b'.
Proof.
  change (list_ascii_of_string "</script>")
    with (["<"%char] ++ list_ascii_of_string "/script>").
  intros H. apply same_ci_app_inv in H as (w1 & w2 & -> & H1 & _).
  apply same_ci_exact in H1; [|reflexivity]. subst w1. exists w2. reflexivity.
Qed.

(** The longest prefix without [<], and the rest. *)
Fixpoint span_not_lt (l : list ascii) : list ascii * list ascii :=
  match l with
  | [] => ([], [])
  | c :: l' =>
      if not_lt c then let '(u, r) := span_not_lt l' in (c :: u, r) else ([], l)
  end.

Lemma span_not_lt_spec l :
  l = (span_not_lt l).1 ++ (span_not_lt l).2
  /\ forallb not_lt (span_not_lt l).1 = true
  /\ ((span_not_lt l).2 = [] \/ exists r, (span_not_lt l).2 = "<"%char :: r)
  /\ (length (span_not_lt l).2 <= length l)%nat.
Proof.
  induction l as [|c l IH]; simpl.
  - repeat split; auto.
  - destruct (not_lt c) eqn:Hc.
    + destruct (span_not_lt l) as [u r]. simpl in *.
      destruct IH as (IH1 & IH2 & IH3 & IH4). rewrite Hc.
      repeat split; [now f_equal | exact IH2 | exact IH3 | lia].
    + simpl. repeat split; [|lia]. right. exists l. f_equal.
      unfold not_lt in Hc. apply negb_false_iff in Hc. now apply Ascii.eqb_eq in Hc.
Qed.

(** Text without [<] in front of an occurrence of the closing tag does not
    reach into it. *)
Lemma has_close_skip u :
  forall l, forallb not_lt u = true -> has_close (u ++ l) -> has_close l.
Proof.
  induction u as [|c u IH]; intros l Hall Hc; [exact Hc|].
  simpl in Hall. apply andb_true_iff in Hall as [Hnc Hall].
  apply IH; [exact Hall|].
  destruct Hc as (mid & b & post & Hl & Hb).
  destruct mid as [|c' mid].
  - destruct (close_starts_with_lt b Hb) as (b' & ->). simpl in Hl.
    injection Hl as -> _. discriminate Hnc.
  - simpl in Hl. injection Hl as _ Hl. exists mid, b, post. auto.
Qed.

Lemma at_close_tag_dec l : at_close_tag l \/ ~ at_close_tag l.
Proof.
  destruct (list_eq_dec (map canonicalize (firstn 9 l))
              (map canonicalize (list_ascii_of_string "</script>"))) as [Heq|Hne].
  - left. exists (firstn 9 l), (skipn 9 l). split; [symmetry; apply firstn_skipn | exact Heq].
  - right. intros (b & post & -> & Hb). apply Hne.
    rewrite firstn_app, (same_ci_length _ _ Hb). simpl length.
    rewrite Nat.sub_diag, firstn_O, app_nil_r.
    rewrite firstn_all2 by (rewrite (same_ci_length _ _ Hb); simpl; lia). exact Hb.
Qed.

(** From a [<] before which the closing tag has not started, the segments
    of the pattern reach the first closing tag. *)
Lemma segments_reach_close n :
  forall l prev r,
    (length l <= n)%nat -> l = "<"%char :: r -> has_close l ->
    exists v b t,
      l = v ++ b ++ t /\ star (den segment) prev v (b ++ t)
      /\ same_ci b (list_ascii_of_string "</script>").
Proof.
  induction n as [|n IH]; intros l prev r Hlen Hl Hc.
  - subst l. simpl in Hlen. lia.
  - destruct (at_close_tag_dec l) as [(b & post & Hb & Hsame)|Hnot].
    + exists [], b, post. split; [exact Hb|]. split; [constructor | exact Hsame].
    + assert (Hr : has_close r).
      { destruct Hc as (mid & b & post & Hmid & Hb). destruct mid as [|c mid].
        - exfalso. apply Hnot. exists b, post. split; [exact Hmid | exact Hb].
        - rewrite Hl in Hmid. simpl in Hmid. injection Hmid as _ ->.
          exists mid, b, post. auto. }
      destruct (span_not_lt_spec r) as (Hsplit & Hseg & Hrest & Hshort).
      set (seg := (span_not_lt r).1) in *. set (l2 := (span_not_lt r).2) in *.
      assert (Hc2 : has_close l2).
      { apply (has_close_skip seg); [exact Hseg | now rewrite <- Hsplit]. }
      destruct Hrest as [Hnil|(r2 & Hl2)].
      { exfalso. destruct Hc2 as (mid & b & post & Hmid & Hb). rewrite Hnil in Hmid.
        symmetry in Hmid. apply app_eq_nil in Hmid as [_ Hmid].
        apply app_eq_nil in Hmid as [-> _]. discriminate Hb. }
      destruct (IH l2 (lastp prev ("<"%char :: seg)) r2) as (v & b & t & Hv & Hstar & Hb);
        [subst l; simpl in Hlen; lia | exact Hl2 | exact Hc2 |].
      exists (("<"%char :: seg) ++ v), b, t. split; [|split; [|exact Hb]].
      * rewrite Hl, Hsplit, Hv, <- app_assoc. reflexivity.
      * apply star_step; [discriminate| |exact Hstar].
        unfold segment. cbn [den].
        exists [], ("<"%char :: seg). split; [reflexivity|]. split.
        -- split; [reflexivity|]. intros (w' & t' & Heq & Hd). apply Hnot.
           apply den_str_i in Hd. exists w', t'. split; [|exact Hd].
           rewrite <- Heq, Hl, Hsplit, Hv. simpl. rewrite <- ?app_assoc. reflexivity.
        -- exists ["<"%char], seg. split; [reflexivity|]. split.
           ++ exists "<"%char. split; reflexivity.
           ++ apply star_char. exact Hseg.
Qed.

Lemma script_body_reaches_close l prev :
  has_close l -> exists w t, l = w ++ t /\ den script_body prev w t.
Proof.
  intros Hc. destruct (span_not_lt_spec l) as (Hsplit & Hu & Hrest & _).
  set (u := (span_not_lt l).1) in *. set (l2 := (span_not_lt l).2) in *.
  assert (Hc2 : has_close l2).
  { apply (has_close_skip u); [exact Hu | now rewrite <- Hsplit]. }
  destruct Hrest as [Hnil|(r2 & Hl2)].
  { exfalso. destruct Hc2 as (mid & b & post & Hmid & Hb). rewrite Hnil in Hmid.
    symmetry in Hmid. apply app_eq_nil in Hmid as [_ Hmid].
    apply app_eq_nil in Hmid as [-> _]. discriminate Hb. }
  destruct (segments_reach_close (length l2) l2 (lastp prev u) r2 (Nat.le_refl _) Hl2 Hc2)
    as (v & b & t & Hv & Hstar & Hb).
  exists (u ++ v ++ b), t. split.
  - rewrite Hsplit, Hv, <- !app_assoc. reflexivity.
  - unfold script_body. cbn [den]. exists u, (v ++ b). split; [reflexivity|]. split.
    + apply star_char. exact Hu.
    + exists v, b. split; [reflexivity|]. split; [exact Hstar|].
      apply den_str_i. exact Hb.
Qed.

Lemma script_last a :
  same_ci a (list_ascii_of_string "<script") ->
  exists y, last a = Some y /\ is_word y = true.
Proof.
  change (list_ascii_of_string "<script")
    with (list_ascii_of_string "<scrip" ++ ["t"%char]).
  intros H. apply same_ci_app_inv in H as (w1 & w2 & -> & _ & H2).
  destruct w2 as [|y [|z w2]]; try discriminate H2.
  injection H2 as Hy. exists y. rewrite last_snoc. split; [reflexivity|].
  unfold is_word. rewrite (canonicalize_alpha y "t"); [reflexivity | reflexivity | exact Hy].
Qed.

Lemma test_script input :
  test (Seq (str_i "<script") (Seq WordBoundary script_body)) input = true
  <-> script_block input.
Proof.
  rewrite test_spec. split.
  - intros (pre & w & t & Hs & Hd). cbn [den] in Hd.
    destruct Hd as (a & w2 & -> & Ha & (w3 & w4 & -> & (-> & Hb) & Hbody)).
    apply den_str_i in Ha. destruct (script_last a Ha) as (y & Hy & Hwy).
    unfold lastp in Hb. rewrite Hy in Hb. simpl in Hb. rewrite Hwy in Hb.
    destruct Hbody as (u & w5 & -> & _ & (v & b & -> & _ & Hclose)).
    apply den_str_i in Hclose.
    exists pre, a, (u ++ v), b, t. split; [|split; [exact Ha | split; [exact Hclose|]]].
    + rewrite Hs. simpl. rewrite <- !app_assoc. reflexivity.
    + destruct (u ++ v) as [|c mid] eqn:Hmid; [reflexivity|].
      assert (Hhead : head ((u ++ v ++ b) ++ t) = Some c).
      { rewrite (app_assoc u v b), Hmid. reflexivity. }
      rewrite Hhead in Hb. simpl in *. destruct (is_word c); [congruence | reflexivity].
  - intros (pre & a & mid & b & post & Hs & Ha & Hb & Hmid).
    destruct (script_body_reaches_close (mid ++ b ++ post) (lastp (lastp (last pre) a) []))
      as (w & t & Hw & Hd).
    { exists mid, b, post. auto. }
    exists pre, (a ++ w), t. split; [rewrite Hs, <- app_assoc, Hw; reflexivity|].
    cbn [den]. exists a, w. split; [reflexivity|]. split; [now apply den_str_i|].
    exists [], w. split; [reflexivity|]. split; [|exact Hd].
    split; [reflexivity|]. destruct (script_last a Ha) as (y & Hy & Hwy).
    unfold lastp. rewrite Hy. simpl. rewrite Hwy, <- Hw.
    destruct mid as [|c mid].
    + destruct (close_starts_with_lt b Hb) as (b' & ->). simpl. discriminate.
    + simpl in *. rewrite Hmid. discriminate.
Qed.

Lemma test_handler input :
  test (Seq (str_i "on")
          (Seq (Plus (Char is_word)) (Seq (Star (Char is_space)) (lit_i "=")))) input = true
  <-> handler_attribute input.
Proof.
  rewrite test_spec. split.
  - intros (pre & w & t & Hs & Hd). cbn [den] in Hd.
    destruct Hd as (a & w2 & -> & Ha & (ws & w3 & -> & Hws & (sp & w4 & -> & Hsp & Heq))).
    apply den_str_i in Ha. apply den_plus_char in Hws as [Hne Hws].
    apply star_char in Hsp. destruct Heq as (x & -> & Hx).
    apply Ascii.eqb_eq in Hx. apply canonicalize_exact in Hx; [|reflexivity]. subst x.
    exists pre, a, ws, sp, t. rewrite Hs, <- !app_assoc. auto.
  - intros (pre & a & ws & sp & post & Hs & Ha & Hne & Hws & Hsp).
    exists pre, (a ++ ws ++ sp ++ ["="%char]), post. split.
    + rewrite Hs, <- !app_assoc. reflexivity.
    + cbn [den]. exists a, (ws ++ sp ++ ["="%char]). split; [reflexivity|].
      split; [now apply den_str_i|].
      exists ws, (sp ++ ["="%char]). split; [reflexivity|].
      split; [apply den_plus_char; auto|].
      exists sp, ["="%char]. split; [reflexivity|]. split; [now apply star_char|].
      exists "="%char. split; reflexivity.
Qed.

Lemma containsXss_spec input :
  containsXss input = true <-> xss_suspicious input.
Proof.
  unfold containsXss. rewrite xssPatterns_eq. cbn [existsb].
  rewrite !orb_true_iff, test_script, test_handler, !test_str_i.
  unfold xss_suspicious. intuition discriminate.
Qed.

(** Whatever is flagged contains one of the characters [<], [:], [=], [(]. *)
Definition xss_trigger (c : ascii) : bool :=
  existsb (Ascii.eqb c) ["<"; ":"; "="; "("]%char.

Lemma same_ci_trigger w p1 c p2 :
  is_alpha c = false ->
  same_ci w (p1 ++ c :: p2) -> In c w.
Proof.
  intros Hc H. apply same_ci_app_inv in H as (w1 & w2 & -> & _ & H2).
  destruct w2 as [|x w2]; [discriminate|]. injection H2 as Hx _.
  apply canonicalize_exact in Hx; [|exact Hc]. subst x.
  apply in_or_app. right. left. reflexivity.
Qed.

Lemma containsXss_trigger input :
  containsXss input = true ->
  existsb xss_trigger (list_ascii_of_string input) = true.
Proof.
  intros H. apply containsXss_spec in H. apply existsb_exists.
  destruct H as [H|[H|[H|[H|H]]]].
  - destruct H as (pre & a & mid & b & post & -> & Ha & _).
    exists "<"%char. split; [|reflexivity].
    apply in_or_app. right. apply in_or_app. left.
    apply (same_ci_trigger a [] "<"%char (list_ascii_of_string "script")); [reflexivity | exact Ha].
  - destruct H as (pre & w & post & -> & Hw).
    exists ":"%char. split; [|reflexivity].
    apply in_or_app. right. apply in_or_app. left.
    apply (same_ci_trigger w (list_ascii_of_string "javascript") ":"%char []);
      [reflexivity | exact Hw].
  - destruct H as (pre & a & w & sp & post & -> & _).
    exists "="%char. split; [|reflexivity].
    do 4 (apply in_or_app; right). left. reflexivity.
  - destruct H as (pre & w & post & -> & Hw).
    exists "<"%char. split; [|reflexivity].
    apply in_or_app. right. apply in_or_app. left.
    apply (same_ci_trigger w [] "<"%char (list_ascii_of_string "iframe")); [reflexivity | exact Hw].
  - destruct H as (pre & w & post & -> & Hw).
    exists "("%char. split; [|reflexivity].
    apply in_or_app. right. apply in_or_app. left.
    apply (same_ci_trigger w (list_ascii_of_string "eval") "("%char []); [reflexivity | exact Hw].
Qed.

End XssHeuristic.

Import HeuristicFacts SqlHeuristic XssHeuristic.

(** X5.  [containsSqlInjection] flags exactly the inputs that hold one of
    the nine key words (SELECT, INSERT, UPDATE, DELETE, DROP, CREATE, ALTER,
    EXEC, EXECUTE) as a whole word in any letter case, or one of the
    character sequences [--], [#], [/*], [*/], an apostrophe, or a double
    quote followed by a semicolon.  So an everyday sentence with an
    apostrophe or with the word [update] is flagged, while [selection] is
    not. *)
Theorem containsSqlInjection_flags_exactly :
  (forall input, Security.containsSqlInjection input = true <-> sql_suspicious input)
  /\ Security.containsSqlInjection "What's new?" = true
  /\ Security.containsSqlInjection "Please update me" = true
  /\ Security.containsSqlInjection "A selection of updates" = false.
Proof.
  split; [exact containsSqlInjection_spec|]. repeat split; vm_compute; reflexivity.
Qed.

(** X6.  [containsXss] flags exactly the inputs that hold a complete script
    element, [javascript:], something that reads as an event handler
    attribute ([on], word characters, optional white space, [=]),
    [<iframe] or [eval(], letter case ignored.  In particular an input
    without any of the characters [<], [:], [=] and [(] is never flagged. *)
Theorem containsXss_flags_exactly :
  (forall input, Security.containsXss input = true <-> xss_suspicious input)
  /\ (forall input,
         existsb xss_trigger (list_ascii_of_string input) = false ->
         Security.containsXss input = false).
Proof.
  split; [exact containsXss_spec|]. intros input Hno.
  destruct (Security.containsXss input) eqn:Hx; [|reflexivity].
  apply containsXss_trigger in Hx. congruence.
Qed.

Lemma containsXss_flags_exactly_witness :
  Security.containsXss "Tell me about your skills" = false.
Proof.
  apply (proj2 containsXss_flags_exactly). vm_compute. reflexivity.
Defined.

(** ** The sanitizers' results *)

Module SanitizerMore.

Import JS Security StringFacts SanitizerFacts RegExp HeuristicFacts XssHeuristic.

Definition head_space (s : string) : bool :=
  match s with String c _ => is_space c | EmptyString => false end.

Lemma length_take n s : (String.length (take n s) <= n)%nat.
Proof.
  revert s. induction n as [|n IH]; intros [|c s]; simpl; try lia.
  specialize (IH s). lia.
Qed.

Lemma substring_0 s n : substring s 0 n = take (Nat.min n (String.length s)) s.
Proof.
  unfold substring. rewrite !Nat.min_0_l, Nat.max_0_l, Nat.sub_0_r.
  destruct s; reflexivity.
Qed.

Lemma trimStart_head s : head_space (trimStart s) = false.
Proof.
  induction s as [|c s IH]; [reflexivity|]. simpl.
  destruct (is_space c) eqn:Hc; [exact IH | simpl; exact Hc].
Qed.

Lemma trimEnd_head s : head_space s = false -> head_space (trimEnd s) = false.
Proof.
  destruct s as [|c s]; [reflexivity|]. simpl. intros Hc. rewrite Hc.
  destruct (trimEnd s); simpl; exact Hc.
Qed.

Lemma take_head n s : head_space s = false -> head_space (take n s) = false.
Proof. destruct n, s; simpl; auto. Qed.

(** The last character of a trimmed string is not white space. *)
Lemma trimEnd_last_visible s :
  match list_ascii_of_string (trimEnd s) with
  | [] => True
  | c :: l => is_space (List.last l c) = false
  end.
Proof.
  induction s as [|c s IH]; [exact I|]. simpl.
  destruct (trimEnd s) as [|d r] eqn:Hr.
  - destruct (is_space c) eqn:Hc; simpl; [exact I | exact Hc].
  - change (list_ascii_of_string (String c (String d r)))
      with (c :: d :: list_ascii_of_string r).
    change (List.last (d :: list_ascii_of_string r) c)
      with (List.last (d :: list_ascii_of_string r) c).
    simpl in IH. destruct (list_ascii_of_string r) as [|e l]; [exact IH|].
    change (List.last (d :: e :: l) c) with (List.last (e :: l) c).
    rewrite (last_default_irrelevant l e c d). exact IH.
Qed.

Lemma trim_no_edge_space s : no_edge_space (trim s) = true.
Proof.
  unfold no_edge_space, trim.
  pose proof (trimEnd_head _ (trimStart_head s)) as Hhead.
  pose proof (trimEnd_last_visible (trimStart s)) as Hlast.
  destruct (trimEnd (trimStart s)) as [|c r]; [reflexivity|].
  simpl in *. now rewrite Hhead, Hlast.
Qed.

Lemma sanitizeText_length input :
  (String.length (sanitizeText input) <= Z.to_nat 10000)%nat.
Proof.
  unfold sanitizeText. rewrite substring_0.
  etransitivity; [apply length_take|]. apply Nat.le_min_l.
Qed.

(** A string that is already clean is left alone. *)
Lemma sanitizeText_clean s : clean s -> sanitizeText s = s.
Proof.
  intros (Hmarkup & Hedge & Hlen). unfold sanitizeText.
  rewrite (sanitize_plain s Hmarkup), (trim_id s Hedge).
  now apply substring_0_all.
Qed.

Lemma toLowerCase_app a b : toLowerCase (a +:+ b) = toLowerCase a +:+ toLowerCase b.
Proof. induction a as [|c a IH]; simpl; [reflexivity | now rewrite IH]. Qed.

Lemma toLowerCase_list s :
  list_ascii_of_string (toLowerCase s) = map lower_char (list_ascii_of_string s).
Proof. induction s as [|c s IH]; simpl; [reflexivity | now rewrite IH]. Qed.

Lemma toLowerCase_length s : String.length (toLowerCase s) = String.length s.
Proof. induction s as [|c s IH]; simpl; [reflexivity | now rewrite IH]. Qed.

Lemma toLowerCase_idempotent s : toLowerCase (toLowerCase s) = toLowerCase s.
Proof.
  induction s as [|c s IH]; simpl; [reflexivity|]. rewrite IH. f_equal.
  revert c. assert (H : forall c, Ascii.eqb (lower_char (lower_char c)) (lower_char c) = true).
  { apply ascii_forall. vm_compute. reflexivity. }
  intros c. now apply Ascii.eqb_eq.
Qed.

Lemma all_chars_lower (p : ascii -> bool) s :
  (forall c, p c = true -> p (lower_char c) = true) ->
  all_chars p s = true -> all_chars p (toLowerCase s) = true.
Proof.
  intros Hp. unfold all_chars. rewrite toLowerCase_list.
  rewrite !forallb_forall. intros H c Hin.
  apply in_map_iff in Hin as (x & <- & Hx). apply Hp. now apply H.
Qed.

Lemma lower_keeps (p : ascii -> bool) :
  forallb (fun c => implb (p c) (p (lower_char c))) all_ascii = true ->
  forall c, p c = true -> p (lower_char c) = true.
Proof.
  intros H c Hc. pose proof (ascii_forall _ H c) as Hi. simpl in Hi.
  rewrite Hc in Hi. exact Hi.
Qed.

Lemma email_shape_lower s : email_shape s -> email_shape (toLowerCase s).
Proof.
  intros (l & d & t & -> & Hl & Hlc & Hd & Hdc & Ht & Htc).
  exists (toLowerCase l), (toLowerCase d), (toLowerCase t).
  rewrite !toLowerCase_app. split; [reflexivity|].
  split; [destruct l; [congruence | discriminate]|].
  split; [apply all_chars_lower; [apply lower_keeps; vm_compute; reflexivity | exact Hlc]|].
  split; [destruct d; [congruence | discriminate]|].
  split; [apply all_chars_lower; [apply lower_keeps; vm_compute; reflexivity | exact Hdc]|].
  split; [now rewrite toLowerCase_length|].
  apply all_chars_lower; [apply lower_keeps; vm_compute; reflexivity | exact Htc].
Qed.

(** The characters an address of the accepted shape is made of. *)
Definition email_char (c : ascii) : bool := email_local c || Ascii.eqb c "@".

Lemma all_chars_app p a b :
  all_chars p (a +:+ b) = all_chars p a && all_chars p b.
Proof. unfold all_chars. now rewrite list_ascii_of_string_app, forallb_app. Qed.

Lemma all_chars_weaken (p q : ascii -> bool) s :
  forallb (fun c => implb (p c) (q c)) all_ascii = true ->
  all_chars p s = true -> all_chars q s = true.
Proof.
  intros H. unfold all_chars. rewrite !forallb_forall. intros Hs c Hin.
  pose proof (ascii_forall _ H c) as Hi. simpl in Hi. rewrite (Hs c Hin) in Hi. exact Hi.
Qed.

Lemma email_shape_chars s : email_shape s -> all_chars email_char s = true.
Proof.
  intros (l & d & t & -> & _ & Hlc & _ & Hdc & _ & Htc).
  rewrite !all_chars_app.
  rewrite (all_chars_weaken email_local email_char l), (all_chars_weaken email_domain email_char d),
    (all_chars_weaken is_alpha email_char t); try assumption; vm_compute; reflexivity.
Qed.

Lemma last_in (l : list ascii) e d : In (List.last (e :: l) d) (e :: l).
Proof.
  revert e. induction l as [|x l IH]; intros e; [left; reflexivity|].
  right. change (List.last (e :: x :: l) d) with (List.last (x :: l) d). apply IH.
Qed.

(** A string of address characters has no markup, no white space and
    nothing the XSS heuristic looks for. *)
Lemma email_chars_clean s :
  all_chars email_char s = true -> (String.length s <= Z.to_nat 10000)%nat -> clean s.
Proof.
  intros Hall Hlen. split; [|split; [|exact Hlen]].
  - apply (all_chars_weaken email_char); [vm_compute; reflexivity | exact Hall].
  - unfold no_edge_space. unfold all_chars in Hall.
    destruct (list_ascii_of_string s) as [|c l]; [reflexivity|].
    assert (Hsp : forall x, In x (c :: l) -> is_space x = false).
    { intros x Hx. rewrite forallb_forall in Hall. specialize (Hall x Hx).
      assert (H : forall x, implb (email_char x) (negb (is_space x)) = true).
      { apply ascii_forall. vm_compute. reflexivity. }
      specialize (H x). rewrite Hall in H. simpl in H. now apply negb_true_iff in H. }
    rewrite (Hsp c) by (left; reflexivity). simpl.
    rewrite Hsp; [reflexivity|].
    destruct l as [|e l]; [left; reflexivity|]. right. apply last_in.
Qed.

Lemma email_chars_not_xss s : all_chars email_char s = true -> containsXss s = false.
Proof.
  intros Hall. destruct (containsXss s) eqn:Hx; [|reflexivity].
  apply containsXss_trigger in Hx. apply existsb_exists in Hx as (c & Hin & Hc).
  unfold all_chars in Hall. rewrite forallb_forall in Hall. specialize (Hall c Hin).
  assert (H : forall x, implb (email_char x) (negb (xss_trigger x)) = true).
  { apply ascii_forall. vm_compute. reflexivity. }
  specialize (H c). rewrite Hall, Hc in H. discriminate H.
Qed.

Lemma sanitizeEmail_cases email :
  sanitizeEmail email = EmptyString
  \/ (email_shape (sanitizeText email)
      /\ sanitizeEmail email = toLowerCase (sanitizeText email)).
Proof.
  unfold sanitizeEmail. destruct (test emailRegex (sanitizeText email)) eqn:Ht; [|left; reflexivity].
  right. split; [now apply emailRegex_shape | reflexivity].
Qed.

End SanitizerMore.

Import SanitizerMore.

(** X7.  The result of [sanitizeText] never has more than 10000 characters
    and never starts with white space; when it is shorter than 10000
    characters it does not end with white space either (only a truncated
    result can). *)
Theorem sanitizeText_result_is_bounded_and_trimmed :
  forall input,
    (String.length (Security.sanitizeText input) <= Z.to_nat 10000)%nat
    /\ head_space (Security.sanitizeText input) = false
    /\ ((String.length (Security.sanitizeText input) < Z.to_nat 10000)%nat ->
        StringFacts.no_edge_space (Security.sanitizeText input) = true).
Proof.
  intros input. split; [exact (sanitizeText_length input)|].
  unfold Security.sanitizeText. rewrite substring_0. split.
  - apply take_head. unfold JS.trim. apply trimEnd_head, trimStart_head.
  - intros Hshort.
    set (t := JS.trim (DOMPurify.sanitize input)) in *.
    destruct (Nat.le_gt_cases (String.length t) (Z.to_nat 10000)) as [Hle|Hgt].
    + rewrite Nat.min_r by exact Hle. rewrite StringFacts.take_all by lia.
      apply trim_no_edge_space.
    + exfalso. rewrite Nat.min_l in Hshort by lia.
      assert (Hlen : forall n s, (n <= String.length s)%nat -> String.length (JS.take n s) = n).
      { induction n as [|n IH]; intros [|c s] Hn; simpl in *; try lia.
        rewrite IH; lia. }
      rewrite Hlen in Hshort by lia. lia.
Qed.

Lemma sanitizeText_result_is_bounded_and_trimmed_witness :
  StringFacts.no_edge_space (Security.sanitizeText "  hello world  ") = true.
Proof.
  apply (proj2 (proj2 (sanitizeText_result_is_bounded_and_trimmed "  hello world  "))).
  assert (Hlen : String.length (Security.sanitizeText "  hello world  ") = 11%nat)
    by (vm_compute; reflexivity).
  rewrite Hlen. lia.
Defined.

(** X8.  [sanitizeEmail] returns the empty string or an address of the
    accepted shape [localpart@domain.tld] without capital letters; such a
    result is a fixed point of [sanitizeEmail] and is never flagged by
    [containsXss]. *)
Theorem sanitizeEmail_result_is_normal :
  forall email,
    Security.sanitizeEmail email = EmptyString
    \/ (SanitizerFacts.email_shape (Security.sanitizeEmail email)
        /\ JS.toLowerCase (Security.sanitizeEmail email) = Security.sanitizeEmail email
        /\ Security.sanitizeEmail (Security.sanitizeEmail email) = Security.sanitizeEmail email
        /\ Security.containsXss (Security.sanitizeEmail email) = false).
Proof.
  intros email. destruct (sanitizeEmail_cases email) as [He|[Hshape He]]; [left; exact He|].
  right. rewrite He.
  pose proof (email_shape_lower _ Hshape) as Hlow.
  pose proof (email_shape_chars _ Hlow) as Hchars.
  assert (Hclean : SanitizerFacts.clean (JS.toLowerCase (Security.sanitizeText email))).
  { apply email_chars_clean; [exact Hchars|]. rewrite toLowerCase_length.
    apply sanitizeText_length. }
  split; [exact Hlow|]. split; [apply toLowerCase_idempotent|].
  split; [|now apply email_chars_not_xss].
  unfold Security.sanitizeEmail at 1. rewrite (sanitizeText_clean _ Hclean).
  apply SanitizerFacts.emailRegex_shape in Hlow. rewrite Hlow.
  apply toLowerCase_idempotent.
Qed.

Lemma sanitizeEmail_result_is_normal_witness :
  Security.sanitizeEmail (Security.sanitizeEmail " Ann.Lee@Example.ORG ")
  = Security.sanitizeEmail " Ann.Lee@Example.ORG ".
Proof.
  destruct (sanitizeEmail_result_is_normal " Ann.Lee@Example.ORG ") as [He|(_ & _ & He & _)].
  - vm_compute in He. discriminate He.
  - exact He.
Defined.

(** ** Consumption within one window *)

(** X25.  What [rateLimit] reports when its limiter is consulted, for any
    limiter of N points per W seconds and with the client's key given.  A
    window opens with a client's first consumption (the client has no
    record, or its previous window has elapsed) and lasts W seconds.
    Whatever other clients do in between, the first N consumptions of the
    client inside the window report success, with remaining quota N-1, ...,
    0, and every later one reports denial with remaining quota 0; each
    reports the limit N and a reset time between 1 and W seconds.  Every
    call is answered: the client gets one result per call. *)
Theorem consumption_allows_exactly_N_per_window :
  (forall l store ip t1 calls,
      0 < points l -> 0 < duration l ->
      fresh l store ip t1 ->
      (forall t, In (ip, t) calls -> t1 <= t < t1 + duration l * 1000) ->
      forall (i : nat) r,
        results_of ip (run l store ((ip, t1) :: calls)).2 !! i = Some r ->
        expected l (Z.of_nat i) r)
  /\ (forall l store ip calls,
        length (results_of ip (run l store calls).2) = length (results_of ip calls)).
Proof.
  split.
  - intros l store ip t1 calls. apply run_window.
  - intros. apply run_answers_all.
Qed.

Lemma consumption_allows_exactly_N_per_window_witness :
  exists r,
    results_of Samples.client
      (run (rateLimiters chat) ∅ ((Samples.client, 0) :: Samples.ten_calls)).2 !! 10%nat
    = Some r
    /\ expected (rateLimiters chat) 10 r.
Proof.
  destruct consumption_allows_exactly_N_per_window as [Hlimit _].
  destruct (results_of Samples.client
              (run (rateLimiters chat) ∅ ((Samples.client, 0) :: Samples.ten_calls)).2 !! 10%nat)
    as [r|] eqn:Hr; [|vm_compute in Hr; discriminate Hr].
  exists r. split; [reflexivity|]. change 10 with (Z.of_nat 10).
  apply (Hlimit (rateLimiters chat) ∅ Samples.client 0 Samples.ten_calls); try exact Hr.
  - reflexivity.
  - reflexivity.
  - exact I.
  - intros t Hin. apply in_map_iff in Hin as (j & Heq & Hj). apply in_seq in Hj.
    injection Heq as <-. simpl. lia.
Defined.

(** ** The schemas: raw checks, then transforms *)

Module ContactSchemaFacts.

Import JS Security Schemas.




(** White space only is sanitized to the empty string. *)
Lemma sanitizeText_all_space s :
  ContactFacts.all_space s = true -> sanitizeText s = EmptyString.
Proof.
  intros Hspace. unfold sanitizeText. rewrite SanitizerFacts.sanitize_plain.
  - rewrite (ContactFacts.trim_all_space s Hspace). reflexivity.
  - apply (all_chars_weaken JS.is_space); [vm_compute; reflexivity | exact Hspace].
Qed.


End ContactSchemaFacts.

Import ContactSchemaFacts.

(** X11.  The chat schema measures the raw content and hands out the
    sanitized one.  A content of white space only, of 1 to 5000
    characters, passes [min(1)] and is transformed to the empty string: the
    parse succeeds and the message it yields has an empty content. *)
Theorem chat_schema_accepts_blank_content :
  forall r c,
    In r ["user"; "assistant"; "system"]%string ->
    ContactFacts.all_space c = true ->
    (1 <= String.length c <= 5000)%nat ->
    Schemas.chatMessageSchema_safeParse (body_of [(r, c)])
    = Some [{| Schemas.role := r; Schemas.content := EmptyString |}].
Proof.
  intros r c Hr Hspace Hlen.
  rewrite (body_of_parse [(r, c)]).
  - cbn [map]. unfold sanitized. cbn [fst snd].
    now rewrite (sanitizeText_all_space c Hspace).
  - simpl. lia.
  - constructor; [|constructor]. split; [exact Hr | exact Hlen].
Qed.

Lemma chat_schema_accepts_blank_content_witness :
  Schemas.chatMessageSchema_safeParse (body_of [("user", "   ")]%string)
  = Some [{| Schemas.role := "user"; Schemas.content := EmptyString |}].
Proof.
  apply (chat_schema_accepts_blank_content "user" "   ").
  - simpl. auto.
  - reflexivity.
  - simpl. lia.
Defined.



(** ** The middleware as a whole *)

Module MiddlewareMore.

Import JS Next Middleware MiddlewareFacts.

(** The decision of the middleware, read off its three tests. *)
Definition admitted (auth : Auth) (req : NextRequest) : Prop :=
  isPublicRoute req = true
  \/ (truthy (userId auth) = true
      /\ (isAdminRoute req = true -> effective_role auth = "admin"%string)).

(** [headers.get(name)] on the headers as [headers_set] keeps them. *)
Fixpoint headers_get (name : string) (hs : list (string * string)) : option string :=
  match hs with
  | [] => None
  | (n, v) :: rest => if String.eqb n name then Some v else headers_get name rest
  end.

Lemma headers_get_set name value hs :
  headers_get name (headers_set name value hs) = Some value.
Proof.
  induction hs as [|[n v] hs IH]; simpl; [now rewrite String.eqb_refl|].
  destruct (String.eqb n name) eqn:Hn; simpl; [now rewrite String.eqb_refl|].
  now rewrite Hn.
Qed.

Lemma headers_get_set_other name other value hs :
  other <> name ->
  headers_get name (headers_set other value hs) = headers_get name hs.
Proof.
  intros Hne. apply String.eqb_neq in Hne.
  induction hs as [|[n v] hs IH]; simpl; [now rewrite Hne|].
  destruct (String.eqb_spec n other) as [->|Hno]; simpl.
  - now rewrite Hne.
  - now rewrite IH.
Qed.

Lemma middleware_cases production auth req :
  (admitted auth req
   /\ middleware production auth req = addSecurityHeaders production NextResponse_next)
  \/ (isPublicRoute req = false /\ truthy (userId auth) = false
      /\ middleware production auth req = NextResponse_redirect (signInUrl_with_return req))
  \/ (isPublicRoute req = false /\ truthy (userId auth) = true
      /\ isAdminRoute req = true /\ effective_role auth <> "admin"%string
      /\ middleware production auth req = NextResponse_redirect (portfolioUrl req)).
Proof.
  unfold middleware, adminBlock, admitted. fold (effective_role auth).
  destruct (isPublicRoute req) eqn:Hpub; [left; split; [left|]; reflexivity|].
  destruct (truthy (userId auth)) eqn:Hid; cbn [negb].
  - destruct (isAdminRoute req) eqn:Hadm.
    + destruct (String.eqb_spec (effective_role auth) "admin") as [Hrole|Hrole]; cbn [negb].
      * left. rewrite andb_false_r. split; [right; auto | reflexivity].
      * right. right. auto.
    + left. rewrite andb_false_r. split; [|reflexivity]. right. split; [reflexivity|].
      discriminate.
  - right. left. destruct (isAdminRoute req); auto.
Qed.

End MiddlewareMore.

Import MiddlewareMore.

(** X18.  The middleware's decision, for every request and every session.
    The request goes on exactly when the route is public, or a user is
    signed in and, on an admin route, has the role [admin] (letter case
    ignored).  Otherwise the response is a redirect: to the sign-in page
    with the requested address as [redirect_url] when nobody is signed in,
    to [/portfolio] for a signed-in user without the admin role on an admin
    route.  The redirect to the sign-in page without [redirect_url], which
    the [/portfolio] block would issue, is never returned: that block is
    reached only with a signed-in user. *)
Theorem middleware_decision :
  forall production auth req,
    (Middleware.resp_kind (Middleware.middleware production auth req) = Middleware.Next
     <-> admitted auth req)
    /\ (~ admitted auth req ->
        (JS.truthy (Middleware.userId auth) = false
         /\ Middleware.middleware production auth req
            = Middleware.NextResponse_redirect (Middleware.signInUrl_with_return req))
        \/ (JS.truthy (Middleware.userId auth) = true
            /\ Middleware.isAdminRoute req = true
            /\ Middleware.middleware production auth req
               = Middleware.NextResponse_redirect (Middleware.portfolioUrl req)))
    /\ Middleware.middleware production auth req
       <> Middleware.NextResponse_redirect (Middleware.signInUrl req).
Proof.
  intros production auth req.
  destruct (middleware_cases production auth req)
    as [[Hadm ->]|[(Hpub & Hid & ->)|(Hpub & Hid & Hroute & Hrole & ->)]].
  - split; [split; [intros _; exact Hadm | reflexivity]|].
    split; [contradiction | discriminate].
  - assert (Hno : ~ admitted auth req).
    { intros [H|[H _]]; congruence. }
    split; [split; [discriminate | contradiction]|].
    split; [left; auto | discriminate].
  - assert (Hno : ~ admitted auth req).
    { intros [H|[_ H]]; [congruence | auto]. }
    split; [split; [discriminate | contradiction]|].
    split; [right; auto | discriminate].
Qed.

Lemma middleware_decision_witness :
  JS.truthy (Middleware.userId anonymous) = false
  /\ Middleware.middleware true anonymous
       {| url := "https://site.example/portfolio"; origin := "https://site.example";
          pathname := "/portfolio"; x_forwarded_for := None; x_real_ip := None;
          req_json := None |}
     = Middleware.NextResponse_redirect
         {| Middleware.url_origin := "https://site.example";
            Middleware.url_pathname := "/sign-in";
            Middleware.searchParams :=
              [("redirect_url"%string, "https://site.example/portfolio"%string)] |}.
Proof.
  destruct (middleware_decision true anonymous
              {| url := "https://site.example/portfolio"; origin := "https://site.example";
                 pathname := "/portfolio"; x_forwarded_for := None; x_real_ip := None;
                 req_json := None |}) as (_ & Hred & _).
  destruct Hred as [H|(Hid & _)].
  - intros [Hpub|[Hid _]]; [vm_compute in Hpub | vm_compute in Hid]; discriminate.
  - exact H.
  - vm_compute in Hid. discriminate Hid.
Defined.

(** X19.  The security headers and where they end up.  Whatever response
    [addSecurityHeaders] is given, its result has [X-DNS-Prefetch-Control]
    set to [on] and [X-Powered-By] set to the empty string (the header is
    set, not removed), and each cookie keeps its name and value and becomes
    [httpOnly], [sameSite: lax], and [secure] exactly in production.  In
    the middleware only a request that goes on gets this treatment: every
    redirect is returned as it is built, without the two headers; and the
    responses the middleware builds have no cookie, so the loop over the
    cookies has nothing to do there. *)
Theorem security_headers_only_on_pass_through :
  (forall production response,
      headers_get "X-DNS-Prefetch-Control"
        (Middleware.resp_headers (Middleware.addSecurityHeaders production response))
      = Some "on"%string
      /\ headers_get "X-Powered-By"
           (Middleware.resp_headers (Middleware.addSecurityHeaders production response))
         = Some EmptyString
      /\ map (fun c => (Middleware.cookie_name c, Middleware.cookie_value c))
           (Middleware.resp_cookies (Middleware.addSecurityHeaders production response))
         = map (fun c => (Middleware.cookie_name c, Middleware.cookie_value c))
             (Middleware.resp_cookies response)
      /\ Forall (fun c => Middleware.httpOnly c = true
                          /\ Middleware.secure c = production
                          /\ Middleware.sameSite c = Some "lax"%string)
           (Middleware.resp_cookies (Middleware.addSecurityHeaders production response)))
  /\ (forall production auth req,
         Middleware.resp_cookies (Middleware.middleware production auth req) = []
         /\ match Middleware.resp_kind (Middleware.middleware production auth req) with
            | Middleware.Next =>
                headers_get "X-DNS-Prefetch-Control"
                  (Middleware.resp_headers (Middleware.middleware production auth req))
                = Some "on"%string
                /\ headers_get "X-Powered-By"
                     (Middleware.resp_headers (Middleware.middleware production auth req))
                   = Some EmptyString
            | Middleware.Redirect _ =>
                headers_get "X-DNS-Prefetch-Control"
                  (Middleware.resp_headers (Middleware.middleware production auth req))
                = None
                /\ headers_get "X-Powered-By"
                     (Middleware.resp_headers (Middleware.middleware production auth req))
                   = None
            end).
Proof.
  split.
  - intros production response. unfold Middleware.addSecurityHeaders.
    cbn [Middleware.resp_headers Middleware.resp_cookies].
    split; [|split; [|split]].
    + rewrite headers_get_set_other by discriminate. apply headers_get_set.
    + apply headers_get_set.
    + rewrite map_map. reflexivity.
    + apply List.Forall_forall. intros c Hin. apply in_map_iff in Hin as (c0 & <- & _).
      repeat split.
  - intros production auth req.
    destruct (middleware_cases production auth req)
      as [[_ ->]|[(_ & _ & ->)|(_ & _ & _ & _ & ->)]]; repeat split.
Qed.

(** ** Validation of the environment at start-up *)

Module EnvFacts.

Import JS Schemas Env.

(** The variable is set to a non-empty value. *)
Definition provided (e : gmap string string) (name : string) : Prop :=
  exists v, e !! name = Some v /\ v <> EmptyString.

Lemma check_required_nil path v :
  check_required path v = [] <-> exists s, v = Some s /\ s <> EmptyString.
Proof.
  unfold check_required. destruct v as [s|].
  - destruct (Z.ltb_spec (Z.of_nat (String.length s)) 1) as [Hshort|Hlong].
    + split; [discriminate|]. intros (s' & H' & Hne). injection H' as <-.
      destruct s; [congruence | simpl in Hshort; lia].
    + split; [|reflexivity]. intros _. exists s. split; [reflexivity|].
      intros ->. simpl in Hlong. lia.
  - split; [discriminate|]. intros (s & H & _). discriminate.
Qed.

Lemma envSchema_ok e :
  envSchema_issues e = []
  <-> provided e "NEXT_PUBLIC_CLERK_PUBLISHABLE_KEY" /\ provided e "CLERK_SECRET_KEY".
Proof.
  unfold envSchema_issues, provided. split.
  - intros H. apply app_eq_nil in H as [H1 H2].
    split; [now apply (check_required_nil "NEXT_PUBLIC_CLERK_PUBLISHABLE_KEY")
           | now apply (check_required_nil "CLERK_SECRET_KEY")].
  - intros [H1 H2]. apply (check_required_nil "NEXT_PUBLIC_CLERK_PUBLISHABLE_KEY") in H1.
    apply (check_required_nil "CLERK_SECRET_KEY") in H2. now rewrite H1, H2.
Qed.

End EnvFacts.

(** X20.  Start-up validation ends in a [TypeError] whenever a required
    key is missing, in development as in production.  [validateEnv] returns
    normally, with its success line, exactly when both Clerk keys are set to
    non-empty values.  Otherwise it logs [Environment validation failed:]
    and nothing else, no line per variable, and throws the [TypeError] of
    [error.errors.forEach]; the error [Missing required environment
    variables] is never thrown.  No variable other than the two keys
    matters, [NODE_ENV] included, and in the browser [env.validation.ts]
    does nothing. *)
Theorem validateEnv_throws_TypeError_when_a_key_is_missing :
  forall z (e : gmap string string),
    (Env.validateEnv z e
     = ([("Environment variables validated successfully"%string, [])], JS.Normal tt)
     <-> EnvFacts.provided e "NEXT_PUBLIC_CLERK_PUBLISHABLE_KEY"
         /\ EnvFacts.provided e "CLERK_SECRET_KEY")
    /\ (~ (EnvFacts.provided e "NEXT_PUBLIC_CLERK_PUBLISHABLE_KEY"
           /\ EnvFacts.provided e "CLERK_SECRET_KEY") ->
        Env.validateEnv z e
        = ([("Environment validation failed:"%string, [])],
           JS.Throw {| JS.error_name := "TypeError";
                       JS.error_message :=
                         "Cannot read properties of undefined (reading 'forEach')" |}))
    /\ (Env.validateEnv z e).2
       <> JS.Throw {| JS.error_name := "Error";
                      JS.error_message := "Missing required environment variables" |}
    /\ (forall name v,
           name <> "NEXT_PUBLIC_CLERK_PUBLISHABLE_KEY"%string ->
           name <> "CLERK_SECRET_KEY"%string ->
           Env.validateEnv z (<[name := v]> e) = Env.validateEnv z e)
    /\ Env.env_validation true z e = ([], JS.Normal tt).
Proof.
  intros z e. pose proof (EnvFacts.envSchema_ok e) as Hok.
  split; [|split; [|split; [|split; [|reflexivity]]]].
  - rewrite <- Hok. unfold Env.validateEnv.
    destruct (Env.envSchema_issues e); [split; reflexivity|].
    split; intros H; discriminate H.
  - intros Hno. unfold Env.validateEnv.
    destruct (Env.envSchema_issues e) eqn:Hi; [|reflexivity].
    exfalso. apply Hno, Hok. reflexivity.
  - unfold Env.validateEnv. destruct (Env.envSchema_issues e); discriminate.
  - intros name v H1 H2. unfold Env.validateEnv, Env.envSchema_issues.
    rewrite !lookup_insert_ne by congruence. reflexivity.
Qed.

Module EnvSamples.

(** A development environment without the secret key. *)
Definition development_without_secret : gmap string string :=
  <["NODE_ENV"%string := "development"%string]>
    (<["NEXT_PUBLIC_CLERK_PUBLISHABLE_KEY"%string := "pk_test_1"%string]> ∅).

End EnvSamples.

Lemma validateEnv_throws_TypeError_when_a_key_is_missing_witness :
  Env.validateEnv ContactFacts.sample_zod EnvSamples.development_without_secret
  = ([("Environment validation failed:"%string, [])],
     JS.Throw {| JS.error_name := "TypeError";
                 JS.error_message :=
                   "Cannot read properties of undefined (reading 'forEach')" |}).
Proof.
  apply (proj1 (proj2 (validateEnv_throws_TypeError_when_a_key_is_missing
                         ContactFacts.sample_zod EnvSamples.development_without_secret))).
  intros [_ (v & Hv & _)]. vm_compute in Hv. discriminate Hv.
Defined.

(** ** The widget's tag stripping *)

Module StripTagsFacts.

Import JS RegExp RegExpSpec HeuristicFacts StringFacts.
















End StripTagsFacts.

Import StripTagsFacts.



(** ** The widget's history against the schema *)

Module ChatWidgetFacts.

Import JS Schemas.

Lemma handleSubmit_body messages input isLoading now suggestedQuestion text body :
  ChatWidget.handleSubmit messages input isLoading now suggestedQuestion = ChatWidget.Send text body ->
  exists userMessage, body = ChatWidget.requestBody (messages ++ [userMessage]).
Proof.
  unfold ChatWidget.handleSubmit. destruct (_ || _); [discriminate|].
  destruct (_ <? _); [discriminate|]. intros H. injection H as _ <-. eauto.
Qed.

End ChatWidgetFacts.

(** X22.  The widget's history outgrows the schema's limit.  [handleSubmit]
    posts every message it holds plus the new one and never drops old ones,
    while [chatMessageSchema] accepts at most 50 messages: once the widget
    holds 50 messages or more, every body it posts fails the schema,
    whatever the user types. *)
Theorem widget_history_over_fifty_fails_the_schema :
  forall messages input isLoading stamp suggestedQuestion text body,
    (50 <= length messages)%nat ->
    ChatWidget.handleSubmit messages input isLoading stamp suggestedQuestion
    = ChatWidget.Send text body ->
    Schemas.chatMessageSchema_safeParse body = None.
Proof.
  intros messages input isLoading stamp suggestedQuestion text body Hlong Hsend.
  apply ChatWidgetFacts.handleSubmit_body in Hsend as (userMessage & ->).
  unfold Schemas.chatMessageSchema_safeParse, ChatWidget.requestBody.
  cbn [JS.assoc String.eqb Ascii.eqb Bool.eqb]. rewrite length_map, length_app.
  cbn [length].
  destruct (Z.leb_spec (Z.of_nat (length messages + 1)) 50) as [Hle|_]; [lia|].
  now rewrite andb_false_r.
Qed.

Module WidgetHistorySamples.

Import JS Next.

(** Fifty short messages, as left by twenty-five exchanges. *)
Definition long_history : list ChatWidget.Message :=
  repeat {| ChatWidget.id := "2"; ChatWidget.role := "user"; ChatWidget.content := "hello";
            ChatWidget.reaction := None |} 50.

Definition next_body : json :=
  match ChatWidget.handleSubmit long_history "hello again" false "1763078400000" None with
  | ChatWidget.Send _ body => body
  | _ => JNull
  end.

End WidgetHistorySamples.

Lemma widget_history_over_fifty_fails_the_schema_witness :
  Schemas.chatMessageSchema_safeParse WidgetHistorySamples.next_body = None.
Proof.
  apply (widget_history_over_fifty_fails_the_schema
           WidgetHistorySamples.long_history "hello again" false "1763078400000" None
           "hello again" WidgetHistorySamples.next_body).
  - unfold WidgetHistorySamples.long_history. rewrite repeat_length. lia.
  - vm_compute. reflexivity.
Defined.
